(** * VelocyPack Slice: a shallow embedding of the read side of go-velocypack

    The development follows [slice.go] and [object_iterator.go].  A Go
    [Slice] is a [[]byte]; integers of type [ValueLength] and [uint64] are
    modelled as [Z] with the 64-bit wrap-around written out, values of type
    [byte] as [Z] reduced modulo 256, and [int64] as [Z] in two's complement
    range.  A Go function returning [(T, error)] becomes a function into
    [result T]; a run-time panic (index out of range, slice bounds out of
    range, failed assertion) is the outcome [Panic]. *)

From Stdlib Require Import ZArith List Lia Bool String.
From Stdlib Require Import Strings.Byte.
Import ListNotations.

Local Open Scope Z_scope.

(** ** Outcomes of a call *)

(** The error kinds of the package.  [InvalidTypeError] carries its message
    as in the source; [TodoError] is [fmt.Errorf("TODO")]. *)
Inductive error : Type :=
| InvalidTypeError (msg : string)
| IndexOutOfBoundsError
| NumberOutOfRangeError
| NeedAttributeTranslatorError
| InternalError
| OverflowError
| TodoError.

(** [Ok v] is a return with a nil error, [Err e] a return with error [e],
    [Panic] a run-time panic, and [Timeout] the exhaustion of the iteration
    budget of a loop that Go writes as an unbounded [for]. *)
Inductive result (A : Type) : Type :=
| Ok (v : A)
| Err (e : error)
| Panic
| Timeout.

Arguments Ok {A} v.
Arguments Err {A} e.
Arguments Panic {A}.
Arguments Timeout {A}.

Definition bind {A B : Type} (r : result A) (k : A -> result B) : result B :=
  match r with
  | Ok v => k v
  | Err e => Err e
  | Panic => Panic
  | Timeout => Timeout
  end.

Notation "x <- e ;; k" := (bind e (fun x => k))
  (at level 61, e at next level, right associativity).
Notation "e ;;; k" := (bind e (fun _ => k))
  (at level 61, right associativity).

(** [WithStack] decorates an error with a stack trace and keeps its kind;
    the decoration is not observable here. *)
Definition WithStack (e : error) : error := e.

(** ** Machine integers *)

Definition u8 (x : Z) : Z := x mod 256.
Definition u64 (x : Z) : Z := x mod 2 ^ 64.
Definition i64 (x : Z) : Z := (x + 2 ^ 63) mod 2 ^ 64 - 2 ^ 63.

Definition MaxInt64 : Z := 2 ^ 63 - 1.
Definition int64Length : Z := 8.

(** Go strings are byte sequences. *)
Definition gostring : Type := list byte.

Definition byteval (b : byte) : Z := Z.of_N (Byte.to_N b).

(** ** Slices of bytes *)

Definition Slice : Type := list byte.

(** The nil Slice, the None-Slice that [Get] returns for a missing
    attribute. *)
Definition nilSlice : Slice := [].

Definition len (s : Slice) : Z := Z.of_nat (List.length s).

(** [s[i]]: panics when [i] is out of range. *)
Definition at_ (s : Slice) (i : Z) : result Z :=
  if (0 <=? i) && (i <? len s)
  then match nth_error s (Z.to_nat i) with
       | Some b => Ok (byteval b)
       | None => Panic
       end
  else Panic.

(** [s[a:]]: panics when [a > len(s)].  Capacity beyond the length is not
    modelled: a Slice has [cap = len]. *)
Definition from (s : Slice) (a : Z) : result Slice :=
  if (0 <=? a) && (a <=? len s) then Ok (skipn (Z.to_nat a) s) else Panic.

(** [s[a:b]]: panics unless [a <= b <= len(s)]. *)
Definition range (s : Slice) (a b : Z) : result Slice :=
  if (0 <=? a) && (a <=? b) && (b <=? len s)
  then Ok (firstn (Z.to_nat (b - a)) (skipn (Z.to_nat a) s))
  else Panic.

(** head returns the first element of the slice or 0 if the slice is
    empty. *)
Definition head (s : Slice) : Z :=
  match s with
  | [] => 0
  | b :: _ => byteval b
  end.

(** ** Value types *)

Module ValueType.
Inductive t : Type :=
| None | Illegal | Null | Bool | Array | Object | Double | UTCDate
| External | MinKey | MaxKey | Int | UInt | SmallInt | String | Binary
| BCD | Custom.

Definition eqb (a b : t) : bool :=
  match a, b with
  | None, None | Illegal, Illegal | Null, Null | Bool, Bool
  | Array, Array | Object, Object | Double, Double | UTCDate, UTCDate
  | External, External | MinKey, MinKey | MaxKey, MaxKey | Int, Int
  | UInt, UInt | SmallInt, SmallInt | String, String | Binary, Binary
  | BCD, BCD | Custom, Custom => true
  | _, _ => false
  end.
End ValueType.

Definition within (lo hi h : Z) : bool := (lo <=? h) && (h <=? hi).

(** Modelled from the spec: the 256-entry table [typeMap] is declared
    outside the sources at hand; the head-byte grammar of the data model
    gives it.  Head bytes the grammar does not list map to [None]. *)
Definition typeMap (h : Z) : ValueType.t :=
  if h =? 0x00 then ValueType.None
  else if within 0x01 0x09 h then ValueType.Array
  else if within 0x0a 0x12 h then ValueType.Object
  else if h =? 0x13 then ValueType.Array
  else if h =? 0x14 then ValueType.Object
  else if h =? 0x17 then ValueType.Illegal
  else if h =? 0x18 then ValueType.Null
  else if within 0x19 0x1a h then ValueType.Bool
  else if h =? 0x1b then ValueType.Double
  else if h =? 0x1c then ValueType.UTCDate
  else if h =? 0x1d then ValueType.External
  else if h =? 0x1e then ValueType.MinKey
  else if h =? 0x1f then ValueType.MaxKey
  else if within 0x20 0x27 h then ValueType.Int
  else if within 0x28 0x2f h then ValueType.UInt
  else if within 0x30 0x3f h then ValueType.SmallInt
  else if within 0x40 0xbf h then ValueType.String
  else if within 0xc0 0xc7 h then ValueType.Binary
  else if within 0xc8 0xd7 h then ValueType.BCD
  else if within 0xf0 0xff h then ValueType.Custom
  else ValueType.None.

(** Modelled from the spec: the table [widthMap] is declared outside the
    sources at hand; for container heads [0x01..0x12] it is the width in
    bytes of an offset-table entry (0, 1, 2, 4 or 8). *)
Definition widthMap (h : Z) : Z :=
  if (h =? 0x02) || (h =? 0x06) || (h =? 0x0b) || (h =? 0x0f) then 1
  else if (h =? 0x03) || (h =? 0x07) || (h =? 0x0c) || (h =? 0x10) then 2
  else if (h =? 0x04) || (h =? 0x08) || (h =? 0x0d) || (h =? 0x11) then 4
  else if (h =? 0x05) || (h =? 0x09) || (h =? 0x0e) || (h =? 0x12) then 8
  else 0.

(** Modelled from the spec: the table [firstSubMap] is declared outside the
    sources at hand; for a container head it is the smallest byte position
    at which member data may begin: after the byte-length field, and after
    the item count when the count follows it (widths 1, 2 and 4 of the
    heads that store a count). *)
Definition firstSubMap (h : Z) : Z :=
  if (h =? 0x01) || (h =? 0x0a) then 1
  else if h =? 0x02 then 2
  else if (h =? 0x03) || (h =? 0x06) || (h =? 0x0b) || (h =? 0x0f) then 3
  else if (h =? 0x04) || (h =? 0x07) || (h =? 0x0c) || (h =? 0x10) then 5
  else if within 0x01 0x12 h then 9
  else 0.

(** ** Platform and process-wide settings *)

(** What the sources leave to their surroundings: whether
    [VELOCYPACK_ASSERT] checks its condition, the largest length the
    platform can address (the bound of [checkOverflow]), the size of a
    pointer (External values), and the process-wide [AttributeTranslator]
    (nil, or its method [IDToString]). *)
Record Settings : Type := {
  assertionsChecked : bool;
  addressLimit : Z;
  charPtrLength : Z;
  AttributeTranslator : option (Z -> gostring)
}.

(** Modelled from the spec: the table [fixedTypeLengths] is declared outside
    the sources at hand; it gives the byte length of the heads whose length
    is statically known and 0 for the others. *)
Definition fixedTypeLengths (ptr : Z) (h : Z) : Z :=
  if (h =? 0x00) || (h =? 0x01) || (h =? 0x0a) then 1
  else if within 0x17 0x1a h then 1
  else if within 0x1b 0x1c h then 1 + 8
  else if h =? 0x1d then 1 + ptr
  else if within 0x1e 0x1f h then 1
  else if within 0x20 0x27 h then 1 + (h - 0x1f)
  else if within 0x28 0x2f h then 1 + (h - 0x27)
  else if within 0x30 0x3f h then 1
  else if within 0x40 0xbe h then 1 + (h - 0x40)
  else if h =? 0xf0 then 2
  else if h =? 0xf1 then 3
  else if h =? 0xf2 then 5
  else if h =? 0xf3 then 9
  else 0.

(** ** Integer codecs *)

(** Modelled from the spec: [readIntegerNonEmpty] is declared outside the
    sources at hand; it reads a little-endian unsigned integer of the given
    width from the start of the bytes, into a [uint64].  Reading past the
    end of the bytes is an index out of range. *)
Fixpoint readIntegerLoop (n : nat) (s : list byte) (x v : Z) : result Z :=
  match n with
  | O => Ok v
  | S n' =>
      match s with
      | [] => Panic
      | b :: s' =>
          readIntegerLoop n' s' (x + 8) (u64 (v + u64 (Z.shiftl (byteval b) x)))
      end
  end.

Definition readIntegerNonEmpty (s : Slice) (length : Z) : result Z :=
  readIntegerLoop (Z.to_nat length) s 0 0.

(** Modelled from the spec: [readIntegerFixed] is declared outside the
    sources at hand; the same little-endian read for a width known at the
    call. *)
Definition readIntegerFixed (s : Slice) (length : Z) : result Z :=
  readIntegerLoop (Z.to_nat length) s 0 0.

(** Modelled from the spec: [readVariableValueLength] is declared outside
    the sources at hand.  Forward form: the low 7 bits of each byte carry
    data, least significant group first, and the top bit is set on every
    byte except the last.  Backward form: the bytes are consumed towards
    lower addresses from the first byte of the given bytes, while their top
    bit is set; the callers pass [s[end-1:]], which holds no byte below its
    first, so a second byte is an index out of range. *)
Fixpoint readVariableForward (s : list byte) (p length : Z) : result Z :=
  match s with
  | [] => Panic
  | b :: s' =>
      let v := byteval b in
      let length' := u64 (length + u64 (Z.shiftl (Z.land v 0x7f) p)) in
      if Z.land v 0x80 =? 0 then Ok length'
      else readVariableForward s' (p + 7) length'
  end.

Definition readVariableValueLength (source : Slice) (reverse : bool) : result Z :=
  if reverse
  then match source with
       | [] => Panic
       | b :: _ =>
           let v := byteval b in
           if Z.land v 0x80 =? 0 then Ok (Z.land v 0x7f) else Panic
       end
  else readVariableForward source 0 0.

(** Modelled from the spec: [getVariableValueLength] is declared outside the
    sources at hand; the number of bytes of the variable-length form of a
    value, 7 bits per byte. *)
Fixpoint variableLengthLoop (fuel : nat) (value : Z) : Z :=
  match fuel with
  | O => 1
  | S fuel' =>
      if value <? 0x80 then 1
      else 1 + variableLengthLoop fuel' (Z.shiftr value 7)
  end.

Definition getVariableValueLength (value : Z) : Z :=
  variableLengthLoop 10 value.

(** Modelled from the spec: [toInt64] is declared outside the sources at
    hand; the two's-complement reinterpretation of a 64-bit value. *)
Definition toInt64 (v : Z) : Z :=
  if v <? 2 ^ 63 then v else v - 2 ^ 64.

(** Modelled from the spec: [StringSlice] is declared outside the sources at
    hand; the String encoding of the grammar: head [0x40 + length] for up to
    126 bytes, otherwise head [0xbf], the length in 8 bytes little-endian,
    and the bytes. *)
Fixpoint littleEndian (n : nat) (v : Z) : list byte :=
  match n with
  | O => []
  | S n' =>
      match Byte.of_N (Z.to_N (v mod 256)) with
      | Some b => b :: littleEndian n' (v / 256)
      | None => []
      end
  end.

Definition StringSlice (key : gostring) : Slice :=
  let l := len key in
  if l <=? 126
  then match Byte.of_N (Z.to_N (0x40 + l)) with
       | Some b => b :: key
       | None => []
       end
  else Byte.xbf :: littleEndian 8 l ++ key.

(** Lexicographic comparison of byte strings ([bytes.Compare]):
    [-1], [0] or [1]. *)
Fixpoint bytesCompare (a b : list byte) : Z :=
  match a, b with
  | [], [] => 0
  | [], _ :: _ => -1
  | _ :: _, [] => 1
  | x :: a', y :: b' =>
      if byteval x <? byteval y then -1
      else if byteval y <? byteval x then 1
      else bytesCompare a' b'
  end.

Definition bytesEqual (a b : list byte) : bool := bytesCompare a b =? 0.

Fixpoint stringEqual (a b : gostring) : bool :=
  match a, b with
  | [], [] => true
  | x :: a', y :: b' => Byte.eqb x y && stringEqual a' b'
  | _, _ => false
  end.

(** ** The Slice inspector *)

Section SliceInspector.

Variable cfg : Settings.

(** Taken as a setting: [VELOCYPACK_ASSERT] is declared outside the sources
    at hand.  When assertions are checked a false condition panics; when
    they are not, the call does nothing. *)
Definition VELOCYPACK_ASSERT (condition : bool) : result unit :=
  if assertionsChecked cfg
  then (if condition then Ok tt else Panic)
  else Ok tt.

(** Modelled from the spec: [checkOverflow] is declared outside the sources
    at hand; a length that exceeds what the platform can address is an
    overflow error. *)
Definition checkOverflow (length : Z) : result unit :=
  if length >? addressLimit cfg then Err OverflowError else Ok tt.

(** Modelled from the spec: [Type] and the predicates [IsArray], [IsObject],
    ... are declared outside the sources at hand; the type of a Slice is the
    table entry of its head byte. *)
Definition Type_ (s : Slice) : ValueType.t := typeMap (head s).

Definition IsType (s : Slice) (t : ValueType.t) : bool :=
  ValueType.eqb (Type_ s) t.

Definition IsArray (s : Slice) : bool := IsType s ValueType.Array.
Definition IsObject (s : Slice) : bool := IsType s ValueType.Object.
Definition IsString (s : Slice) : bool := IsType s ValueType.String.
Definition IsSmallInt (s : Slice) : bool := IsType s ValueType.SmallInt.
Definition IsUInt (s : Slice) : bool := IsType s ValueType.UInt.
Definition IsBinary (s : Slice) : bool := IsType s ValueType.Binary.

(** ByteSize returns the total byte size for the slice, including the head
    byte. *)
Definition ByteSize (s : Slice) : result Z :=
  let h := head s in
  (* check if the type has a fixed length first *)
  let l := fixedTypeLengths (charPtrLength cfg) h in
  if negb (l =? 0) then Ok l
  else
    (* types with dynamic lengths need special treatment *)
    match Type_ s with
    | ValueType.Array | ValueType.Object =>
        if (h =? 0x13) || (h =? 0x14) then
          (* compact Array or Object *)
          s1 <- from s 1 ;;
          readVariableValueLength s1 false
        else if (h =? 0x01) || (h =? 0x0a) then Ok 1
        else
          VELOCYPACK_ASSERT ((h >? 0x00) && (h <=? 0x0e)) ;;;
          s1 <- from s 1 ;;
          readIntegerNonEmpty s1 (widthMap h)
    | ValueType.External => Ok (u64 (1 + charPtrLength cfg))
    | ValueType.UTCDate => Ok (u64 (1 + int64Length))
    | ValueType.Int => Ok (u8 (1 + u8 (h - 0x1f)))
    | ValueType.String =>
        VELOCYPACK_ASSERT (h =? 0xbf) ;;;
        if h <? 0xbf then Ok (u64 (h - 0x40))
        else
          (* long UTF-8 String *)
          s1 <- from s 1 ;;
          v <- readIntegerFixed s1 8 ;;
          Ok (u64 (1 + 8 + v))
    | ValueType.Binary =>
        VELOCYPACK_ASSERT ((h >=? 0xc0) && (h <=? 0xc7)) ;;;
        s1 <- from s 1 ;;
        v <- readIntegerNonEmpty s1 (u64 (h - 0xbf)) ;;
        Ok (u64 (1 + h - 0xbf + v))
    | ValueType.BCD =>
        if h <=? 0xcf then
          (* positive BCD *)
          VELOCYPACK_ASSERT ((h >=? 0xc8) && (h <? 0xcf)) ;;;
          s1 <- from s 1 ;;
          v <- readIntegerNonEmpty s1 (u64 (h - 0xc7)) ;;
          Ok (u64 (1 + h - 0xc7 + v))
        else
          (* negative BCD *)
          VELOCYPACK_ASSERT ((h >=? 0xd0) && (h <? 0xd7)) ;;;
          s1 <- from s 1 ;;
          v <- readIntegerNonEmpty s1 (u64 (h - 0xcf)) ;;
          Ok (u64 (1 + h - 0xcf + v))
    | ValueType.Custom =>
        VELOCYPACK_ASSERT (h >=? 0xf4) ;;;
        if within 0xf4 0xf6 h then
          s1 <- from s 1 ;; v <- readIntegerFixed s1 1 ;; Ok (u64 (2 + v))
        else if within 0xf7 0xf9 h then
          s1 <- from s 1 ;; v <- readIntegerFixed s1 2 ;; Ok (u64 (3 + v))
        else if within 0xfa 0xfc h then
          s1 <- from s 1 ;; v <- readIntegerFixed s1 4 ;; Ok (u64 (5 + v))
        else if within 0xfd 0xff h then
          s1 <- from s 1 ;; v <- readIntegerFixed s1 8 ;; Ok (u64 (9 + v))
        else Err InternalError
    | _ => Err InternalError
    end.

(** Next returns the Slice that directly follows the given slice.  Same as
    [s[s.ByteSize:]]. *)
Definition Next (s : Slice) : result Slice :=
  size <- ByteSize s ;;
  from s size.

(** *** Integers *)

(** [GetInt], [GetUInt] and [GetSmallInt] call one another.  Their bodies
    are written once, selected by a tag, over the function [call] that
    stands for the calls among them; [getNumber] closes the recursion over
    the depth of calls still allowed. *)
Inductive getter : Type := getInt | getUInt | getSmallInt.

Definition getNumberBody (call : getter -> Slice -> result Z)
  (g : getter) (s : Slice) : result Z :=
  let h := head s in
  match g with
  | getInt =>
      if (h >=? 0x20) && (h <=? 0x27) then
        (* Int  T *)
        s1 <- from s 1 ;;
        v <- readIntegerNonEmpty s1 (u64 (h - 0x1f)) ;;
        if h =? 0x27 then Ok (toInt64 v)
        else
          let vv := i64 v in
          let shift := i64 (Z.shiftl 1 (u8 (u8 (u8 (h - 0x1f) * 8) - 1))) in
          if vv <? shift then Ok vv
          else Ok (i64 (vv - i64 (Z.shiftl shift 1)))
      else if (h >=? 0x28) && (h <=? 0x2f) then
        (* UInt *)
        v <- call getUInt s ;;
        if v >? MaxInt64 then Err NumberOutOfRangeError
        else Ok (i64 v)
      else if (h >=? 0x30) && (h <=? 0x3f) then
        (* SmallInt *)
        call getSmallInt s
      else Err (InvalidTypeError "Expecting type Int")
  | getUInt =>
      if h =? 0x28 then
        (* single byte integer *)
        at_ s 1
      else if (h >=? 0x29) && (h <=? 0x2f) then
        (* UInt *)
        s1 <- from s 1 ;;
        readIntegerNonEmpty s1 (u64 (h - 0x27))
      else if (h >=? 0x20) && (h <=? 0x27) then
        (* Int *)
        v <- call getInt s ;;
        if v <? 0 then Err NumberOutOfRangeError
        else Ok (u64 v)
      else if (h >=? 0x30) && (h <=? 0x39) then
        (* Smallint >= 0 *)
        Ok (u8 (h - 0x30))
      else if (h >=? 0x3a) && (h <=? 0x3f) then
        (* Smallint < 0 *)
        Err NumberOutOfRangeError
      else Err (InvalidTypeError "Expecting type UInt")
  | getSmallInt =>
      if (h >=? 0x30) && (h <=? 0x39) then
        (* Smallint >= 0 *)
        Ok (u8 (h - 0x30))
      else if (h >=? 0x3a) && (h <=? 0x3f) then
        (* Smallint < 0 *)
        Ok (i64 (u8 (h - 0x3a) - 6))
      else if ((h >=? 0x20) && (h <=? 0x27))
              || ((h >=? 0x28) && (h <=? 0x2f)) then
        (* Int and UInt *)
        call getInt s
      else Err (InvalidTypeError "Expecting type SmallInt")
  end.

Fixpoint getNumber (depth : nat) : getter -> Slice -> result Z :=
  match depth with
  | O => fun _ _ => Timeout
  | S depth' => getNumberBody (getNumber depth')
  end.

(** No chain of calls among the three is longer than three:
    [GetSmallInt] on a UInt head calls [GetInt], which calls [GetUInt]. *)
Definition callDepth : nat := 3.

(** GetInt returns a Int value from the slice. *)
Definition GetInt (s : Slice) : result Z := getNumber callDepth getInt s.

(** GetUInt returns a UInt value from the slice. *)
Definition GetUInt (s : Slice) : result Z := getNumber callDepth getUInt s.

(** GetSmallInt returns a SmallInt value from the slice. *)
Definition GetSmallInt (s : Slice) : result Z := getNumber callDepth getSmallInt s.

(** *** Strings and binaries *)

(** GetString return the value for a String object. *)
Definition GetString (s : Slice) : result gostring :=
  let h := head s in
  if (h >=? 0x40) && (h <=? 0xbe) then
    (* short UTF-8 String *)
    let length := u8 (h - 0x40) in
    range s 1 (u8 (1 + length))
  else if h =? 0xbf then
    (* long UTF-8 String *)
    s1 <- from s 1 ;;
    length <- readIntegerFixed s1 8 ;;
    checkOverflow length ;;;
    range s (1 + 8) (u64 (1 + 8 + length))
  else Err (InvalidTypeError "Expecting type String").

(** GetStringLength return the length for a String object. *)
Definition GetStringLength (s : Slice) : result Z :=
  let h := head s in
  if (h >=? 0x40) && (h <=? 0xbe) then Ok (u8 (h - 0x40))
  else if h =? 0xbf then
    s1 <- from s 1 ;;
    length <- readIntegerFixed s1 8 ;;
    checkOverflow length ;;;
    Ok length
  else Err (InvalidTypeError "Expecting type String").

(** CompareString compares the string value in the slice with the given
    string. *)
Definition CompareString (s : Slice) (value : gostring) : result Z :=
  k <- GetString s ;;
  Ok (bytesCompare k value).

(** IsEqualString compares the string value in the slice with the given
    string for equivalence. *)
Definition IsEqualString (s : Slice) (value : gostring) : result bool :=
  k <- GetString s ;;
  Ok (stringEqual k value).

(** GetBinary return the value for a Binary object.  The result of
    [checkOverflow] is dropped, as in the source. *)
Definition GetBinary (s : Slice) : result (list byte) :=
  if negb (IsBinary s) then Err (InvalidTypeError "Expecting type Binary")
  else
    let h := head s in
    VELOCYPACK_ASSERT ((h >=? 0xc0) && (h <=? 0xc7)) ;;;
    let lengthSize := u8 (h - 0xbf) in
    s1 <- from s 1 ;;
    length <- readIntegerNonEmpty s1 lengthSize ;;
    let _ := checkOverflow length in
    range s (u64 (1 + lengthSize)) (u64 (1 + lengthSize + length)).


(** *** Arrays and objects *)

Definition indexEntrySize (h : Z) : result Z :=
  VELOCYPACK_ASSERT ((h >? 0x00) && (h <=? 0x12)) ;;;
  Ok (widthMap h).

(** findDataOffset must be called for a nonempty array or object.  Each
    test [fsm <= p && s[p] != 0] reads [s[p]] only when [fsm <= p]. *)
Definition findDataOffset (s : Slice) (h : Z) : result Z :=
  VELOCYPACK_ASSERT (h <=? 0x12) ;;;
  let fsm := firstSubMap h in
  let test (p : Z) (otherwise : result Z) : result Z :=
    if fsm <=? p then
      b <- at_ s p ;;
      if negb (b =? 0) then Ok p else otherwise
    else otherwise in
  test 2 (test 3 (test 5 (Ok 9))).

(** Length return the number of members for an Array or Object object. *)
Definition Length (s : Slice) : result Z :=
  if negb (IsArray s) && negb (IsObject s)
  then Err (InvalidTypeError "Expecting type Array or Object")
  else
    let h := head s in
    if (h =? 0x01) || (h =? 0x0a) then
      (* special case: empty! *)
      Ok 0
    else if (h =? 0x13) || (h =? 0x14) then
      (* compact Array or Object *)
      s1 <- from s 1 ;;
      end_ <- readVariableValueLength s1 false ;;
      se <- from s (u64 (end_ - 1)) ;;
      readVariableValueLength se true
    else
      offsetSize <- indexEntrySize h ;;
      VELOCYPACK_ASSERT (offsetSize >? 0) ;;;
      s1 <- from s 1 ;;
      end_ <- readIntegerNonEmpty s1 offsetSize ;;
      (* find number of items *)
      if h <=? 0x05 then
        (* No offset table or length, need to compute *)
        firstSubOffset <- findDataOffset s h ;;
        first <- from s firstSubOffset ;;
        size <- ByteSize first ;;
        if size =? 0 then Err InternalError
        else Ok (u64 (end_ - firstSubOffset) / size)
      else if offsetSize <? 8 then
        sn <- from s (u64 (offsetSize + 1)) ;;
        readIntegerNonEmpty sn offsetSize
      else
        sn <- from s (u64 (end_ - offsetSize)) ;;
        readIntegerNonEmpty sn offsetSize.

(** return the value for a UInt object, without checks!  returns 0 for
    invalid values/types *)
Definition getUIntUnchecked (s : Slice) : result Z :=
  let h := head s in
  if (h >=? 0x28) && (h <=? 0x2f) then
    (* UInt *)
    s1 <- from s 1 ;;
    readIntegerNonEmpty s1 (u8 (h - 0x27))
  else if (h >=? 0x30) && (h <=? 0x39) then
    (* Smallint >= 0 *)
    Ok (u8 (h - 0x30))
  else Ok 0.

(** translates an integer key into a string, without checks.  Calling
    [IDToString] on a nil [AttributeTranslator] is a nil dereference. *)
Definition translateUnchecked (s : Slice) : result Slice :=
  id <- getUIntUnchecked s ;;
  match AttributeTranslator cfg with
  | None => Panic
  | Some IDToString =>
      let key := IDToString id in
      match key with
      | [] => Ok nilSlice
      | _ :: _ => Ok (StringSlice key)
      end
  end.

Definition translatorIsNil : bool :=
  match AttributeTranslator cfg with
  | None => true
  | Some _ => false
  end.

Definition makeKey (s : Slice) : result Slice :=
  if IsString s then Ok s
  else if IsSmallInt s || IsUInt s then
    if translatorIsNil then Err (WithStack NeedAttributeTranslatorError)
    else translateUnchecked s
  else Err (InvalidTypeError "Cannot translate key of this type").

(** get the offset for the nth member from a compact Array or Object type.
    The loop [for current != index] runs [index] times; [count] is the
    number of iterations left. *)
Fixpoint compactOffsetLoop (s : Slice) (h : Z) (count : nat) (offset : Z)
  : result Z :=
  match count with
  | O => Ok offset
  | S count' =>
      sliceAtOffset <- from s offset ;;
      sliceAtOffsetByteSize <- ByteSize sliceAtOffset ;;
      let offset := u64 (offset + sliceAtOffsetByteSize) in
      if h =? 0x14 then
        sliceAtOffset <- from s offset ;;
        sliceAtOffsetByteSize <- ByteSize sliceAtOffset ;;
        let offset := u64 (offset + sliceAtOffsetByteSize) in
        compactOffsetLoop s h count' offset
      else compactOffsetLoop s h count' offset
  end.

Definition getNthOffsetFromCompact (s : Slice) (index : Z) : result Z :=
  s1 <- from s 1 ;;
  end_ <- readVariableValueLength s1 false ;;
  se <- from s (u64 (end_ - 1)) ;;
  n <- readVariableValueLength se true ;;
  if index >=? n then Err IndexOutOfBoundsError
  else
    let h := head s in
    let offset := u64 (1 + getVariableValueLength end_) in
    compactOffsetLoop s h (Z.to_nat index) offset.

(** get the offset for the nth member from an Array or Object type *)
Definition getNthOffset (s : Slice) (index : Z) : result Z :=
  VELOCYPACK_ASSERT (IsArray s || IsObject s) ;;;
  let h := head s in
  if (h =? 0x13) || (h =? 0x14) then
    (* compact Array or Object *)
    getNthOffsetFromCompact s index
  else if (h =? 0x01) || (h =? 0x0a) then
    (* special case: empty Array or empty Object *)
    Err IndexOutOfBoundsError
  else
    offsetSize <- indexEntrySize h ;;
    s1 <- from s 1 ;;
    end_ <- readIntegerNonEmpty s1 offsetSize ;;
    (* find the number of items *)
    dn <- (if h <=? 0x05 then
             (* No offset table or length, need to compute *)
             dataOffset <- findDataOffset s h ;;
             first <- from s dataOffset ;;
             size <- ByteSize first ;;
             if size =? 0 then Err InternalError
             else Ok (dataOffset, u64 (end_ - dataOffset) / size)
           else if offsetSize <? 8 then
             sn <- from s (u64 (1 + offsetSize)) ;;
             n <- readIntegerNonEmpty sn offsetSize ;;
             Ok (0, n)
           else
             sn <- from s (u64 (end_ - offsetSize)) ;;
             n <- readIntegerNonEmpty sn offsetSize ;;
             Ok (0, n)) ;;
    let dataOffset := fst dn in
    let n := snd dn in
    if index >=? n then Err IndexOutOfBoundsError
    else
      (* empty array case was already covered *)
      VELOCYPACK_ASSERT (n >? 0) ;;;
      if (h <=? 0x05) || (n =? 1) then
        (* no index table, but all array items have the same length *)
        dataOffset <- (if dataOffset =? 0 then findDataOffset s h
                       else Ok dataOffset) ;;
        sliceAtDataOffset <- from s dataOffset ;;
        sliceAtDataOffsetByteSize <- ByteSize sliceAtDataOffset ;;
        Ok (u64 (dataOffset + index * sliceAtDataOffsetByteSize))
      else
        let offsetSize8Or0 := if offsetSize =? 8 then 8 else 0 in
        let ieBase :=
          u64 (end_ - n * offsetSize + index * offsetSize - offsetSize8Or0) in
        sb <- from s ieBase ;;
        readIntegerNonEmpty sb offsetSize.

(** extract the nth member from an Array *)
Definition getNth (s : Slice) (index : Z) : result Slice :=
  VELOCYPACK_ASSERT (IsArray s) ;;;
  offset <- getNthOffset s index ;;
  from s offset.

(** getNthKey extract the nth member from an Object *)
Definition getNthKey (s : Slice) (index : Z) (translate : bool)
  : result Slice :=
  VELOCYPACK_ASSERT (ValueType.eqb (Type_ s) ValueType.Object) ;;;
  offset <- getNthOffset s index ;;
  result_ <- from s offset ;;
  if translate then makeKey result_ else Ok result_.

(** getNthValue extract the nth value from an Object *)
Definition getNthValue (s : Slice) (index : Z) : result Slice :=
  key <- getNthKey s index false ;;
  Next key.

(** At extracts the array value at the specified index. *)
Definition At (s : Slice) (index : Z) : result Slice :=
  if negb (IsArray s) then Err (InvalidTypeError "Expecting type Array")
  else getNth s index.

(** KeyAt extracts a key from an Object at the specified index; [translate]
    is the optional argument, true when omitted. *)
Definition KeyAt (s : Slice) (index : Z) (translate : bool) : result Slice :=
  if negb (IsObject s) then Err (InvalidTypeError "Expecting type Object")
  else getNthKey s index translate.

(** ValueAt extracts a value from an Object at the specified index *)
Definition ValueAt (s : Slice) (index : Z) : result Slice :=
  if negb (IsObject s) then Err (InvalidTypeError "Expecting type Object")
  else
    key <- getNthKey s index false ;;
    byteSize <- ByteSize key ;;
    from key byteSize.

(** ** The object iterator *)

(** [current] is [None] for a nil Slice. *)
Record ObjectIterator : Type := {
  it_s : Slice;
  position : Z;
  size : Z;
  current : option Slice
}.

(** NewObjectIterator initializes an iterator at position 0 of the given
    object slice.  The error of [KeyAt] is assigned and not looked at: when
    [KeyAt] fails, [current] is nil and the iterator is returned. *)
Definition NewObjectIterator (s : Slice) : result ObjectIterator :=
  if negb (IsObject s) then Err (InvalidTypeError "Expected Object slice")
  else
    size <- Length s ;;
    if size >? 0 then
      if head s =? 0x14 then
        match KeyAt s 0 false with
        | Ok key =>
            Ok {| it_s := s; position := 0; size := size; current := Some key |}
        | Err _ =>
            Ok {| it_s := s; position := 0; size := size; current := None |}
        | Panic => Panic
        | Timeout => Timeout
        end
      else
        (* _current = slice.begin() + slice.findDataOffset(h); TODO *)
        Err TodoError
    else Ok {| it_s := s; position := 0; size := size; current := None |}.

(** IsValid returns true if the given position of the iterator is valid. *)
Definition IsValid (i : ObjectIterator) : bool := position i <? size i.

(** Key returns the key of the current position of the iterator *)
Definition Key (i : ObjectIterator) (translate : bool) : result Slice :=
  if position i >=? size i then Err (WithStack IndexOutOfBoundsError)
  else
    match current i with
    | Some current => if translate then makeKey current else Ok current
    | None => getNthKey (it_s i) (position i) translate
    end.

(** Value returns the value of the current position of the iterator *)
Definition Value (i : ObjectIterator) : result Slice :=
  if position i >=? size i then Err (WithStack IndexOutOfBoundsError)
  else
    match current i with
    | Some current => Next current
    | None => getNthValue (it_s i) (position i)
    end.

(** Next moves to the next position. *)
Definition IteratorNext (i : ObjectIterator) : result ObjectIterator :=
  let position' := u64 (position i + 1) in
  match current i with
  | Some current =>
      if position' <? size i then
        (* skip over key *)
        current <- Next current ;;
        (* skip over value *)
        current <- Next current ;;
        Ok {| it_s := it_s i; position := position'; size := size i;
              current := Some current |}
      else
        Ok {| it_s := it_s i; position := position'; size := size i;
              current := None |}
  | None =>
      Ok {| it_s := it_s i; position := position'; size := size i;
            current := None |}
  end.

(** ** Attribute lookup *)

(** The loop [for it.IsValid()] of [getFromCompactObject]; every iteration
    advances the position, [budget] bounds the iterations. *)
Fixpoint compactSearchLoop (attribute : gostring) (budget : nat)
  (it : ObjectIterator) : result Slice :=
  if IsValid it then
    match budget with
    | O => Timeout
    | S budget' =>
        key <- Key it false ;;
        k <- makeKey key ;;
        eq <- IsEqualString k attribute ;;
        if eq : bool then Next key
        else
          it' <- IteratorNext it ;;
          compactSearchLoop attribute budget' it'
    end
  else
    (* not found *)
    Ok nilSlice.

Definition getFromCompactObject (s : Slice) (attribute : gostring)
  : result Slice :=
  it <- NewObjectIterator s ;;
  compactSearchLoop attribute (Z.to_nat (size it)) it.

(** The key of an index-table entry compared for equality: [Ok (Some b)] is
    the outcome [b] of the comparison, [Ok None] the key that is neither a
    string nor an integer. *)
Definition keyEquals (key : Slice) (attribute : gostring)
  : result (option bool) :=
  if IsString key then
    eq <- IsEqualString key attribute ;;
    Ok (Some eq)
  else if IsSmallInt key || IsUInt key then
    (* translate key *)
    if translatorIsNil then
      (* no attribute translator *)
      Err (WithStack NeedAttributeTranslatorError)
    else
      tr <- translateUnchecked key ;;
      eq <- IsEqualString tr attribute ;;
      Ok (Some eq)
  else Ok None.

(** perform a linear search for the specified attribute inside an Object.
    The loop [for index := 0; index < n; index++] runs its body for the
    indexes below [n] in turn; [count] is the number of iterations left. *)
Fixpoint linearLoop (s : Slice) (attribute : gostring)
  (ieBase offsetSize : Z) (count : nat) (index : Z) : result Slice :=
  match count with
  | O =>
      (* nothing found *)
      Ok nilSlice
  | S count' =>
      let offset := u64 (ieBase + index * offsetSize) in
      so <- from s offset ;;
      o <- readIntegerNonEmpty so offsetSize ;;
      key <- from s o ;;
      eq <- keyEquals key attribute ;;
      match eq with
      | Some true =>
          (* key is identical. now return value *)
          Next key
      | Some false =>
          linearLoop s attribute ieBase offsetSize count' (u64 (index + 1))
      | None =>
          (* invalid key type *)
          Ok nilSlice
      end
  end.

Definition searchObjectKeyLinear (s : Slice) (attribute : gostring)
  (ieBase offsetSize n : Z) : result Slice :=
  linearLoop s attribute ieBase offsetSize (Z.to_nat n) 0.

(** The key of an index-table entry compared for order: [Ok (Some res)] is
    the outcome of the comparison, [Ok None] the invalid key. *)
Definition keyCompare (key : Slice) (attribute : gostring)
  : result (option Z) :=
  if IsString key then
    res <- CompareString key attribute ;;
    Ok (Some res)
  else if IsSmallInt key || IsUInt key then
    (* translate key *)
    if translatorIsNil then
      (* no attribute translator *)
      Err NeedAttributeTranslatorError
    else
      tr <- translateUnchecked key ;;
      res <- CompareString tr attribute ;;
      Ok (Some res)
  else Ok None.

(** perform a binary search for the specified attribute inside an Object.
    The source loops without a bound; [budget] is the number of midpoints
    that may still be visited. *)
Fixpoint binaryLoop (s : Slice) (attribute : gostring)
  (ieBase offsetSize : Z) (budget : nat) (l r index : Z) : result Slice :=
  match budget with
  | O => Timeout
  | S budget' =>
      let offset := u64 (ieBase + index * offsetSize) in
      so <- from s offset ;;
      o <- readIntegerFixed so offsetSize ;;
      key <- from s o ;;
      cmp <- keyCompare key attribute ;;
      match cmp with
      | None =>
          (* invalid key *)
          Ok nilSlice
      | Some res =>
          if res =? 0 then
            (* found. now return a Slice pointing at the value *)
            keySize <- ByteSize key ;;
            from key keySize
          else
            let narrowed (l r : Z) : result Slice :=
              if r <? l then Ok nilSlice
              else
                (* determine new midpoint *)
                binaryLoop s attribute ieBase offsetSize budget' l r
                  (u64 (l + u64 (r - l) / 2)) in
            if res >? 0 then
              if index =? 0 then Ok nilSlice
              else narrowed l (u64 (index - 1))
            else narrowed (u64 (index + 1)) r
      end
  end.

Definition searchObjectKeyBinary (budget : nat) (s : Slice)
  (attribute : gostring) (ieBase n offsetSize : Z) : result Slice :=
  VELOCYPACK_ASSERT (n >? 0) ;;;
  let l := 0 in
  let r := u64 (n - 1) in
  let index := r / 2 in
  binaryLoop s attribute ieBase offsetSize budget l r index.

(** A search among fewer than [2^64] entries visits at most 64 midpoints. *)
Definition searchBudget : nat := 64.

(** only use binary search for attributes if we have at least this many
    entries, otherwise we'll always use the linear search *)
Definition SortedSearchEntriesThreshold : Z := 4.

(** Get looks for the specified attribute inside an Object; returns a
    Slice(ValueType::None) if not found *)
Definition Get (s : Slice) (attribute : gostring) : result Slice :=
  if negb (IsObject s) then Err (InvalidTypeError "Expecting Object")
  else
    let h := head s in
    if h =? 0x0a then
      (* special case, empty object *)
      Ok nilSlice
    else if h =? 0x14 then
      (* compact Object *)
      getFromCompactObject s attribute
    else
      offsetSize <- indexEntrySize h ;;
      VELOCYPACK_ASSERT (offsetSize >? 0) ;;;
      s1 <- from s 1 ;;
      end_ <- readIntegerNonEmpty s1 offsetSize ;;
      (* read number of items *)
      nb <- (if offsetSize <? 8 then
               sn <- from s (u64 (1 + offsetSize)) ;;
               n <- readIntegerNonEmpty sn offsetSize ;;
               Ok (n, u64 (end_ - n * offsetSize))
             else
               sn <- from s (u64 (end_ - offsetSize)) ;;
               n <- readIntegerNonEmpty sn offsetSize ;;
               Ok (n, u64 (end_ - n * offsetSize - offsetSize))) ;;
      let n := fst nb in
      let ieBase := snd nb in
      if n =? 1 then
        (* Just one attribute, there is no index table! *)
        d <- findDataOffset s h ;;
        key <- from s d ;;
        eq <- (if IsString key then
                 eq <- IsEqualString key attribute ;;
                 Ok eq
               else if IsSmallInt key || IsUInt key then
                 (* translate key *)
                 if translatorIsNil
                 then Err (WithStack NeedAttributeTranslatorError)
                 else
                   tr <- translateUnchecked key ;;
                   IsEqualString tr attribute
               else Ok false) ;;
        if eq : bool then Next key
        else
          (* no match or invalid key type *)
          Ok nilSlice
      else if (n >=? SortedSearchEntriesThreshold)
              && ((h >=? 0x0b) && (h <=? 0x0e))
              && ((offsetSize =? 1) || (offsetSize =? 2)
                  || (offsetSize =? 4) || (offsetSize =? 8)) then
        searchObjectKeyBinary searchBudget s attribute ieBase n offsetSize
      else
        searchObjectKeyLinear s attribute ieBase offsetSize n.

End SliceInspector.

(** * Specification-side notions *)

(** The value of a sequence of bytes read as a little-endian unsigned
    integer. *)
Fixpoint littleEndianValue (bs : list byte) : Z :=
  match bs with
  | [] => 0
  | b :: bs' => byteval b + 256 * littleEndianValue bs'
  end.

(** Sign extension of an [n]-byte value from the top bit of its most
    significant byte. *)
Definition signExtend (n v : Z) : Z :=
  if Z.testbit v (8 * n - 1) then v - 2 ^ (8 * n) else v.

(** The payload of a scalar: the [n] bytes that follow the head byte. *)
Definition payload (s : Slice) (n : Z) : list byte :=
  firstn (Z.to_nat n) (skipn 1 s).

(** * Settings used in the examples *)

(** A 64-bit platform without attribute translator, with and without
    checked assertions. *)
Definition checked64 : Settings :=
  {| assertionsChecked := true; addressLimit := 2 ^ 63 - 1;
     charPtrLength := 8; AttributeTranslator := None |}.

Definition unchecked64 : Settings :=
  {| assertionsChecked := false; addressLimit := 2 ^ 63 - 1;
     charPtrLength := 8; AttributeTranslator := None |}.

Import Byte.

(** * Example values *)

(** The unsorted object [{"b": 1, "a": 2}], 11 bytes: head [0x0f], byte
    length, count, the two members and the index table. *)
Definition unsortedObject : Slice :=
  [x0f; x0b; x02; x41; x62; x31; x41; x61; x32; x03; x06].


(** A long String and a Binary whose declared length is [2^64 - 1]. *)
Definition hugeString : Slice :=
  [xbf; xff; xff; xff; xff; xff; xff; xff; xff].
Definition hugeBinary : Slice :=
  [xc7; xff; xff; xff; xff; xff; xff; xff; xff].

(** The sorted object [{"a": 1, "b": 2, "c": 3}] with one-byte offsets, 15
    bytes (scenario 3 of the spec). *)
Definition sortedObject : Slice :=
  [x0b; x0f; x03; x41; x61; x31; x41; x62; x32; x41; x63; x33; x03; x06; x09].

(** The compact object [{"a": 0, "b": 1, "c": 2, "d": 3}], 15 bytes
    (scenario 4 of the spec). *)
Definition compactObject : Slice :=
  [x14; x0f; x41; x61; x30; x41; x62; x31; x41; x63; x32; x41; x64; x33; x04].

(** The array [[1, 2, 3]] of three SmallInts without index table, 5 bytes
    (scenario 6 of the spec). *)
Definition smallArray : Slice := [x02; x05; x31; x32; x33].

(** * Specification-side notions for objects *)

(** The attribute name a key stands for: the string of a String key, the
    translation of an integer key; [None] for a key that has no name (a
    key of another type, an integer key without translator or with an
    unknown number, a String that does not hold its bytes). *)
Definition keyName (cfg : Settings) (key : Slice) : option gostring :=
  if IsString key then
    match GetString cfg key with
    | Ok name => Some name
    | _ => None
    end
  else if IsSmallInt key || IsUInt key then
    if translatorIsNil cfg then None
    else
      match translateUnchecked cfg key with
      | Ok tr =>
          match GetString cfg tr with
          | Ok name => Some name
          | _ => None
          end
      | _ => None
      end
  else None.

(** The key an entry of an index table points to: the table starts at
    [ieBase], its entries are [offsetSize] bytes wide. *)
Definition entryKey (s : Slice) (ieBase offsetSize index : Z) : result Slice :=
  so <- from s (u64 (ieBase + index * offsetSize)) ;;
  o <- readIntegerNonEmpty so offsetSize ;;
  from s o.

(** The keys of the [count] entries from [index] on, each with its name;
    [None] when an entry cannot be read or its key has no name. *)
Fixpoint tableKeys (cfg : Settings) (s : Slice) (ieBase offsetSize : Z)
  (count : nat) (index : Z) : option (list (Slice * gostring)) :=
  match count with
  | O => Some []
  | S count' =>
      match entryKey s ieBase offsetSize index with
      | Ok key =>
          match keyName cfg key with
          | Some name =>
              match tableKeys cfg s ieBase offsetSize count' (index + 1) with
              | Some rest => Some ((key, name) :: rest)
              | None => None
              end
          | None => None
          end
      | _ => None
      end
  end.

(** Names in strictly ascending bytewise order. *)
Fixpoint ascending (names : list gostring) : bool :=
  match names with
  | [] => true
  | a :: rest =>
      match rest with
      | [] => true
      | b :: _ => (bytesCompare a b <? 0) && ascending rest
      end
  end.

(** What a search for [attribute] among keys with names returns: [Next] of
    the first key of that name, the None-Slice when there is none. *)
Fixpoint lookup (cfg : Settings) (keys : list (Slice * gostring))
  (attribute : gostring) : result Slice :=
  match keys with
  | [] => Ok nilSlice
  | (key, name) :: rest =>
      if stringEqual name attribute then Next cfg key
      else lookup cfg rest attribute
  end.

(** The sorted object [{"a": 1, "b": 2, "c": 3, "d": 4}] with one-byte
    offsets, 19 bytes; its index table starts at byte 15. *)
Definition sortedObject4 : Slice :=
  [x0b; x13; x04; x41; x61; x31; x41; x62; x32; x41; x63; x33; x41; x64; x34;
   x03; x06; x09; x0c].

(** The keys of [sortedObject4] with their names. *)
Definition sortedObject4Keys : list (Slice * gostring) :=
  [(skipn 3 sortedObject4, [x61]); (skipn 6 sortedObject4, [x62]);
   (skipn 9 sortedObject4, [x63]); (skipn 12 sortedObject4, [x64])].

(** * Specification-side notions: well-formed objects *)

(** The name of the member at [index] of an object, when its key and its
    value lie within the Slice and the key has a name: [KeyAt] and
    [ValueAt] return the key and the value, and the value ends within the
    Slice ([Next] of the value returns). *)
Definition memberName (cfg : Settings) (s : Slice) (index : Z)
  : option gostring :=
  match KeyAt cfg s index false with
  | Ok key =>
      match ValueAt cfg s index with
      | Ok value =>
          match Next cfg value with
          | Ok _ => keyName cfg key
          | _ => None
          end
      | _ => None
      end
  | _ => None
  end.

Fixpoint memberNames (cfg : Settings) (s : Slice) (count : nat) (index : Z)
  : option (list gostring) :=
  match count with
  | O => Some []
  | S count' =>
      match memberName cfg s index with
      | Some name =>
          match memberNames cfg s count' (index + 1) with
          | Some rest => Some (name :: rest)
          | None => None
          end
      | None => None
      end
  end.

(** The attribute names of a well-formed object, in the order of its
    members; [None] when the Slice is not a well-formed object: it is not
    an object, [Length] fails, or a member below the length has no name
    or does not lie within the Slice. *)
Definition objectNames (cfg : Settings) (s : Slice)
  : option (list gostring) :=
  if IsObject s then
    match Length cfg s with
    | Ok n => memberNames cfg s (Z.to_nat n) 0
    | _ => None
    end
  else None.

(** Where [Get] finds the index table of an object with a byte-length
    field: the statements of [Get] that read the width of the entries, the
    number of items and the start of the table. *)
Definition indexTable (cfg : Settings) (s : Slice) : result (Z * Z * Z) :=
  let h := head s in
  offsetSize <- indexEntrySize cfg h ;;
  VELOCYPACK_ASSERT cfg (offsetSize >? 0) ;;;
  s1 <- from s 1 ;;
  end_ <- readIntegerNonEmpty s1 offsetSize ;;
  if offsetSize <? 8 then
    sn <- from s (u64 (1 + offsetSize)) ;;
    n <- readIntegerNonEmpty sn offsetSize ;;
    Ok (offsetSize, n, u64 (end_ - n * offsetSize))
  else
    sn <- from s (u64 (end_ - offsetSize)) ;;
    n <- readIntegerNonEmpty sn offsetSize ;;
    Ok (offsetSize, n, u64 (end_ - n * offsetSize - offsetSize)).

(** The comparison of the only key of an object with one member, as [Get]
    writes it. *)
Definition singleKeyEquals (cfg : Settings) (key : Slice)
  (attribute : gostring) : result bool :=
  if IsString key then
    eq <- IsEqualString cfg key attribute ;;
    Ok eq
  else if IsSmallInt key || IsUInt key then
    if translatorIsNil cfg
    then Err (WithStack NeedAttributeTranslatorError)
    else
      tr <- translateUnchecked cfg key ;;
      IsEqualString cfg tr attribute
  else Ok false.

(** The object [{"a": 1}] with one member, 6 bytes. *)
Definition singleObject : Slice := [x0b; x06; x01; x41; x61; x31].

(** The long String ["abc"]: head [0xbf], the length 3 in eight bytes, and
    the bytes. *)
Definition longString : Slice :=
  [xbf; x03; x00; x00; x00; x00; x00; x00; x00; x61; x62; x63].


(** The compact array [[1, 16, 2]], 7 bytes: head [0x13], byte length,
    the members of one, two and one bytes, and the number of members. *)
Definition compactArray : Slice := [x13; x07; x31; x28; x10; x32; x03].

(** [count] calls of [Next] on an iterator, one after the other, as the
    loop [for it.IsValid() { ...; it.Next() }] makes them. *)
Fixpoint advance (cfg : Settings) (count : nat) (it : ObjectIterator)
  : result ObjectIterator :=
  match count with
  | O => Ok it
  | S count' =>
      it' <- IteratorNext cfg it ;;
      advance cfg count' it'
  end.

(** An unsorted object of two members whose first key is a Null value,
    not a String: [{null: 1, "a": 2}], 10 bytes, index table at byte 8. *)
Definition nullKeyObject : Slice :=
  [x0f; x0a; x02; x18; x31; x41; x61; x32; x03; x05].

(** An unsorted object of two members whose first key is the SmallInt 1,
    to be translated: [{1: 1, "a": 2}], 10 bytes, index table at byte 8. *)
Definition integerKeyObject : Slice :=
  [x0f; x0a; x02; x31; x31; x41; x61; x32; x03; x05].

(** A 64-bit platform with a translator that knows no number. *)
Definition emptyTranslator64 : Settings :=
  {| assertionsChecked := true; addressLimit := 2 ^ 63 - 1;
     charPtrLength := 8; AttributeTranslator := Some (fun _ => []) |}.
(** * Basic facts *)

Lemma byteval_range (b : byte) : 0 <= byteval b < 256.
Proof.
  unfold byteval. pose proof (Byte.to_N_bounded b) as H.
  split; [apply N2Z.is_nonneg|].
  change 256 with (Z.of_N 256). apply N2Z.inj_lt. lia.
Qed.

Lemma head_range (s : Slice) : 0 <= head s < 256.
Proof.
  destruct s as [|b s]; simpl; [lia | apply byteval_range].
Qed.

Lemma len_nonneg (s : Slice) : 0 <= len s.
Proof. unfold len. lia. Qed.

Lemma len_cons (b : byte) (s : Slice) : len (b :: s) = 1 + len s.
Proof. unfold len. simpl List.length. lia. Qed.

Lemma littleEndianValue_range (bs : list byte) :
  0 <= littleEndianValue bs < 256 ^ Z.of_nat (List.length bs).
Proof.
  induction bs as [|b bs IH].
  - simpl. lia.
  - cbn [littleEndianValue List.length].
    rewrite Nat2Z.inj_succ, Z.pow_succ_r by lia.
    pose proof (byteval_range b). nia.
Qed.

Lemma u64_small (x : Z) : 0 <= x < 2 ^ 64 -> u64 x = x.
Proof. intros H. unfold u64. apply Z.mod_small. exact H. Qed.

Lemma u8_small (x : Z) : 0 <= x < 256 -> u8 x = x.
Proof. intros H. unfold u8. apply Z.mod_small. exact H. Qed.

Lemma u64_range (x : Z) : 0 <= u64 x < 2 ^ 64.
Proof. unfold u64. apply Z.mod_pos_bound. lia. Qed.

Lemma i64_small (x : Z) : - 2 ^ 63 <= x < 2 ^ 63 -> i64 x = x.
Proof.
  intros H. unfold i64. rewrite Z.mod_small; lia.
Qed.

(** The little-endian read returns the value of the bytes it consumes when
    they are there and fit 64 bits. *)
Lemma readIntegerLoop_value (n : nat) :
  forall (s : list byte) (k : Z) (v : Z),
    (n <= List.length s)%nat ->
    0 <= k -> k + Z.of_nat n <= 8 ->
    0 <= v < 2 ^ (8 * k) ->
    readIntegerLoop n s (8 * k) v
    = Ok (v + 2 ^ (8 * k) * littleEndianValue (firstn n s)).
Proof.
  induction n as [|n IH]; intros s k v Hlen Hk Hkn Hv.
  - simpl. f_equal. lia.
  - destruct s as [|b s]; [simpl in Hlen; lia|].
    cbn [readIntegerLoop firstn littleEndianValue].
    simpl in Hlen.
    pose proof (byteval_range b) as Hb.
    assert (Hpow : 2 ^ (8 * (k + 1)) = 2 ^ (8 * k) * 256).
    { replace (8 * (k + 1)) with (8 * k + 8) by lia.
      rewrite Z.pow_add_r by lia. reflexivity. }
    assert (Hle : 2 ^ (8 * (k + 1)) <= 2 ^ 64).
    { apply Z.pow_le_mono_r; lia. }
    assert (Hpos : 0 < 2 ^ (8 * k)) by (apply Z.pow_pos_nonneg; lia).
    rewrite Z.shiftl_mul_pow2 by lia.
    assert (Hsh : 0 <= byteval b * 2 ^ (8 * k) < 2 ^ 64) by nia.
    rewrite (u64_small _ Hsh).
    assert (Hsum : 0 <= v + byteval b * 2 ^ (8 * k) < 2 ^ (8 * (k + 1))) by nia.
    rewrite u64_small by lia.
    replace (8 * k + 8) with (8 * (k + 1)) by lia.
    rewrite IH; try lia.
    f_equal. rewrite Hpow. ring.
Qed.

Lemma readIntegerNonEmpty_value (s : Slice) (w : Z) :
  0 <= w <= 8 -> w <= len s ->
  readIntegerNonEmpty s w = Ok (littleEndianValue (firstn (Z.to_nat w) s)).
Proof.
  intros Hw Hlen. unfold readIntegerNonEmpty.
  pose proof (readIntegerLoop_value (Z.to_nat w) s 0 0) as H.
  change (8 * 0) with 0 in H. change (2 ^ 0) with 1 in H.
  rewrite H; try (unfold len in Hlen; lia).
  f_equal. lia.
Qed.

Lemma from_ok (s : Slice) (a : Z) :
  0 <= a <= len s -> from s a = Ok (skipn (Z.to_nat a) s).
Proof.
  intros H. unfold from.
  destruct (Z.leb_spec 0 a); [|lia].
  destruct (Z.leb_spec a (len s)); [|lia]. reflexivity.
Qed.

Lemma from_inv (s t : Slice) (a : Z) :
  from s a = Ok t -> 0 <= a <= len s /\ t = skipn (Z.to_nat a) s.
Proof.
  unfold from. destruct (Z.leb_spec 0 a); simpl; [|discriminate].
  destruct (Z.leb_spec a (len s)); [|discriminate].
  intros E. inversion E. split; [lia | reflexivity].
Qed.

Lemma len_skipn (s : Slice) (a : Z) :
  0 <= a <= len s -> len (skipn (Z.to_nat a) s) = len s - a.
Proof.
  intros H. unfold len in *. rewrite length_skipn. lia.
Qed.

(** * ByteSize of arrays and objects with a byte-length field *)

Ltac head_cases H :=
  repeat (destruct H as [H|H]); rewrite H.

(** For the heads with a byte-length field, [ByteSize] is the assertion
    [h > 0x00 && h <= 0x0e] followed by the little-endian read of the
    field. *)
Lemma ByteSize_length_field (cfg : Settings) (s : Slice) :
  2 <= head s <= 9 \/ 11 <= head s <= 18 ->
  ByteSize cfg s
  = (VELOCYPACK_ASSERT cfg (head s <=? 0x0e) ;;;
     s1 <- from s 1 ;;
     readIntegerNonEmpty s1 (widthMap (head s))).
Proof.
  intros H.
  assert (Hc : head s = 2 \/ head s = 3 \/ head s = 4 \/ head s = 5
               \/ head s = 6 \/ head s = 7 \/ head s = 8 \/ head s = 9
               \/ head s = 11 \/ head s = 12 \/ head s = 13 \/ head s = 14
               \/ head s = 15 \/ head s = 16 \/ head s = 17 \/ head s = 18)
    by lia.
  unfold ByteSize, Type_.
  head_cases Hc; reflexivity.
Qed.

Lemma widthMap_range (h : Z) : 0 <= widthMap h <= 8.
Proof.
  unfold widthMap.
  repeat match goal with |- context [if ?c then _ else _] => destruct c end;
    lia.
Qed.

(** Arrays and sorted objects: the byte-length field is returned, whether
    assertions are checked or not. *)
Lemma ByteSize_array_or_sorted (cfg : Settings) (s : Slice) :
  2 <= head s <= 9 \/ 11 <= head s <= 14 ->
  1 + widthMap (head s) <= len s ->
  ByteSize cfg s = Ok (littleEndianValue (payload s (widthMap (head s)))).
Proof.
  intros H Hlen.
  rewrite ByteSize_length_field by lia.
  pose proof (widthMap_range (head s)) as Hw.
  unfold VELOCYPACK_ASSERT.
  replace (head s <=? 14) with true by (symmetry; apply Z.leb_le; lia).
  assert (Hs : from s 1 = Ok (skipn 1 s)).
  { rewrite from_ok by lia. reflexivity. }
  destruct (assertionsChecked cfg); cbn [bind]; rewrite Hs; cbn [bind];
    (rewrite readIntegerNonEmpty_value;
     [reflexivity | lia
      | change 1%nat with (Z.to_nat 1); rewrite len_skipn; lia]).
Qed.

(** Unsorted objects: the byte-length field is returned when assertions
    are not checked. *)
Lemma ByteSize_unsorted_unchecked (cfg : Settings) (s : Slice) :
  assertionsChecked cfg = false ->
  15 <= head s <= 18 ->
  1 + widthMap (head s) <= len s ->
  ByteSize cfg s = Ok (littleEndianValue (payload s (widthMap (head s)))).
Proof.
  intros Ha H Hlen.
  rewrite ByteSize_length_field by lia.
  pose proof (widthMap_range (head s)) as Hw.
  unfold VELOCYPACK_ASSERT. rewrite Ha. cbn [bind].
  rewrite from_ok by lia. cbn [bind].
  rewrite readIntegerNonEmpty_value;
    [reflexivity | lia
     | change 1%nat with (Z.to_nat 1); rewrite len_skipn; lia].
Qed.

(** Unsorted objects: a checked assertion [h <= 0x0e] fails. *)
Lemma ByteSize_unsorted_checked (cfg : Settings) (s : Slice) :
  assertionsChecked cfg = true ->
  15 <= head s <= 18 ->
  ByteSize cfg s = Panic.
Proof.
  intros Ha H.
  rewrite ByteSize_length_field by lia.
  unfold VELOCYPACK_ASSERT. rewrite Ha.
  replace (head s <=? 14) with false by (symmetry; apply Z.leb_gt; lia).
  reflexivity.
Qed.

(** C1: [ByteSize] on a non-compact Array or Object head returns the
    little-endian byte-length field read at offset 1.  The code does so for
    the heads [0x02..0x09] and [0x0b..0x0e] ([ByteSize_array_or_sorted]);
    for an unsorted object, here with head [0x0f] and byte length 11, the
    assertion [h > 0x00 && h <= 0x0e] of [ByteSize] does not hold: with
    checked assertions the call panics, and only with unchecked ones does
    it return 11. *)
Theorem ByteSize_unsorted_object_assertion :
  head unsortedObject = 0x0f
  /\ littleEndianValue (payload unsortedObject (widthMap 0x0f)) = 11
  /\ ByteSize checked64 unsortedObject = Panic
  /\ ByteSize unchecked64 unsortedObject = Ok 11.
Proof.
  repeat split; vm_compute; reflexivity.
Qed.

(** * Integers *)

Lemma testbit_top (m v : Z) :
  0 <= m -> 0 <= v < 2 ^ (m + 1) -> Z.testbit v m = (2 ^ m <=? v).
Proof.
  intros Hm Hv.
  rewrite Z.pow_add_r in Hv by lia. change (2 ^ 1) with 2 in Hv.
  assert (Hp : 0 < 2 ^ m) by (apply Z.pow_pos_nonneg; lia).
  destruct (Z.leb_spec (2 ^ m) v) as [Hle|Hlt].
  - apply Z.testbit_true; [lia|].
    assert (Hq : v / 2 ^ m = 1).
    { symmetry. apply (Z.div_unique _ _ 1 (v - 2 ^ m)); lia. }
    rewrite Hq. reflexivity.
  - apply Z.testbit_false; [lia|].
    rewrite Z.div_small by lia. reflexivity.
Qed.

Lemma payload_len (s : Slice) (n : Z) :
  0 <= n -> 1 + n <= len s -> List.length (payload s n) = Z.to_nat n.
Proof.
  intros Hn Hlen. unfold payload, len in *.
  rewrite length_firstn, length_skipn. lia.
Qed.

Lemma read_payload (s : Slice) (n : Z) :
  0 <= n <= 8 -> 1 + n <= len s ->
  (s1 <- from s 1 ;; readIntegerNonEmpty s1 n)
  = Ok (littleEndianValue (payload s n)).
Proof.
  intros Hn Hlen.
  rewrite from_ok by (pose proof (len_nonneg s); lia). cbn [bind].
  rewrite readIntegerNonEmpty_value; [reflexivity | lia |].
  change 1%nat with (Z.to_nat 1). rewrite len_skipn; lia.
Qed.

Lemma payload_range (s : Slice) (n : Z) :
  0 <= n -> 1 + n <= len s ->
  0 <= littleEndianValue (payload s n) < 2 ^ (8 * n).
Proof.
  intros Hn Hlen.
  pose proof (littleEndianValue_range (payload s n)) as H.
  rewrite payload_len in H by lia.
  rewrite Z2Nat.id in H by lia.
  replace (2 ^ (8 * n)) with (256 ^ n); [exact H|].
  change 256 with (2 ^ 8). rewrite <- Z.pow_mul_r by lia. reflexivity.
Qed.


Lemma pow2_split (n : Z) :
  1 <= n <= 8 ->
  2 ^ (8 * n) = 2 * 2 ^ (8 * n - 1) /\ 0 < 2 ^ (8 * n - 1) <= 2 ^ 63.
Proof.
  intros Hn. split.
  - replace (8 * n) with (Z.succ (8 * n - 1)) at 1 by lia.
    rewrite Z.pow_succ_r by lia. reflexivity.
  - split; [apply Z.pow_pos_nonneg; lia | apply Z.pow_le_mono_r; lia].
Qed.

Lemma pow2_split_small (n : Z) :
  1 <= n <= 7 -> 2 ^ (8 * n - 1) <= 2 ^ 55.
Proof. intros Hn. apply Z.pow_le_mono_r; lia. Qed.

Lemma signExtend_cases (n v : Z) :
  1 <= n <= 8 -> 0 <= v < 2 ^ (8 * n) ->
  signExtend n v = if v <? 2 ^ (8 * n - 1) then v else v - 2 ^ (8 * n).
Proof.
  intros Hn Hv. unfold signExtend.
  rewrite testbit_top by (try lia; replace (8 * n - 1 + 1) with (8 * n) by lia; lia).
  destruct (Z.leb_spec (2 ^ (8 * n - 1)) v), (Z.ltb_spec v (2 ^ (8 * n - 1)));
    try reflexivity; lia.
Qed.


(** ** Depth of calls among the integer getters *)

Lemma bind_not_timeout {A B : Type} (r : result A) (k : A -> result B) :
  bind r k <> Timeout -> r <> Timeout.
Proof. destruct r; simpl; congruence. Qed.

Lemma getNumber_mono (d : nat) :
  forall (g : getter) (s : Slice),
    getNumber d g s <> Timeout -> getNumber (S d) g s = getNumber d g s.
Proof.
  induction d as [|d IH]; intros g s H.
  - simpl in H. congruence.
  - change (getNumberBody (getNumber (S d)) g s = getNumberBody (getNumber d) g s).
    change (getNumberBody (getNumber d) g s <> Timeout) in H.
    unfold getNumberBody in *.
    destruct g;
      repeat match goal with
             | |- context [if ?c then _ else _] => destruct c
             end;
      try reflexivity;
      try (apply bind_not_timeout in H); rewrite IH by exact H; reflexivity.
Qed.


(** Decides the comparisons of the goal that follow from the context. *)
Ltac zbool :=
  rewrite ?Z.geb_leb, ?Z.gtb_ltb;
  repeat match goal with
         | |- context [Z.leb ?a ?b] =>
             first
               [ replace (Z.leb a b) with true
                   by (symmetry; apply Z.leb_le; lia)
               | replace (Z.leb a b) with false
                   by (symmetry; apply Z.leb_gt; lia) ]
         | |- context [Z.ltb ?a ?b] =>
             first
               [ replace (Z.ltb a b) with true
                   by (symmetry; apply Z.ltb_lt; lia)
               | replace (Z.ltb a b) with false
                   by (symmetry; apply Z.ltb_ge; lia) ]
         | |- context [Z.eqb ?a ?b] =>
             first
               [ replace (Z.eqb a b) with true
                   by (symmetry; apply Z.eqb_eq; lia)
               | replace (Z.eqb a b) with false
                   by (symmetry; apply Z.eqb_neq; lia) ]
         end;
  cbn [andb orb negb].

Lemma readIntegerLoop_outcome (n : nat) :
  forall s x v,
    readIntegerLoop n s x v = Panic
    \/ exists r, readIntegerLoop n s x v = Ok r.
Proof.
  induction n as [|n IH]; intros s x v; simpl.
  - right. eexists. reflexivity.
  - destruct s; [left; reflexivity | apply IH].
Qed.

Lemma read_outcome (s : Slice) (a w : Z) :
  (s1 <- from s a ;; readIntegerNonEmpty s1 w) = Panic
  \/ exists r, (s1 <- from s a ;; readIntegerNonEmpty s1 w) = Ok r.
Proof.
  unfold from. destruct ((0 <=? a) && (a <=? len s)); simpl;
    [apply readIntegerLoop_outcome | left; reflexivity].
Qed.

Lemma at_outcome (s : Slice) (i : Z) :
  at_ s i = Panic \/ exists r, at_ s i = Ok r.
Proof.
  unfold at_. destruct ((0 <=? i) && (i <? len s)); [|left; reflexivity].
  destruct (nth_error s (Z.to_nat i)); [right; eexists|left]; reflexivity.
Qed.

Lemma at_1 (s : Slice) :
  2 <= len s -> at_ s 1 = Ok (littleEndianValue (payload s 1)).
Proof.
  intros H. destruct s as [|b0 [|b1 s]];
    try (unfold len in H; simpl in H; lia).
  unfold at_. rewrite !len_cons.
  pose proof (len_nonneg s).
  zbool. simpl. f_equal. lia.
Qed.

(** ** The integer getters on their own heads *)

Lemma getInt_Int_head (d : nat) (s : Slice) :
  0x20 <= head s <= 0x27 ->
  1 + (head s - 0x1f) <= len s ->
  getNumber (S d) getInt s
  = Ok (signExtend (head s - 0x1f)
          (littleEndianValue (payload s (head s - 0x1f)))).
Proof.
  intros H Hlen.
  pose proof (payload_range s (head s - 0x1f)) as Hv.
  change (getNumber (S d)) with (getNumberBody (getNumber d)).
  unfold getNumberBody. zbool.
  rewrite from_ok by (pose proof (len_nonneg s); lia). cbn [bind].
  rewrite (u64_small (head s - 31)) by lia.
  rewrite readIntegerNonEmpty_value;
    [| lia | change 1%nat with (Z.to_nat 1); rewrite len_skipn; lia].
  cbn [bind].
  change (firstn (Z.to_nat (head s - 31)) (skipn (Z.to_nat 1) s))
    with (payload s (head s - 31)).
  remember (head s - 31) as n eqn:En.
  remember (littleEndianValue (payload s n)) as v eqn:Ev.
  assert (Hn : 1 <= n <= 8) by lia.
  destruct (pow2_split n Hn) as [Hp2 Hp].
  specialize (Hv ltac:(lia) ltac:(lia)).
  rewrite signExtend_cases by lia.
  destruct (Z.eqb_spec (head s) 39) as [E|E].
  - assert (E8 : n = 8) by lia. rewrite E8.
    unfold toInt64. replace (8 * 8 - 1) with 63 by lia.
    change (8 * 8) with 64. reflexivity.
  - assert (Hn7 : 1 <= n <= 7) by lia.
    pose proof (pow2_split_small n Hn7) as Hs.
    assert (H55 : 2 ^ 55 * 2 ^ 8 = 2 ^ 63) by reflexivity.
    assert (H55p : 0 < 2 ^ 55) by reflexivity.
    rewrite (u8_small n) by lia.
    rewrite (u8_small (n * 8)) by lia.
    rewrite (u8_small (n * 8 - 1)) by lia.
    rewrite Z.shiftl_1_l. replace (n * 8 - 1) with (8 * n - 1) by lia.
    rewrite (i64_small (2 ^ (8 * n - 1))) by lia.
    rewrite Z.shiftl_mul_pow2 by lia. change (2 ^ 1) with 2.
    rewrite (i64_small v) by lia.
    rewrite (i64_small (2 ^ (8 * n - 1) * 2)) by lia.
    destruct (Z.ltb_spec v (2 ^ (8 * n - 1))); [reflexivity|].
    rewrite i64_small by lia. f_equal. lia.
Qed.

Lemma getUInt_UInt_head (d : nat) (s : Slice) :
  0x28 <= head s <= 0x2f ->
  1 + (head s - 0x27) <= len s ->
  getNumber (S d) getUInt s
  = Ok (littleEndianValue (payload s (head s - 0x27))).
Proof.
  intros H Hlen.
  change (getNumber (S d)) with (getNumberBody (getNumber d)).
  unfold getNumberBody.
  destruct (Z.eqb_spec (head s) 40) as [E|E].
  - rewrite E in *. apply at_1. lia.
  - zbool. rewrite u64_small by lia.
    apply read_payload; lia.
Qed.

Lemma signExtend_range (n v : Z) :
  1 <= n <= 8 -> 0 <= v < 2 ^ (8 * n) ->
  - 2 ^ 63 <= signExtend n v < 2 ^ 63.
Proof.
  intros Hn Hv. rewrite signExtend_cases by lia.
  destruct (pow2_split n Hn) as [Hp2 Hp].
  destruct (Z.ltb_spec v (2 ^ (8 * n - 1))); lia.
Qed.

(** C5: on an Int head [0x20..0x27], [GetInt] reads the [n = head - 0x1f]
    payload bytes as a little-endian unsigned integer and sign-extends it
    from the top bit of the most significant payload byte; for head [0x27]
    the result is the two's-complement reinterpretation of the 64-bit
    value. *)
Theorem GetInt_sign_extends (s : Slice) (n : Z) :
  0x20 <= head s <= 0x27 ->
  n = head s - 0x1f ->
  1 + n <= len s ->
  let v := littleEndianValue (payload s n) in
  GetInt s = Ok (signExtend n v)
  /\ (head s = 0x27 ->
      GetInt s = Ok (if v <? 2 ^ 63 then v else v - 2 ^ 64)).
Proof.
  intros H En Hlen v. subst n.
  assert (E : GetInt s
              = Ok (signExtend (head s - 0x1f) v)).
  { unfold GetInt, callDepth. apply getInt_Int_head; assumption. }
  split; [exact E|].
  intros H27. rewrite E. f_equal.
  pose proof (payload_range s (head s - 0x1f) ltac:(lia) Hlen) as Hv.
  fold v in Hv.
  rewrite signExtend_cases by lia.
  rewrite H27. reflexivity.
Qed.

Lemma GetInt_sign_extends_witness :
  GetInt [x21; xfe; xff] = Ok (-2)
  /\ GetInt [x27; x00; x00; x00; x00; x00; x00; x00; x80] = Ok (- 2 ^ 63).
Proof.
  split.
  - exact (proj1 (GetInt_sign_extends [x21; xfe; xff] 2
                    ltac:(vm_compute; split; discriminate)
                    ltac:(reflexivity)
                    ltac:(vm_compute; discriminate))).
  - exact (proj2 (GetInt_sign_extends
                    [x27; x00; x00; x00; x00; x00; x00; x00; x80] 8
                    ltac:(vm_compute; split; discriminate)
                    ltac:(reflexivity)
                    ltac:(vm_compute; discriminate))
             ltac:(reflexivity)).
Defined.

(** [GetInt] on a UInt head. *)
Lemma GetInt_UInt_head (s : Slice) :
  0x28 <= head s <= 0x2f ->
  1 + (head s - 0x27) <= len s ->
  GetInt s
  = if littleEndianValue (payload s (head s - 0x27)) >? 2 ^ 63 - 1
    then Err NumberOutOfRangeError
    else Ok (littleEndianValue (payload s (head s - 0x27))).
Proof.
  intros H Hlen.
  pose proof (payload_range s (head s - 0x27) ltac:(lia) Hlen) as Hv.
  remember (littleEndianValue (payload s (head s - 0x27))) as v eqn:Ev.
  assert (Hp : 2 ^ (8 * (head s - 0x27)) <= 2 ^ 64)
    by (apply Z.pow_le_mono_r; lia).
  unfold GetInt, callDepth.
  change (getNumber 3) with (getNumberBody (getNumber 2)).
  unfold getNumberBody. zbool.
  rewrite getUInt_UInt_head by assumption. cbn [bind]. rewrite <- Ev.
  unfold MaxInt64. rewrite ?Z.gtb_ltb.
  destruct (Z.ltb_spec (2 ^ 63 - 1) v); [reflexivity|].
  rewrite i64_small by lia. reflexivity.
Qed.

(** [GetUInt] on an Int head. *)
Lemma GetUInt_Int_head (s : Slice) :
  0x20 <= head s <= 0x27 ->
  1 + (head s - 0x1f) <= len s ->
  GetUInt s
  = if signExtend (head s - 0x1f)
         (littleEndianValue (payload s (head s - 0x1f))) <? 0
    then Err NumberOutOfRangeError
    else Ok (signExtend (head s - 0x1f)
               (littleEndianValue (payload s (head s - 0x1f)))).
Proof.
  intros H Hlen.
  pose proof (payload_range s (head s - 0x1f) ltac:(lia) Hlen) as Hv.
  pose proof (signExtend_range (head s - 0x1f) _ ltac:(lia) Hv) as Hx.
  remember (signExtend (head s - 0x1f)
              (littleEndianValue (payload s (head s - 0x1f)))) as x eqn:Ex.
  unfold GetUInt, callDepth.
  change (getNumber 3) with (getNumberBody (getNumber 2)).
  unfold getNumberBody. zbool.
  rewrite getInt_Int_head by assumption. cbn [bind]. rewrite <- Ex.
  destruct (Z.ltb_spec x 0); [reflexivity|].
  rewrite u64_small by lia. reflexivity.
Qed.

(** C4: on a UInt head [0x28..0x2f], [GetInt] fails with number-out-of-range
    exactly when the encoded unsigned value exceeds [2^63-1] and otherwise
    returns that value; on an Int head [0x20..0x27], [GetUInt] fails with
    number-out-of-range exactly when the encoded value is negative and
    otherwise returns it. *)
Theorem GetInt_GetUInt_out_of_range (s : Slice) :
  (0x28 <= head s <= 0x2f ->
   1 + (head s - 0x27) <= len s ->
   let v := littleEndianValue (payload s (head s - 0x27)) in
   GetInt s = if v >? 2 ^ 63 - 1 then Err NumberOutOfRangeError else Ok v)
  /\ (0x20 <= head s <= 0x27 ->
      1 + (head s - 0x1f) <= len s ->
      let x := signExtend (head s - 0x1f)
                 (littleEndianValue (payload s (head s - 0x1f))) in
      GetUInt s = if x <? 0 then Err NumberOutOfRangeError else Ok x).
Proof.
  split; intros H Hlen.
  - intros v. apply GetInt_UInt_head; assumption.
  - intros x. apply GetUInt_Int_head; assumption.
Qed.

Lemma GetInt_GetUInt_out_of_range_witness :
  GetInt [x2f; xff; xff; xff; xff; xff; xff; xff; xff]
  = Err NumberOutOfRangeError
  /\ GetInt [x2f; xff; xff; xff; xff; xff; xff; xff; x7f] = Ok (2 ^ 63 - 1)
  /\ GetUInt [x20; xff] = Err NumberOutOfRangeError
  /\ GetUInt [x20; x7f] = Ok 127.
Proof.
  split; [|split; [|split]].
  - exact (proj1 (GetInt_GetUInt_out_of_range
                    [x2f; xff; xff; xff; xff; xff; xff; xff; xff])
             ltac:(vm_compute; split; discriminate)
             ltac:(vm_compute; discriminate)).
  - exact (proj1 (GetInt_GetUInt_out_of_range
                    [x2f; xff; xff; xff; xff; xff; xff; xff; x7f])
             ltac:(vm_compute; split; discriminate)
             ltac:(vm_compute; discriminate)).
  - exact (proj2 (GetInt_GetUInt_out_of_range [x20; xff])
             ltac:(vm_compute; split; discriminate)
             ltac:(vm_compute; discriminate)).
  - exact (proj2 (GetInt_GetUInt_out_of_range [x20; x7f])
             ltac:(vm_compute; split; discriminate)
             ltac:(vm_compute; discriminate)).
Defined.

Lemma getInt_Int_outcome (d : nat) (s : Slice) :
  0x20 <= head s <= 0x27 ->
  getNumber (S d) getInt s = Panic
  \/ exists r, getNumber (S d) getInt s = Ok r.
Proof.
  intros H.
  change (getNumber (S d)) with (getNumberBody (getNumber d)).
  unfold getNumberBody. zbool.
  destruct (read_outcome s 1 (u64 (head s - 31))) as [E|[r E]].
  - left. unfold bind in *. destruct (from s 1); try discriminate; try reflexivity.
    rewrite E. reflexivity.
  - right. unfold bind in *. destruct (from s 1); try discriminate.
    rewrite E.
    repeat match goal with |- context [if ?c then _ else _] => destruct c end;
      eexists; reflexivity.
Qed.

Lemma getUInt_UInt_outcome (d : nat) (s : Slice) :
  0x28 <= head s <= 0x2f ->
  getNumber (S d) getUInt s = Panic
  \/ exists r, getNumber (S d) getUInt s = Ok r.
Proof.
  intros H.
  change (getNumber (S d)) with (getNumberBody (getNumber d)).
  unfold getNumberBody.
  destruct (Z.eqb_spec (head s) 40) as [E|E].
  - apply at_outcome.
  - zbool. apply read_outcome.
Qed.

(** On an Int or UInt head, [GetInt] returns a value, fails with
    number-out-of-range, or panics on a truncated payload. *)
Lemma getInt_number_outcome (d : nat) (s : Slice) :
  0x20 <= head s <= 0x2f ->
  getNumber (S (S d)) getInt s = Panic
  \/ getNumber (S (S d)) getInt s = Err NumberOutOfRangeError
  \/ exists r, getNumber (S (S d)) getInt s = Ok r.
Proof.
  intros H.
  destruct (Z.le_gt_cases (head s) 0x27) as [Hi|Hu].
  - destruct (getInt_Int_outcome (S d) s ltac:(lia)) as [E|[r E]];
      [left | right; right; exists r]; exact E.
  - change (getNumber (S (S d))) with (getNumberBody (getNumber (S d))).
    unfold getNumberBody. zbool.
    destruct (getUInt_UInt_outcome d s ltac:(lia)) as [E|[r E]]; rewrite E.
    + left. reflexivity.
    + cbn [bind]. destruct (r >? MaxInt64);
        [right; left | right; right; eexists]; reflexivity.
Qed.

(** C10: on the Int heads [0x20..0x27] and the UInt heads [0x28..0x2f],
    [GetSmallInt] does not fail with invalid-type: it is [GetInt], and
    returns the encoded integer, sign-extended on an Int head and, on a
    UInt head, subject to the range error of [GetInt]; [GetSmallInt] fails
    with invalid-type exactly on the heads outside [0x20..0x3f]. *)
Theorem GetSmallInt_delegates (s : Slice) :
  (0x20 <= head s <= 0x2f -> GetSmallInt s = GetInt s)
  /\ (0x20 <= head s <= 0x27 ->
      1 + (head s - 0x1f) <= len s ->
      GetSmallInt s
      = Ok (signExtend (head s - 0x1f)
              (littleEndianValue (payload s (head s - 0x1f)))))
  /\ (0x28 <= head s <= 0x2f ->
      1 + (head s - 0x27) <= len s ->
      GetSmallInt s
      = if littleEndianValue (payload s (head s - 0x27)) >? 2 ^ 63 - 1
        then Err NumberOutOfRangeError
        else Ok (littleEndianValue (payload s (head s - 0x27))))
  /\ (~ 0x20 <= head s <= 0x3f ->
      GetSmallInt s = Err (InvalidTypeError "Expecting type SmallInt"))
  /\ (forall msg, GetSmallInt s = Err (InvalidTypeError msg) ->
      ~ 0x20 <= head s <= 0x3f).
Proof.
  assert (Hd : 0x20 <= head s <= 0x2f -> GetSmallInt s = GetInt s).
  { intros H. unfold GetSmallInt, GetInt, callDepth.
    change (getNumber 3 getSmallInt s)
      with (getNumberBody (getNumber 2) getSmallInt s).
    unfold getNumberBody at 1.
    destruct (Z.le_gt_cases (head s) 0x27); zbool;
      symmetry; apply getNumber_mono;
    destruct (getInt_number_outcome 0 s H) as [E|[E|[r E]]];
      rewrite E; discriminate. }
  split; [exact Hd|]. split; [|split; [|split]].
  - intros H Hlen. rewrite Hd by lia. unfold GetInt, callDepth.
    apply getInt_Int_head; assumption.
  - intros H Hlen. rewrite Hd by lia. apply GetInt_UInt_head; assumption.
  - intros H. unfold GetSmallInt, callDepth.
    change (getNumber 3) with (getNumberBody (getNumber 2)).
    unfold getNumberBody.
    destruct (Z.lt_ge_cases (head s) 0x20); zbool; reflexivity.
  - intros msg E H.
    destruct (Z.le_gt_cases (head s) 0x2f) as [Hn|Hs].
    + rewrite Hd in E by lia. unfold GetInt, callDepth in E.
      destruct (getInt_number_outcome 1 s ltac:(lia)) as [E'|[E'|[r E']]];
        rewrite E' in E; discriminate.
    + unfold GetSmallInt, callDepth in E.
      change (getNumber 3) with (getNumberBody (getNumber 2)) in E.
      unfold getNumberBody in E.
      destruct (Z.le_gt_cases (head s) 0x39).
      * revert E. zbool. discriminate.
      * revert E. zbool. discriminate.
Qed.

Lemma GetSmallInt_delegates_witness :
  GetSmallInt [x21; xfe; xff] = GetInt [x21; xfe; xff]
  /\ GetSmallInt [x21; xfe; xff] = Ok (-2)
  /\ GetSmallInt [x28; x33] = Ok 0x33
  /\ GetSmallInt [x18] = Err (InvalidTypeError "Expecting type SmallInt")
  /\ ~ 0x20 <= head [x18] <= 0x3f.
Proof.
  destruct (GetSmallInt_delegates [x21; xfe; xff]) as (H1 & H2 & _).
  destruct (GetSmallInt_delegates [x28; x33]) as (_ & _ & H3 & _).
  destruct (GetSmallInt_delegates [x18]) as (_ & _ & _ & H4 & H5).
  split; [|split; [|split; [|split]]].
  - apply H1. split; discriminate.
  - apply H2; [split; discriminate | discriminate].
  - apply H3; [split; discriminate | discriminate].
  - apply H4. intros [H _]. apply H. reflexivity.
  - apply (H5 "Expecting type SmallInt"%string). apply H4.
    intros [H _]. apply H. reflexivity.
Defined.

(** ** The depth of calls is enough *)

Ltac head_classes s :=
  let H := fresh "Hclass" in
  assert (H : head s < 0x20 \/ 0x20 <= head s <= 0x27
              \/ 0x28 <= head s <= 0x2f \/ 0x30 <= head s <= 0x39
              \/ 0x3a <= head s <= 0x3f \/ 0x3f < head s) by lia;
  destruct H as [H|[H|[H|[H|[H|H]]]]].

Lemma outcome_not_timeout {A : Type} (r : result A) :
  r = Panic \/ (exists v, r = Ok v) -> r <> Timeout.
Proof. intros [E|[v E]]; rewrite E; discriminate. Qed.

Lemma getInt_number_not_timeout (d : nat) (s : Slice) :
  0x20 <= head s <= 0x2f -> getNumber (S (S d)) getInt s <> Timeout.
Proof.
  intros H.
  destruct (getInt_number_outcome d s H) as [E|[E|[r E]]]; rewrite E;
    discriminate.
Qed.

(** The three getters return, fail or panic within the depth of calls
    [callDepth]: the depth is never exhausted. *)
Lemma getNumber_total (g : getter) (s : Slice) :
  getNumber callDepth g s <> Timeout.
Proof.
  unfold callDepth. destruct g; head_classes s.
  all: try (apply getInt_number_not_timeout; lia).
  all: try (apply outcome_not_timeout; apply getUInt_UInt_outcome; lia).
  all: change (getNumber 3) with (getNumberBody (getNumber 2));
    unfold getNumberBody; zbool; try discriminate.
  all: try (apply getInt_number_not_timeout; lia).
  - change (getNumber 2) with (getNumberBody (getNumber 1)).
    unfold getNumberBody. zbool. discriminate.
  - change (getNumber 2) with (getNumberBody (getNumber 1)).
    unfold getNumberBody. zbool. discriminate.
  - destruct (getInt_Int_outcome 1 s Hclass) as [E|[r E]]; rewrite E;
      cbn [bind]; [discriminate|].
    destruct (r <? 0); discriminate.
Qed.

(** A larger depth changes nothing. *)
Lemma getNumber_depth (d : nat) (g : getter) (s : Slice) :
  getNumber (callDepth + d) g s = getNumber callDepth g s.
Proof.
  induction d as [|d IH]; [rewrite Nat.add_0_r; reflexivity|].
  rewrite Nat.add_succ_r, getNumber_mono; [exact IH|].
  rewrite IH. apply getNumber_total.
Qed.

(** * Strings and binaries *)

(** [GetString] on a long String whose declared length exceeds the address
    limit fails with an overflow error. *)
Lemma GetString_overflow (cfg : Settings) (s : Slice) :
  head s = 0xbf ->
  9 <= len s ->
  littleEndianValue (payload s 8) > addressLimit cfg ->
  GetString cfg s = Err OverflowError.
Proof.
  intros H Hlen Hbig.
  unfold GetString. rewrite H. zbool.
  rewrite from_ok by lia. cbn [bind].
  unfold readIntegerFixed.
  pose proof (readIntegerNonEmpty_value (skipn (Z.to_nat 1) s) 8) as Hr.
  unfold readIntegerNonEmpty in Hr.
  rewrite Hr; [| lia | rewrite len_skipn; lia ].
  cbn [bind]. unfold checkOverflow.
  change (firstn (Z.to_nat 8) (skipn (Z.to_nat 1) s)) with (payload s 8).
  destruct (Z.gtb_spec (littleEndianValue (payload s 8)) (addressLimit cfg));
    [reflexivity | lia].
Qed.

Lemma range_outcome (s : Slice) (a b : Z) :
  range s a b = Panic \/ exists r, range s a b = Ok r.
Proof.
  unfold range.
  destruct ((0 <=? a) && (a <=? b) && (b <=? len s));
    [right; eexists | left]; reflexivity.
Qed.

(** [GetBinary] never fails with an overflow error. *)
Lemma GetBinary_no_overflow (cfg : Settings) (s : Slice) :
  GetBinary cfg s <> Err OverflowError.
Proof.
  unfold GetBinary.
  destruct (IsBinary s); cbn [negb]; [|discriminate].
  unfold VELOCYPACK_ASSERT.
  destruct (assertionsChecked cfg);
    [destruct ((head s >=? 192) && (head s <=? 199))|]; cbn [bind];
    try discriminate.
  all: unfold from; destruct ((0 <=? 1) && (1 <=? len s)); cbn [bind];
    try discriminate.
  all: destruct (readIntegerLoop_outcome
                   (Z.to_nat (u8 (head s - 191))) (skipn (Z.to_nat 1) s) 0 0)
         as [E|[r E]]; unfold readIntegerNonEmpty; rewrite E; cbn [bind];
    try discriminate.
  all: match goal with
       | |- range ?s ?a ?b <> _ =>
           destruct (range_outcome s a b) as [E'|[r' E']]; rewrite E';
           discriminate
       end.
Qed.

(** C9: a long String or a Binary whose declared length exceeds the address
    limit makes the extraction fail with an overflow error.  [GetString]
    does ([GetString_overflow]); [GetBinary] calls [checkOverflow] and drops
    its result: on the Binary of declared length [2^64 - 1] it panics on
    the slice bounds, and it never returns an overflow error. *)
Theorem GetBinary_drops_overflow_check :
  GetString checked64 hugeString = Err OverflowError
  /\ GetBinary checked64 hugeBinary = Panic
  /\ (forall cfg s, GetBinary cfg s <> Err OverflowError).
Proof.
  split; [|split].
  - vm_compute. reflexivity.
  - vm_compute. reflexivity.
  - exact GetBinary_no_overflow.
Qed.

(** * Members of objects by index *)

Lemma skipn_skipn_Z (s : Slice) (a b : Z) :
  0 <= a -> 0 <= b ->
  skipn (Z.to_nat b) (skipn (Z.to_nat a) s) = skipn (Z.to_nat (a + b)) s.
Proof.
  intros Ha Hb. rewrite skipn_skipn. f_equal. lia.
Qed.

(** [ValueAt] and [getNthValue] are [Next] after the untranslated key. *)
Lemma ValueAt_Next_KeyAt (cfg : Settings) (s : Slice) (i : Z) :
  ValueAt cfg s i = (key <- KeyAt cfg s i false ;; Next cfg key).
Proof.
  unfold ValueAt, KeyAt, Next.
  destruct (IsObject s); reflexivity.
Qed.

Lemma getNthKey_untranslated (cfg : Settings) (s : Slice) (i off : Z) :
  IsObject s = true ->
  getNthOffset cfg s i = Ok off ->
  0 <= off <= len s ->
  getNthKey cfg s i false = Ok (skipn (Z.to_nat off) s).
Proof.
  intros Ho Hoff Hr. unfold getNthKey.
  unfold IsObject, IsType in Ho. rewrite Ho.
  unfold VELOCYPACK_ASSERT.
  destruct (assertionsChecked cfg); cbn [bind]; rewrite Hoff; cbn [bind];
    rewrite from_ok by lia; reflexivity.
Qed.

(** C7: [ValueAt(i)] is the Slice that starts immediately after the i-th
    key, at the key's offset plus [ByteSize(key)]; it is [Next] applied to
    the untranslated result of [KeyAt(i)]. *)
Theorem ValueAt_follows_key (cfg : Settings) (s : Slice) (i off sz : Z) :
  IsObject s = true ->
  getNthOffset cfg s i = Ok off ->
  0 <= off <= len s ->
  ByteSize cfg (skipn (Z.to_nat off) s) = Ok sz ->
  0 <= sz /\ off + sz <= len s ->
  KeyAt cfg s i false = Ok (skipn (Z.to_nat off) s)
  /\ ValueAt cfg s i = Ok (skipn (Z.to_nat (off + sz)) s)
  /\ ValueAt cfg s i = (key <- KeyAt cfg s i false ;; Next cfg key)
  /\ getNthValue cfg s i = ValueAt cfg s i.
Proof.
  intros Ho Hoff Hr Hsz [Hs0 Hs1].
  assert (Hk : KeyAt cfg s i false = Ok (skipn (Z.to_nat off) s)).
  { unfold KeyAt. rewrite Ho. cbn [negb].
    apply getNthKey_untranslated; assumption. }
  assert (Hv : ValueAt cfg s i = (key <- KeyAt cfg s i false ;; Next cfg key))
    by apply ValueAt_Next_KeyAt.
  split; [exact Hk|]. split; [|split; [exact Hv|]].
  - rewrite Hv, Hk. cbn [bind]. unfold Next. rewrite Hsz. cbn [bind].
    rewrite from_ok by (rewrite len_skipn; lia).
    rewrite skipn_skipn_Z by lia. reflexivity.
  - unfold getNthValue, ValueAt. rewrite Ho. reflexivity.
Qed.

Lemma ValueAt_follows_key_witness :
  KeyAt checked64 sortedObject 1 false
  = Ok [x41; x62; x32; x41; x63; x33; x03; x06; x09]
  /\ ValueAt checked64 sortedObject 1
     = Ok [x32; x41; x63; x33; x03; x06; x09].
Proof.
  pose proof (ValueAt_follows_key checked64 sortedObject 1 6 2
                ltac:(reflexivity) ltac:(reflexivity)
                ltac:(vm_compute; split; discriminate)
                ltac:(reflexivity)
                ltac:(vm_compute; split; discriminate)) as H.
  exact (conj (proj1 H) (proj1 (proj2 H))).
Defined.

(** * Heads of arrays and objects *)

Ltac split_tests :=
  repeat (match goal with
          | |- context [Z.eqb ?a ?b] => destruct (Z.eqb_spec a b)
          | |- context [Z.leb ?a ?b] => destruct (Z.leb_spec a b)
          end; cbn [andb orb negb]).

Lemma typeMap_Array (h : Z) :
  typeMap h = ValueType.Array -> 1 <= h <= 9 \/ h = 0x13.
Proof.
  unfold typeMap, within. split_tests; intros E; try discriminate; lia.
Qed.

Lemma typeMap_Object (h : Z) :
  typeMap h = ValueType.Object -> 0x0a <= h <= 0x12 \/ h = 0x14.
Proof.
  unfold typeMap, within. split_tests; intros E; try discriminate; lia.
Qed.

Lemma ValueType_eqb_eq (a b : ValueType.t) :
  ValueType.eqb a b = true -> a = b.
Proof. destruct a, b; simpl; intros H; try discriminate; reflexivity. Qed.

Lemma IsArray_head (s : Slice) :
  IsArray s = true -> 1 <= head s <= 9 \/ head s = 0x13.
Proof.
  intros H. apply typeMap_Array. apply ValueType_eqb_eq. exact H.
Qed.

Lemma IsObject_head (s : Slice) :
  IsObject s = true -> 0x0a <= head s <= 0x12 \/ head s = 0x14.
Proof.
  intros H. apply typeMap_Object. apply ValueType_eqb_eq. exact H.
Qed.

Lemma container_heads (s : Slice) :
  IsArray s || IsObject s = true ->
  head s = 1 \/ head s = 2 \/ head s = 3 \/ head s = 4 \/ head s = 5
  \/ head s = 6 \/ head s = 7 \/ head s = 8 \/ head s = 9 \/ head s = 10
  \/ head s = 11 \/ head s = 12 \/ head s = 13 \/ head s = 14
  \/ head s = 15 \/ head s = 16 \/ head s = 17 \/ head s = 18
  \/ head s = 19 \/ head s = 20.
Proof.
  intros H. apply orb_true_iff in H. destruct H as [H|H].
  - apply IsArray_head in H. lia.
  - apply IsObject_head in H. lia.
Qed.

(** Reduces the sequencing of calls and the tests on numerals. *)
Ltac calc :=
  cbn [bind fst snd Z.eqb Z.leb Z.ltb Z.gtb Z.geb Z.compare Pos.compare
       Pos.compare_cont Pos.eqb andb orb negb widthMap firstSubMap within].

Tactic Notation "calc" "in" hyp(H) :=
  cbn [bind fst snd Z.eqb Z.leb Z.ltb Z.gtb Z.geb Z.compare Pos.compare
       Pos.compare_cont Pos.eqb andb orb negb widthMap firstSubMap within]
    in H.

(** Takes the first call of a sequence of calls in [H] apart, in [H] and in
    the goal. *)
Ltac step_in H :=
  match type of H with
  | context [bind ?r _] =>
      let E := fresh "E" in
      destruct r eqn:E; calc in H; try discriminate H; calc
  end.

Lemma Length_container (cfg : Settings) (s : Slice) (n : Z) :
  Length cfg s = Ok n -> IsArray s || IsObject s = true.
Proof.
  unfold Length.
  destruct (IsArray s), (IsObject s); simpl; try reflexivity; discriminate.
Qed.

(** An index at or beyond the length has no offset. *)
Lemma getNthOffset_out_of_bounds (cfg : Settings) (s : Slice) (n index : Z) :
  Length cfg s = Ok n ->
  n <= index ->
  getNthOffset cfg s index = Err IndexOutOfBoundsError.
Proof.
  intros HL Hi.
  pose proof (Length_container cfg s n HL) as Hc.
  pose proof (container_heads s Hc) as Hh.
  unfold getNthOffset, getNthOffsetFromCompact.
  rewrite Hc.
  unfold Length in HL.
  replace (negb (IsArray s) && negb (IsObject s)) with false in HL
    by (destruct (IsArray s), (IsObject s); simpl in *; congruence).
  unfold indexEntrySize in *.
  unfold VELOCYPACK_ASSERT in *. cbn [andb orb negb] in *.
  repeat (destruct Hh as [Hh|Hh]); rewrite Hh in *.
  all: calc in HL; calc.
  all: destruct (assertionsChecked cfg); calc in HL; calc.
  all: try reflexivity.
  all: rewrite ?(Z.add_comm 1 1), ?(Z.add_comm 2 1), ?(Z.add_comm 4 1) in HL.
  all: repeat step_in HL.
  all: repeat match goal with
              | H : (if ?c then Err _ else Ok _) = Ok _ |- _ =>
                  destruct c eqn:?; [discriminate H|];
                  inversion H; subst; clear H
              | H : Ok _ = Ok _ |- _ => inversion H; subst; clear H
              end.
  all: rewrite ?HL; calc; zbool; try reflexivity.
Qed.

(** C8: on an array or object of length [n], compact and empty ones
    included, access to a member by an index [>= n] fails with
    index-out-of-bounds: [At] on arrays, [KeyAt] and [ValueAt] on
    objects. *)
Theorem member_index_out_of_bounds (cfg : Settings) (s : Slice)
  (n index : Z) (translate : bool) :
  Length cfg s = Ok n ->
  n <= index ->
  (IsArray s = true -> At cfg s index = Err IndexOutOfBoundsError)
  /\ (IsObject s = true ->
      KeyAt cfg s index translate = Err IndexOutOfBoundsError
      /\ ValueAt cfg s index = Err IndexOutOfBoundsError).
Proof.
  intros HL Hi.
  pose proof (getNthOffset_out_of_bounds cfg s n index HL Hi) as Hoff.
  split.
  - intros Ha. unfold At, getNth. rewrite Ha. cbn [negb].
    unfold VELOCYPACK_ASSERT.
    destruct (assertionsChecked cfg); cbn [bind]; rewrite Hoff; reflexivity.
  - intros Ho. unfold KeyAt, ValueAt, getNthKey. rewrite Ho. cbn [negb].
    unfold IsObject, IsType in Ho. rewrite Ho.
    unfold VELOCYPACK_ASSERT.
    destruct (assertionsChecked cfg); cbn [bind]; rewrite Hoff; split;
      reflexivity.
Qed.

Lemma member_index_out_of_bounds_witness :
  At checked64 smallArray 3 = Err IndexOutOfBoundsError
  /\ KeyAt checked64 sortedObject 3 true = Err IndexOutOfBoundsError
  /\ ValueAt checked64 compactObject 4 = Err IndexOutOfBoundsError.
Proof.
  split; [|split].
  - exact (proj1 (member_index_out_of_bounds checked64 smallArray 3 3 true
                    ltac:(reflexivity) ltac:(discriminate))
             ltac:(reflexivity)).
  - exact (proj1 (proj2 (member_index_out_of_bounds checked64 sortedObject
                           3 3 true ltac:(reflexivity) ltac:(discriminate))
                    ltac:(reflexivity))).
  - exact (proj2 (proj2 (member_index_out_of_bounds checked64 compactObject
                           4 4 true ltac:(reflexivity) ltac:(discriminate))
                    ltac:(reflexivity))).
Defined.

(** * Variable-length sizes *)

Lemma variableLengthLoop_bound (fuel : nat) :
  forall (j v : Z),
    1 <= j -> 0 <= v < 2 ^ (7 * j) ->
    1 <= variableLengthLoop fuel v <= j.
Proof.
  induction fuel as [|fuel IH]; intros j v Hj Hv; cbn [variableLengthLoop];
    [lia|].
  destruct (Z.ltb_spec v 128) as [Hs|Hb]; [lia|].
  assert (Hj2 : 2 <= j).
  { destruct (Z.le_gt_cases 2 j) as [|Hlt]; [assumption|].
    assert (j = 1) by lia. subst j. change (2 ^ (7 * 1)) with 128 in Hv. lia. }
  assert (Hshift : 0 <= Z.shiftr v 7 < 2 ^ (7 * (j - 1))).
  { rewrite Z.shiftr_div_pow2 by lia. change (2 ^ 7) with 128.
    replace (7 * j) with (7 * (j - 1) + 7) in Hv by lia.
    rewrite Z.pow_add_r in Hv by lia. change (2 ^ 7) with 128 in Hv.
    split; [apply Z.div_pos; lia|].
    apply Z.div_lt_upper_bound; [lia|].
    rewrite Z.mul_comm. apply Hv. }
  specialize (IH (j - 1) (Z.shiftr v 7) ltac:(lia) Hshift). lia.
Qed.

Lemma u64_le (x : Z) : 0 <= x -> 0 <= u64 x <= x.
Proof.
  intros H. unfold u64. split; [apply Z.mod_pos_bound; lia|].
  apply Z.mod_le; lia.
Qed.

Lemma land_7f_range (v : Z) : 0 <= v -> 0 <= Z.land v 0x7f <= 127.
Proof.
  intros H. split; [apply Z.land_nonneg; lia|].
  change (Z.land v 0x7f) with (Z.land v (Z.ones 7)).
  rewrite Z.land_ones by lia.
  pose proof (Z.mod_pos_bound v (2 ^ 7) ltac:(lia)).
  change (2 ^ 7) with 128 in *. lia.
Qed.

Lemma readVariableForward_bound (s : list byte) :
  forall (m acc v : Z),
    0 <= m -> 0 <= acc < 2 ^ (7 * m) ->
    readVariableForward s (7 * m) acc = Ok v ->
    exists k, 1 <= k <= len s /\ 0 <= v < 2 ^ (7 * (m + k)).
Proof.
  induction s as [|b s IH]; intros m acc v Hm Hacc H;
    cbn [readVariableForward] in H; [discriminate|].
  pose proof (byteval_range b) as Hb.
  pose proof (land_7f_range (byteval b) ltac:(lia)) as Hland.
  assert (Hpos : 0 < 2 ^ (7 * m)) by (apply Z.pow_pos_nonneg; lia).
  assert (Hpow : 2 ^ (7 * (m + 1)) = 2 ^ (7 * m) * 128).
  { replace (7 * (m + 1)) with (7 * m + 7) by lia.
    rewrite Z.pow_add_r by lia. reflexivity. }
  rewrite Z.shiftl_mul_pow2 in H by lia.
  set (x := Z.land (byteval b) 127) in *.
  assert (Hx : 0 <= u64 (x * 2 ^ (7 * m)) <= x * 2 ^ (7 * m))
    by (apply u64_le; nia).
  assert (Hnew : 0 <= u64 (acc + u64 (x * 2 ^ (7 * m))) < 2 ^ (7 * (m + 1))).
  { pose proof (u64_le (acc + u64 (x * 2 ^ (7 * m))) ltac:(lia)). nia. }
  rewrite len_cons. pose proof (len_nonneg s).
  destruct (Z.land (byteval b) 128 =? 0).
  - inversion H; subst v. exists 1. split; [lia | exact Hnew].
  - replace (7 * m + 7) with (7 * (m + 1)) in H by lia.
    destruct (IH (m + 1) _ v ltac:(lia) Hnew H) as [k [Hk Hv]].
    exists (k + 1). split; [lia|].
    replace (m + (k + 1)) with (m + 1 + k) by lia. exact Hv.
Qed.

Lemma readVariableForward_u64 (s : list byte) :
  forall (p acc v : Z),
    readVariableForward s p acc = Ok v -> 0 <= v < 2 ^ 64.
Proof.
  induction s as [|b s IH]; intros p acc v H;
    cbn [readVariableForward] in H; [discriminate|].
  destruct (Z.land (byteval b) 128 =? 0).
  - inversion H. apply u64_range.
  - eapply IH. exact H.
Qed.

(** The variable-length form of a decoded size is not longer than the bytes
    it was decoded from, and not longer than 10 bytes. *)
Lemma getVariableValueLength_read (s : Slice) (v : Z) :
  readVariableValueLength s false = Ok v ->
  1 <= getVariableValueLength v <= len s
  /\ getVariableValueLength v <= 10.
Proof.
  intros H. unfold readVariableValueLength in H.
  destruct (readVariableForward_bound s 0 0 v ltac:(lia) ltac:(simpl; lia) H)
    as [k [Hk Hv]].
  pose proof (readVariableForward_u64 s 0 0 v H) as Hu.
  pose proof (variableLengthLoop_bound 10 k v ltac:(lia) Hv).
  assert (H70 : 2 ^ 64 < 2 ^ (7 * 10)) by reflexivity.
  pose proof (variableLengthLoop_bound 10 10 v ltac:(lia) ltac:(lia)).
  unfold getVariableValueLength. lia.
Qed.

(** * Construction of the object iterator *)

Lemma VELOCYPACK_ASSERT_true (cfg : Settings) :
  VELOCYPACK_ASSERT cfg true = Ok tt.
Proof. unfold VELOCYPACK_ASSERT. destruct (assertionsChecked cfg); reflexivity. Qed.

(** The first key of a compact object that is not empty. *)
Lemma KeyAt_compact_first (cfg : Settings) (s : Slice) (n : Z) :
  head s = 0x14 ->
  Length cfg s = Ok n ->
  0 < n ->
  exists key, KeyAt cfg s 0 false = Ok key.
Proof.
  intros Hh HL Hn.
  assert (Ho : IsObject s = true).
  { unfold IsObject, IsType, Type_. rewrite Hh. reflexivity. }
  assert (Ha : IsArray s = false).
  { unfold IsArray, IsType, Type_. rewrite Hh. reflexivity. }
  unfold KeyAt, getNthKey, getNthOffset, getNthOffsetFromCompact.
  unfold Length in HL. rewrite Ho, Ha in *.
  unfold IsObject, IsType in Ho. rewrite Ho.
  rewrite Hh in *. rewrite !VELOCYPACK_ASSERT_true.
  calc in HL. calc.
  repeat step_in HL. rewrite HL. calc.
  replace (0 >=? n) with false by (symmetry; rewrite Z.geb_leb; apply Z.leb_gt; lia).
  cbn [Z.to_nat compactOffsetLoop]. calc.
  apply from_inv in E. destruct E as [Hlen Es]. subst v.
  pose proof (getVariableValueLength_read _ _ E0) as Hg.
  change 1%nat with (Z.to_nat 1) in Hg. rewrite len_skipn in Hg by lia.
  rewrite u64_small by lia.
  rewrite from_ok by lia. calc.
  eexists. reflexivity.
Qed.

(** C6: [NewObjectIterator] on a non-compact object that is not empty
    returns the placeholder error; on a compact object (head [0x14]) and
    on an object without members it returns an iterator at position 0. *)
Theorem NewObjectIterator_placeholder (cfg : Settings) (s : Slice) (n : Z) :
  IsObject s = true ->
  Length cfg s = Ok n ->
  (0 < n -> head s <> 0x14 -> NewObjectIterator cfg s = Err TodoError)
  /\ (head s = 0x14 \/ n <= 0 ->
      exists it, NewObjectIterator cfg s = Ok it
                 /\ it_s it = s /\ position it = 0 /\ size it = n).
Proof.
  intros Ho HL. unfold NewObjectIterator. rewrite Ho, HL. cbn [negb bind].
  split.
  - intros Hn Hh. zbool. reflexivity.
  - intros [Hh|Hn].
    + destruct (Z.gtb_spec n 0) as [Hpos|Hle].
      * rewrite Hh. calc.
        destruct (KeyAt_compact_first cfg s n Hh HL Hpos) as [key Hk].
        rewrite Hk. eexists. repeat split.
      * eexists. repeat split.
    + zbool. eexists. repeat split.
Qed.

Lemma NewObjectIterator_placeholder_witness :
  NewObjectIterator checked64 sortedObject = Err TodoError
  /\ (exists it, NewObjectIterator checked64 compactObject = Ok it
                 /\ it_s it = compactObject /\ position it = 0 /\ size it = 4)
  /\ (exists it, NewObjectIterator checked64 [x0a] = Ok it
                 /\ it_s it = [x0a] /\ position it = 0 /\ size it = 0).
Proof.
  split; [|split].
  - destruct (NewObjectIterator_placeholder checked64 sortedObject 3)
      as [H _]; [reflexivity | reflexivity |].
    apply H; [reflexivity | discriminate].
  - destruct (NewObjectIterator_placeholder checked64 compactObject 4)
      as [_ H]; [reflexivity | reflexivity |].
    apply H. left. reflexivity.
  - destruct (NewObjectIterator_placeholder checked64 [x0a] 0)
      as [_ H]; [reflexivity | reflexivity |].
    apply H. right. discriminate.
Defined.

(** * Comparison of byte strings *)

Lemma byteval_inj (x y : byte) : byteval x = byteval y -> x = y.
Proof.
  unfold byteval. intros H. apply N2Z.inj in H.
  pose proof (Byte.of_to_N x) as Hx. pose proof (Byte.of_to_N y) as Hy.
  rewrite H in Hx. congruence.
Qed.

Lemma bytesCompare_values (a b : list byte) :
  bytesCompare a b = -1 \/ bytesCompare a b = 0 \/ bytesCompare a b = 1.
Proof.
  revert b. induction a as [|x a IH]; intros [|y b]; simpl; try lia.
  destruct (byteval x <? byteval y); [lia|].
  destruct (byteval y <? byteval x); [lia|]. apply IH.
Qed.

Lemma bytesCompare_eq (a b : list byte) :
  bytesCompare a b = 0 <-> a = b.
Proof.
  revert b. induction a as [|x a IH]; intros [|y b]; simpl.
  - split; reflexivity.
  - split; [lia | discriminate].
  - split; [lia | discriminate].
  - destruct (Z.ltb_spec (byteval x) (byteval y)) as [H1|H1].
    + split; [lia|]. intros E. inversion E. subst. lia.
    + destruct (Z.ltb_spec (byteval y) (byteval x)) as [H2|H2].
      * split; [lia|]. intros E. inversion E. subst. lia.
      * assert (x = y) by (apply byteval_inj; lia). subst y.
        rewrite IH. split; intros E; [subst; reflexivity | inversion E; reflexivity].
Qed.

Lemma bytesCompare_antisym (a b : list byte) :
  bytesCompare b a = - bytesCompare a b.
Proof.
  revert b. induction a as [|x a IH]; intros [|y b]; simpl; try lia.
  destruct (Z.ltb_spec (byteval x) (byteval y)),
    (Z.ltb_spec (byteval y) (byteval x)); try lia.
  apply IH.
Qed.

Lemma bytesCompare_trans (a b c : list byte) :
  bytesCompare a b < 0 -> bytesCompare b c < 0 -> bytesCompare a c < 0.
Proof.
  revert b c. induction a as [|x a IH]; intros [|y b] [|z c]; simpl;
    try lia.
  destruct (Z.ltb_spec (byteval x) (byteval y)) as [Hxy|Hxy].
  - intros _.
    destruct (Z.ltb_spec (byteval y) (byteval z)) as [Hyz|Hyz].
    + intros _. destruct (Z.ltb_spec (byteval x) (byteval z)); lia.
    + destruct (Z.ltb_spec (byteval z) (byteval y)); [lia|].
      intros _. destruct (Z.ltb_spec (byteval x) (byteval z)); lia.
  - destruct (Z.ltb_spec (byteval y) (byteval x)) as [Hyx|Hyx]; [lia|].
    intros Hab.
    destruct (Z.ltb_spec (byteval y) (byteval z)) as [Hyz|Hyz].
    + intros _. destruct (Z.ltb_spec (byteval x) (byteval z)); lia.
    + destruct (Z.ltb_spec (byteval z) (byteval y)); [lia|].
      intros Hbc.
      destruct (Z.ltb_spec (byteval x) (byteval z)); [lia|].
      destruct (Z.ltb_spec (byteval z) (byteval x)); [lia|].
      eapply IH; eassumption.
Qed.

Lemma stringEqual_eq (a b : gostring) : stringEqual a b = true <-> a = b.
Proof.
  revert b. induction a as [|x a IH]; intros [|y b]; simpl;
    try (split; [reflexivity | reflexivity]);
    try (split; discriminate).
  rewrite andb_true_iff, IH. split.
  - intros [H1 H2]. apply Byte.byte_dec_bl in H1. subst. reflexivity.
  - intros E. inversion E. subst. split; [apply Byte.byte_dec_lb|]; reflexivity.
Qed.

Lemma stringEqual_compare (a b : gostring) :
  stringEqual a b = (bytesCompare a b =? 0).
Proof.
  destruct (Z.eqb_spec (bytesCompare a b) 0) as [E|E].
  - apply stringEqual_eq, bytesCompare_eq. exact E.
  - destruct (stringEqual a b) eqn:Es; [|reflexivity].
    apply stringEqual_eq, bytesCompare_eq in Es. contradiction.
Qed.

(** * Search in an index table *)

Section TableSearch.

Variable cfg : Settings.
Variable s : Slice.
Variable attribute : gostring.
Variables ieBase w : Z.

Lemma keyEquals_named (key : Slice) (name : gostring) :
  keyName cfg key = Some name ->
  keyEquals cfg key attribute = Ok (Some (stringEqual name attribute)).
Proof.
  unfold keyName, keyEquals, IsEqualString.
  destruct (IsString key).
  - destruct (GetString cfg key); try discriminate.
    intros E. inversion E. reflexivity.
  - destruct (IsSmallInt key || IsUInt key); [|discriminate].
    destruct (translatorIsNil cfg); [discriminate|].
    destruct (translateUnchecked cfg key) as [tr| | |]; try discriminate.
    cbn [bind]. destruct (GetString cfg tr); try discriminate.
    intros E. inversion E. reflexivity.
Qed.

Lemma keyCompare_named (key : Slice) (name : gostring) :
  keyName cfg key = Some name ->
  keyCompare cfg key attribute = Ok (Some (bytesCompare name attribute)).
Proof.
  unfold keyName, keyCompare, CompareString.
  destruct (IsString key).
  - destruct (GetString cfg key); try discriminate.
    intros E. inversion E. reflexivity.
  - destruct (IsSmallInt key || IsUInt key); [|discriminate].
    destruct (translatorIsNil cfg); [discriminate|].
    destruct (translateUnchecked cfg key) as [tr| | |]; try discriminate.
    cbn [bind]. destruct (GetString cfg tr); try discriminate.
    intros E. inversion E. reflexivity.
Qed.

Lemma tableKeys_length (count : nat) :
  forall (index : Z) (keys : list (Slice * gostring)),
    tableKeys cfg s ieBase w count index = Some keys ->
    List.length keys = count.
Proof.
  induction count as [|count IH]; intros index keys H; simpl in H.
  - inversion H. reflexivity.
  - destruct (entryKey s ieBase w index); try discriminate.
    destruct (keyName cfg v); try discriminate.
    destruct (tableKeys cfg s ieBase w count (index + 1)) eqn:E;
      try discriminate.
    inversion H. simpl. f_equal. eapply IH. exact E.
Qed.

Lemma tableKeys_nth (count : nat) :
  forall (index : Z) (keys : list (Slice * gostring)) (j : nat)
         (key : Slice) (name : gostring),
    tableKeys cfg s ieBase w count index = Some keys ->
    nth_error keys j = Some (key, name) ->
    entryKey s ieBase w (index + Z.of_nat j) = Ok key
    /\ keyName cfg key = Some name.
Proof.
  induction count as [|count IH]; intros index keys j key name H Hj;
    simpl in H.
  - inversion H. subst. destruct j; discriminate.
  - destruct (entryKey s ieBase w index) as [k| | |] eqn:Ek; try discriminate.
    destruct (keyName cfg k) as [nm|] eqn:En; try discriminate.
    destruct (tableKeys cfg s ieBase w count (index + 1)) eqn:E;
      try discriminate.
    inversion H. subst keys. destruct j as [|j].
    + simpl in Hj. inversion Hj. subst.
      rewrite Z.add_0_r. split; assumption.
    + simpl in Hj.
      replace (index + Z.of_nat (S j)) with (index + 1 + Z.of_nat j) by lia.
      eapply IH; eassumption.
Qed.

(** The linear search returns what [lookup] returns. *)
Lemma linearLoop_lookup (count : nat) :
  forall (index : Z) (keys : list (Slice * gostring)),
    0 <= index -> index + Z.of_nat count < 2 ^ 64 ->
    tableKeys cfg s ieBase w count index = Some keys ->
    linearLoop cfg s attribute ieBase w count index
    = lookup cfg keys attribute.
Proof.
  induction count as [|count IH]; intros index keys Hi Hb H; simpl in H.
  - inversion H. reflexivity.
  - destruct (entryKey s ieBase w index) as [k| | |] eqn:Ek; try discriminate.
    destruct (keyName cfg k) as [nm|] eqn:En; try discriminate.
    destruct (tableKeys cfg s ieBase w count (index + 1)) eqn:E;
      try discriminate.
    inversion H. subst keys.
    cbn [linearLoop lookup].
    unfold entryKey in Ek.
    destruct (from s (u64 (ieBase + index * w))) as [so| | |];
      try discriminate; cbn [bind] in *.
    destruct (readIntegerNonEmpty so w) as [o| | |]; try discriminate;
      cbn [bind] in *.
    rewrite Ek. cbn [bind].
    rewrite (keyEquals_named k nm En). cbn [bind].
    destruct (stringEqual nm attribute); [reflexivity|].
    rewrite u64_small by lia.
    apply IH; [lia | lia | exact E].
Qed.

End TableSearch.

(** * Lookup among named keys *)

Lemma lookup_absent (cfg : Settings) (keys : list (Slice * gostring))
  (attribute : gostring) :
  ~ In attribute (map snd keys) ->
  lookup cfg keys attribute = Ok nilSlice.
Proof.
  induction keys as [|[key name] keys IH]; intros H; simpl; [reflexivity|].
  simpl in H.
  destruct (stringEqual name attribute) eqn:E.
  - apply stringEqual_eq in E. tauto.
  - apply IH. tauto.
Qed.

Lemma lookup_first (cfg : Settings) (keys : list (Slice * gostring))
  (attribute : gostring) :
  forall (j : nat) (key : Slice),
    nth_error keys j = Some (key, attribute) ->
    (forall i k nm, (i < j)%nat -> nth_error keys i = Some (k, nm) ->
                    nm <> attribute) ->
    lookup cfg keys attribute = Next cfg key.
Proof.
  induction keys as [|[k0 n0] keys IH]; intros j key Hj Hfirst.
  - destruct j; discriminate.
  - destruct j as [|j]; simpl in Hj; cbn [lookup].
    + inversion Hj. subst.
      replace (stringEqual attribute attribute) with true
        by (symmetry; apply stringEqual_eq; reflexivity).
      reflexivity.
    + destruct (stringEqual n0 attribute) eqn:E.
      * apply stringEqual_eq in E.
        exfalso. apply (Hfirst 0%nat k0 n0); [lia | reflexivity | exact E].
      * apply (IH j key Hj). intros i k nm Hi Hn.
        apply (Hfirst (S i) k nm); [lia | exact Hn].
Qed.

(** In an ascending list the names grow with the index. *)
Lemma ascending_nth (names : list gostring) :
  ascending names = true ->
  forall (i j : nat) (a b : gostring),
    (i < j)%nat ->
    nth_error names i = Some a -> nth_error names j = Some b ->
    bytesCompare a b < 0.
Proof.
  induction names as [|x names IH]; intros Ha i j a b Hij Hi Hj.
  - destruct i; discriminate.
  - cbn [ascending] in Ha.
    destruct names as [|y names].
    + destruct j as [|j]; [lia|]. destruct j; discriminate.
    + apply andb_true_iff in Ha. destruct Ha as [Hxy Hrest].
      apply Z.ltb_lt in Hxy.
      destruct j as [|j]; [lia|]. simpl in Hj.
      destruct i as [|i].
      * simpl in Hi. inversion Hi. subst a.
        destruct j as [|j].
        -- simpl in Hj. inversion Hj. subst b. exact Hxy.
        -- apply (bytesCompare_trans x y b Hxy).
           apply (IH Hrest 0%nat (S j) y b); [lia | reflexivity | exact Hj].
      * simpl in Hi. apply (IH Hrest i j a b); [lia | exact Hi | exact Hj].
Qed.

(** * Binary search in a sorted index table *)

Section BinarySearch.

Variable cfg : Settings.
Variable s : Slice.
Variable attribute : gostring.
Variables ieBase w n : Z.
Variable keys : list (Slice * gostring).

Hypothesis Hn : 1 <= n < 2 ^ 64.
Hypothesis Hkeys : tableKeys cfg s ieBase w (Z.to_nat n) 0 = Some keys.

Lemma table_entry (i : Z) :
  0 <= i < n ->
  exists key name,
    nth_error keys (Z.to_nat i) = Some (key, name)
    /\ entryKey s ieBase w i = Ok key
    /\ keyName cfg key = Some name.
Proof.
  intros Hi.
  pose proof (tableKeys_length cfg s ieBase w _ _ _ Hkeys) as Hlen.
  destruct (nth_error keys (Z.to_nat i)) as [[key name]|] eqn:E.
  - exists key, name. split; [reflexivity|].
    pose proof (tableKeys_nth cfg s ieBase w _ _ _ _ _ _ Hkeys E) as H.
    rewrite Z2Nat.id in H by lia. exact H.
  - apply nth_error_None in E. lia.
Qed.

Hypothesis Hasc : ascending (map snd keys) = true.

Lemma names_ascend (i j : Z) (ki kj : Slice) (ni nj : gostring) :
  0 <= i < j ->
  nth_error keys (Z.to_nat i) = Some (ki, ni) ->
  nth_error keys (Z.to_nat j) = Some (kj, nj) ->
  bytesCompare ni nj < 0.
Proof.
  intros Hij Hi Hj.
  apply (ascending_nth (map snd keys) Hasc (Z.to_nat i) (Z.to_nat j));
    [lia | |].
  - rewrite nth_error_map, Hi. reflexivity.
  - rewrite nth_error_map, Hj. reflexivity.
Qed.

(** The search between [l] and [r], when the attribute is not outside
    them, returns what [lookup] returns; every step halves the range. *)
Lemma binaryLoop_lookup (budget : nat) :
  forall (l r : Z),
    0 <= l <= r -> r < n ->
    r - l + 1 < 2 ^ Z.of_nat budget ->
    (forall j key name,
        0 <= j < l \/ r < j < n ->
        nth_error keys (Z.to_nat j) = Some (key, name) ->
        name <> attribute) ->
    binaryLoop cfg s attribute ieBase w budget l r (l + (r - l) / 2)
    = lookup cfg keys attribute.
Proof.
  induction budget as [|budget IH]; intros l r Hlr Hr Hsize Hout.
  - simpl in Hsize. lia.
  - rewrite Nat2Z.inj_succ, Z.pow_succ_r in Hsize by lia.
    set (index := l + (r - l) / 2).
    assert (Hindex : l <= index <= r).
    { unfold index. pose proof (Z.div_pos (r - l) 2 ltac:(lia) ltac:(lia)).
      assert ((r - l) / 2 <= r - l) by (apply Z.div_le_upper_bound; lia).
      lia. }
    destruct (table_entry index ltac:(lia)) as (key & name & Hnth & Hent & Hname).
    cbn [binaryLoop]. unfold readIntegerFixed.
    unfold entryKey, readIntegerNonEmpty in Hent.
    destruct (from s (u64 (ieBase + index * w))) as [so| | |];
      try discriminate; cbn [bind] in *.
    destruct (readIntegerLoop (Z.to_nat w) so 0 0) as [o| | |];
      try discriminate; cbn [bind] in *.
    rewrite Hent. cbn [bind].
    rewrite (keyCompare_named cfg attribute key name Hname). cbn [bind].
    (* names before and after the midpoint *)
    assert (Hbefore : forall j kj nj,
               0 <= j < index ->
               nth_error keys (Z.to_nat j) = Some (kj, nj) ->
               bytesCompare nj name < 0).
    { intros j kj nj Hj Hnj. exact (names_ascend j index kj key nj name ltac:(lia) Hnj Hnth). }
    assert (Hafter : forall j kj nj,
               index < j ->
               nth_error keys (Z.to_nat j) = Some (kj, nj) ->
               bytesCompare name nj < 0).
    { intros j kj nj Hj Hnj. exact (names_ascend index j key kj name nj ltac:(lia) Hnth Hnj). }
    destruct (Z.eqb_spec (bytesCompare name attribute) 0) as [E0|E0].
    + (* found *)
      apply bytesCompare_eq in E0. subst name.
      symmetry. apply (lookup_first cfg keys attribute (Z.to_nat index) key Hnth).
      intros i k nm Hi Hk E. subst nm.
      pose proof (Hbefore (Z.of_nat i) k attribute ltac:(lia)) as Hlt.
      rewrite Nat2Z.id in Hlt. specialize (Hlt Hk).
      assert (bytesCompare attribute attribute = 0)
        by (apply bytesCompare_eq; reflexivity).
      lia.
    + assert (Hnil : (forall j kj nj,
                         l <= j <= r ->
                         nth_error keys (Z.to_nat j) = Some (kj, nj) ->
                         nj <> attribute) ->
                     lookup cfg keys attribute = Ok nilSlice).
      { intros Hin. apply lookup_absent. intros Hmem.
        apply in_map_iff in Hmem. destruct Hmem as [[kj nj] [Enj Hmem]].
        simpl in Enj. subst nj.
        apply In_nth_error in Hmem. destruct Hmem as [jn Hjn].
        pose proof (tableKeys_length cfg s ieBase w _ _ _ Hkeys) as Hlen.
        assert (Hjlt : (jn < List.length keys)%nat)
          by (apply nth_error_Some; rewrite Hjn; discriminate).
        destruct (Z.lt_ge_cases (Z.of_nat jn) l) as [Hjl|Hjl].
        - apply (Hout (Z.of_nat jn) kj attribute); [lia | | reflexivity].
          rewrite Nat2Z.id. exact Hjn.
        - destruct (Z.lt_ge_cases r (Z.of_nat jn)) as [Hjr|Hjr].
          + apply (Hout (Z.of_nat jn) kj attribute); [lia | | reflexivity].
            rewrite Nat2Z.id. exact Hjn.
          + apply (Hin (Z.of_nat jn) kj attribute); [lia | | reflexivity].
            rewrite Nat2Z.id. exact Hjn. }
      assert (Hself : bytesCompare attribute attribute = 0)
        by (apply bytesCompare_eq; reflexivity).
      destruct (Z.gtb_spec (bytesCompare name attribute) 0) as [Hgt|Hle].
      * (* the midpoint key is above the attribute *)
        assert (Habove : forall j kj nj,
                   index <= j ->
                   nth_error keys (Z.to_nat j) = Some (kj, nj) ->
                   nj <> attribute).
        { intros j kj nj Hj Hnj E. subst nj.
          destruct (Z.eq_dec j index) as [Ej|Ej].
          - subst j. rewrite Hnth in Hnj. inversion Hnj. subst. lia.
          - pose proof (Hafter j kj attribute ltac:(lia) Hnj) as Hlt. lia. }
        destruct (Z.eqb_spec index 0) as [Ei|Ei].
        -- symmetry. apply Hnil. intros j kj nj Hj. apply Habove. lia.
        -- rewrite (u64_small (index - 1)) by lia.
           destruct (Z.ltb_spec (index - 1) l) as [Hrl|Hrl].
           ++ symmetry. apply Hnil. intros j kj nj Hj. apply Habove. lia.
           ++ rewrite (u64_small (index - 1 - l)) by lia.
              assert (Hmid : 0 <= (index - 1 - l) / 2 <= index - 1 - l).
              { split; [apply Z.div_pos; lia|].
                apply Z.div_le_upper_bound; lia. }
              rewrite u64_small by lia.
              apply IH; try lia.
              ** unfold index in *.
                 assert (2 * ((r - l) / 2) <= r - l)
                   by (apply Z.mul_div_le; lia).
                 lia.
              ** intros j kj nj [Hj|Hj]; [apply Hout; lia|].
                 apply Habove. lia.
      * (* the midpoint key is below the attribute *)
        assert (Hlt : bytesCompare name attribute < 0) by lia.
        assert (Hbelow : forall j kj nj,
                   0 <= j <= index ->
                   nth_error keys (Z.to_nat j) = Some (kj, nj) ->
                   nj <> attribute).
        { intros j kj nj Hj Hnj E. subst nj.
          destruct (Z.eq_dec j index) as [Ej|Ej].
          - subst j. rewrite Hnth in Hnj. inversion Hnj. subst. lia.
          - pose proof (Hbefore j kj attribute ltac:(lia) Hnj) as Hb.
            pose proof (bytesCompare_antisym attribute name). lia. }
        rewrite (u64_small (index + 1)) by lia.
        destruct (Z.ltb_spec r (index + 1)) as [Hrl|Hrl].
        -- symmetry. apply Hnil. intros j kj nj Hj. apply Hbelow. lia.
        -- rewrite (u64_small (r - (index + 1))) by lia.
           assert (Hmid : 0 <= (r - (index + 1)) / 2 <= r - (index + 1)).
           { split; [apply Z.div_pos; lia|].
             apply Z.div_le_upper_bound; lia. }
           rewrite u64_small by lia.
           apply IH; try lia.
           ** unfold index in *.
              pose proof (Z.div_mod (r - l) 2 ltac:(lia)).
              pose proof (Z.mod_pos_bound (r - l) 2 ltac:(lia)).
              lia.
           ** intros j kj nj [Hj|Hj]; [|apply Hout; lia].
              apply Hbelow. lia.
Qed.

End BinarySearch.

(** C2: on a sorted object, the binary search and the linear scan of [Get]
    return identical results for every attribute: with an index table of
    [n >= 1] entries whose keys have names in strictly ascending bytewise
    order, [searchObjectKeyBinary] (with room for 64 midpoints or more)
    equals [searchObjectKeyLinear]; both return the Slice after the key of
    that name when there is one, and the None-Slice when there is none. *)
Theorem binary_search_equals_linear (cfg : Settings) (s : Slice)
  (attribute : gostring) (ieBase w n : Z)
  (keys : list (Slice * gostring)) (budget : nat) :
  1 <= n < 2 ^ 64 ->
  tableKeys cfg s ieBase w (Z.to_nat n) 0 = Some keys ->
  ascending (map snd keys) = true ->
  (64 <= budget)%nat ->
  searchObjectKeyBinary cfg budget s attribute ieBase n w
  = searchObjectKeyLinear cfg s attribute ieBase w n
  /\ (forall key, In (key, attribute) keys ->
                  searchObjectKeyLinear cfg s attribute ieBase w n
                  = Next cfg key)
  /\ (~ In attribute (map snd keys) ->
      searchObjectKeyLinear cfg s attribute ieBase w n = Ok nilSlice).
Proof.
  intros Hn Hkeys Hasc Hbudget.
  assert (Hlin : searchObjectKeyLinear cfg s attribute ieBase w n
                 = lookup cfg keys attribute).
  { unfold searchObjectKeyLinear.
    apply linearLoop_lookup; [lia | lia | exact Hkeys]. }
  split; [|split].
  - rewrite Hlin. unfold searchObjectKeyBinary.
    replace (n >? 0) with true by (symmetry; apply Z.gtb_lt; lia).
    rewrite VELOCYPACK_ASSERT_true. cbn [bind].
    rewrite (u64_small (n - 1)) by lia.
    replace ((n - 1) / 2) with (0 + (n - 1 - 0) / 2)
      by (rewrite Z.sub_0_r; reflexivity).
    apply (binaryLoop_lookup cfg s attribute ieBase w n keys Hn Hkeys Hasc);
      try lia.
    assert (2 ^ 64 <= 2 ^ Z.of_nat budget)
      by (apply Z.pow_le_mono_r; lia).
    lia.
  - intros key Hin. rewrite Hlin.
    apply In_nth_error in Hin. destruct Hin as [j Hj].
    apply (lookup_first cfg keys attribute j key Hj).
    intros i k nm Hi Hk E. subst nm.
    assert (Hlt : bytesCompare attribute attribute < 0).
    { apply (ascending_nth (map snd keys) Hasc i j); [exact Hi | |].
      - rewrite nth_error_map, Hk. reflexivity.
      - rewrite nth_error_map, Hj. reflexivity. }
    assert (bytesCompare attribute attribute = 0)
      by (apply bytesCompare_eq; reflexivity).
    lia.
  - intros Hout. rewrite Hlin. apply lookup_absent. exact Hout.
Qed.

Lemma binary_search_equals_linear_witness :
  searchObjectKeyBinary checked64 64 sortedObject4 [x63] 15 4 1
  = searchObjectKeyLinear checked64 sortedObject4 [x63] 15 1 4
  /\ searchObjectKeyLinear checked64 sortedObject4 [x63] 15 1 4
     = Ok [x33; x41; x64; x34; x03; x06; x09; x0c]
  /\ searchObjectKeyBinary checked64 64 sortedObject4 [x7a] 15 4 1
     = searchObjectKeyLinear checked64 sortedObject4 [x7a] 15 1 4
  /\ searchObjectKeyLinear checked64 sortedObject4 [x7a] 15 1 4 = Ok nilSlice.
Proof.
  assert (Hn : 1 <= 4 < 2 ^ 64) by (split; [discriminate | reflexivity]).
  assert (Hk : tableKeys checked64 sortedObject4 15 1 (Z.to_nat 4) 0
               = Some sortedObject4Keys) by reflexivity.
  assert (Ha : ascending (map snd sortedObject4Keys) = true) by reflexivity.
  assert (Hb : (64 <= 64)%nat) by apply le_n.
  destruct (binary_search_equals_linear checked64 sortedObject4 [x63]
              15 1 4 sortedObject4Keys 64 Hn Hk Ha Hb) as (Hc1 & Hc2 & _).
  destruct (binary_search_equals_linear checked64 sortedObject4 [x7a]
              15 1 4 sortedObject4Keys 64 Hn Hk Ha Hb) as (Hz1 & _ & Hz3).
  split; [exact Hc1|]. split.
  - apply (Hc2 (skipn 9 sortedObject4)). right. right. left. reflexivity.
  - split; [exact Hz1|]. apply Hz3. vm_compute.
    intros [H|[H|[H|[H|H]]]]; try discriminate H; exact H.
Defined.

(** * Attribute lookup in objects with an index table *)

Ltac object_heads Hh :=
  match type of Hh with
  | 11 <= ?h <= 18 =>
      let Hc := fresh "Hc" in
      assert (Hc : h = 11 \/ h = 12 \/ h = 13 \/ h = 14
                   \/ h = 15 \/ h = 16 \/ h = 17 \/ h = 18) by lia;
      repeat (destruct Hc as [Hc|Hc])
  end.

Lemma IsObject_indexed (s : Slice) :
  11 <= head s <= 18 -> IsObject s = true /\ IsArray s = false.
Proof.
  intros Hh. unfold IsObject, IsArray, IsType, Type_.
  object_heads Hh; rewrite Hc; split; reflexivity.
Qed.

(** [Get] on an object with one member. *)
Lemma Get_single (cfg : Settings) (s : Slice) (attribute : gostring)
  (w ieBase : Z) :
  11 <= head s <= 18 ->
  indexTable cfg s = Ok (w, 1, ieBase) ->
  Get cfg s attribute
  = (d <- findDataOffset cfg s (head s) ;;
     key <- from s d ;;
     eq <- singleKeyEquals cfg key attribute ;;
     if eq : bool then Next cfg key else Ok nilSlice).
Proof.
  intros Hh Ht.
  destruct (IsObject_indexed s Hh) as [Ho _].
  unfold Get. rewrite Ho. cbn [negb].
  unfold indexTable in Ht. unfold singleKeyEquals.
  unfold indexEntrySize, VELOCYPACK_ASSERT in *.
  object_heads Hh; rewrite Hc in *; calc in Ht; calc.
  all: destruct (assertionsChecked cfg); calc in Ht; calc.
  all: repeat step_in Ht.
  all: inversion Ht; subst; calc; reflexivity.
Qed.

(** [Get] on an object with no member or with several. *)
Lemma Get_search (cfg : Settings) (s : Slice) (attribute : gostring)
  (w n ieBase : Z) :
  11 <= head s <= 18 ->
  indexTable cfg s = Ok (w, n, ieBase) ->
  n <> 1 ->
  Get cfg s attribute
  = if (n >=? 4) && (head s <=? 14)
    then searchObjectKeyBinary cfg searchBudget s attribute ieBase n w
    else searchObjectKeyLinear cfg s attribute ieBase w n.
Proof.
  intros Hh Ht Hn.
  destruct (IsObject_indexed s Hh) as [Ho _].
  unfold Get. rewrite Ho. cbn [negb].
  unfold indexTable in Ht.
  unfold indexEntrySize, VELOCYPACK_ASSERT in *.
  unfold SortedSearchEntriesThreshold.
  object_heads Hh; rewrite Hc in *; calc in Ht; calc.
  all: destruct (assertionsChecked cfg); calc in Ht; calc.
  all: repeat step_in Ht.
  all: inversion Ht; subst; calc.
  all: replace (n =? 1) with false by (symmetry; apply Z.eqb_neq; exact Hn).
  all: destruct (n >=? 4); reflexivity.
Qed.

Lemma Length_indexTable (cfg : Settings) (s : Slice) (n : Z) :
  11 <= head s <= 18 ->
  Length cfg s = Ok n ->
  exists ieBase, indexTable cfg s = Ok (widthMap (head s), n, ieBase).
Proof.
  intros Hh HL.
  destruct (IsObject_indexed s Hh) as [Ho Ha].
  unfold Length in HL. rewrite Ho, Ha in HL. cbn [negb andb] in HL.
  unfold indexTable.
  unfold indexEntrySize, VELOCYPACK_ASSERT in *.
  object_heads Hh; rewrite Hc in *; calc in HL; calc.
  all: destruct (assertionsChecked cfg); calc in HL; calc.
  all: rewrite ?(Z.add_comm 1 1), ?(Z.add_comm 2 1), ?(Z.add_comm 4 1) in HL.
  all: repeat step_in HL.
  all: rewrite ?HL; calc; eexists; reflexivity.
Qed.

Lemma u64_add_l (a b : Z) : u64 (u64 a + b) = u64 (a + b).
Proof. unfold u64. apply Z.add_mod_idemp_l. lia. Qed.

Lemma table_offset (e n w i c : Z) :
  u64 (e - n * w + i * w - c) = u64 (u64 (e - n * w - c) + i * w).
Proof. rewrite u64_add_l. f_equal. lia. Qed.

Lemma table_offset_0 (e n w i : Z) :
  u64 (e - n * w + i * w - 0) = u64 (u64 (e - n * w) + i * w).
Proof. rewrite u64_add_l. f_equal. lia. Qed.

(** The key of a member, by index, is the key of its index-table entry. *)
Lemma KeyAt_entry (cfg : Settings) (s : Slice) (w n ieBase i : Z) :
  11 <= head s <= 18 ->
  indexTable cfg s = Ok (w, n, ieBase) ->
  n <> 1 -> 0 <= i < n ->
  KeyAt cfg s i false = entryKey s ieBase w i.
Proof.
  intros Hh Ht Hn Hi.
  destruct (IsObject_indexed s Hh) as [Ho Ha].
  unfold KeyAt, getNthKey, getNthOffset. rewrite Ho, Ha. cbn [negb orb].
  unfold IsObject, IsType in Ho. rewrite Ho.
  unfold indexTable in Ht. unfold entryKey.
  unfold indexEntrySize, VELOCYPACK_ASSERT in *.
  object_heads Hh; rewrite Hc in *; calc in Ht; calc.
  all: destruct (assertionsChecked cfg); calc in Ht; calc.
  all: repeat step_in Ht.
  all: inversion Ht; subst; calc; zbool; calc.
  all: rewrite ?table_offset_0, ?table_offset.
  all: repeat match goal with
              | |- context [bind (from ?a ?b) _] => destruct (from a b); calc
              | |- context [bind (readIntegerNonEmpty ?a ?b) _] =>
                  destruct (readIntegerNonEmpty a b); calc
              end; try reflexivity.
  all: match goal with |- context [from ?a ?b] => destruct (from a b) end;
    reflexivity.
Qed.

Lemma findDataOffset_values (cfg : Settings) (s : Slice) (h d : Z) :
  findDataOffset cfg s h = Ok d -> d = 2 \/ d = 3 \/ d = 5 \/ d = 9.
Proof.
  unfold findDataOffset, VELOCYPACK_ASSERT.
  destruct (assertionsChecked cfg); [destruct (h <=? 18)|]; cbn [bind];
    try discriminate.
  all: repeat match goal with
              | |- context [if ?c then _ else _] => destruct c
              | |- context [bind ?r _] => destruct r; cbn [bind]
              end;
    intros E; inversion E; lia.
Qed.

(** Takes the innermost pending call of the goal apart. *)
Ltac step_call :=
  match goal with
  | |- context [bind (from ?a ?b) _] =>
      let E := fresh "E" in destruct (from a b) eqn:E; calc
  | |- context [bind (readIntegerNonEmpty ?a ?b) _] =>
      let E := fresh "E" in destruct (readIntegerNonEmpty a b) eqn:E; calc
  | |- context [bind (findDataOffset ?c ?a ?b) _] =>
      let E := fresh "E" in destruct (findDataOffset c a b) eqn:E; calc
  | |- context [bind (ByteSize ?c ?a) _] =>
      let E := fresh "E" in destruct (ByteSize c a) eqn:E; calc
  end.

(** The only key of an object with one member lies where the data
    begins. *)
Lemma KeyAt_single (cfg : Settings) (s : Slice) (w ieBase : Z) (key : Slice) :
  11 <= head s <= 18 ->
  indexTable cfg s = Ok (w, 1, ieBase) ->
  KeyAt cfg s 0 false = Ok key ->
  (d <- findDataOffset cfg s (head s) ;; from s d) = Ok key.
Proof.
  intros Hh Ht.
  destruct (IsObject_indexed s Hh) as [Ho Ha].
  unfold KeyAt, getNthKey, getNthOffset.
  rewrite Ho, Ha. cbn [negb orb].
  unfold IsObject, IsType in Ho. rewrite Ho.
  unfold indexTable in Ht.
  unfold indexEntrySize, VELOCYPACK_ASSERT in *.
  object_heads Hh; rewrite Hc in *; calc in Ht; calc.
  all: destruct (assertionsChecked cfg); calc in Ht; calc.
  all: repeat step_in Ht.
  all: inversion Ht; subst; calc.
  all: repeat step_call; try discriminate.
  all: match goal with
       | Ed : findDataOffset _ _ _ = Ok ?d,
         Ek : from _ (u64 (?d + 0 * _)) = Ok _ |- _ =>
           pose proof (findDataOffset_values _ _ _ _ Ed) as Hd;
           cbn [Z.mul] in Ek; rewrite Z.add_0_r, (u64_small d) in Ek by lia
       end.
  all: congruence.
Qed.

(** * Members of a well-formed object *)

Lemma memberNames_nth (cfg : Settings) (s : Slice) (count : nat) :
  forall (index : Z) (names : list gostring),
    memberNames cfg s count index = Some names ->
    forall j : nat, (j < count)%nat ->
      exists name, memberName cfg s (index + Z.of_nat j) = Some name
                   /\ In name names.
Proof.
  induction count as [|count IH]; intros index names H j Hj; [lia|].
  cbn [memberNames] in H.
  destruct (memberName cfg s index) as [name|] eqn:En; try discriminate.
  destruct (memberNames cfg s count (index + 1)) as [rest|] eqn:Er;
    try discriminate.
  inversion H. subst names.
  destruct j as [|j].
  - exists name. rewrite Z.add_0_r. split; [exact En | left; reflexivity].
  - destruct (IH (index + 1) rest Er j ltac:(lia)) as [nm [Hnm Hin]].
    exists nm. split; [|right; exact Hin].
    replace (index + Z.of_nat (S j)) with (index + 1 + Z.of_nat j) by lia.
    exact Hnm.
Qed.

(** What a member with a name provides. *)
Lemma memberName_inv (cfg : Settings) (s : Slice) (i : Z) (name : gostring) :
  memberName cfg s i = Some name ->
  exists key value after,
    KeyAt cfg s i false = Ok key
    /\ Next cfg key = Ok value
    /\ Next cfg value = Ok after
    /\ keyName cfg key = Some name.
Proof.
  unfold memberName. intros H.
  destruct (KeyAt cfg s i false) as [key| | |] eqn:Ek; try discriminate.
  destruct (ValueAt cfg s i) as [value| | |] eqn:Ev; try discriminate.
  destruct (Next cfg value) as [after| | |] eqn:Ea; try discriminate.
  exists key, value, after. repeat split; try assumption.
  rewrite ValueAt_Next_KeyAt, Ek in Ev. exact Ev.
Qed.

Lemma objectNames_inv (cfg : Settings) (s : Slice) (names : list gostring) :
  objectNames cfg s = Some names ->
  IsObject s = true
  /\ exists n, Length cfg s = Ok n
               /\ memberNames cfg s (Z.to_nat n) 0 = Some names.
Proof.
  unfold objectNames. destruct (IsObject s); [|discriminate].
  destruct (Length cfg s) as [n| | |]; try discriminate.
  intros H. split; [reflexivity|]. exists n. split; [reflexivity | exact H].
Qed.

Lemma objectNames_member (cfg : Settings) (s : Slice)
  (names : list gostring) (n i : Z) :
  Length cfg s = Ok n ->
  memberNames cfg s (Z.to_nat n) 0 = Some names ->
  0 <= i < n ->
  exists name, memberName cfg s i = Some name /\ In name names.
Proof.
  intros HL Hm Hi.
  destruct (memberNames_nth cfg s _ 0 names Hm (Z.to_nat i) ltac:(lia))
    as [name H].
  exists name. rewrite Z.add_0_l, Z2Nat.id in H by lia. exact H.
Qed.

(** * Search for an attribute that no key has *)

Lemma singleKeyEquals_named (cfg : Settings) (key : Slice)
  (name attribute : gostring) :
  keyName cfg key = Some name ->
  singleKeyEquals cfg key attribute = Ok (stringEqual name attribute).
Proof.
  unfold keyName, singleKeyEquals, IsEqualString.
  destruct (IsString key).
  - destruct (GetString cfg key); try discriminate.
    intros E. inversion E. reflexivity.
  - destruct (IsSmallInt key || IsUInt key); [|discriminate].
    destruct (translatorIsNil cfg); [discriminate|].
    destruct (translateUnchecked cfg key) as [tr| | |]; try discriminate.
    cbn [bind]. destruct (GetString cfg tr); try discriminate.
    intros E. inversion E. reflexivity.
Qed.

Lemma stringEqual_false (a b : gostring) : a <> b -> stringEqual a b = false.
Proof.
  intros H. destruct (stringEqual a b) eqn:E; [|reflexivity].
  apply stringEqual_eq in E. contradiction.
Qed.

(** An index table all of whose entries have a key with a name other than
    the attribute. *)
Lemma tableKeys_build (cfg : Settings) (s : Slice) (attribute : gostring)
  (ieBase w : Z) (count : nat) :
  forall index : Z,
    (forall j : nat, (j < count)%nat ->
       exists key name,
         entryKey s ieBase w (index + Z.of_nat j) = Ok key
         /\ keyName cfg key = Some name /\ name <> attribute) ->
    exists keys,
      tableKeys cfg s ieBase w count index = Some keys
      /\ ~ In attribute (map snd keys).
Proof.
  induction count as [|count IH]; intros index H.
  - exists []. split; [reflexivity | intros []].
  - destruct (H 0%nat ltac:(lia)) as (key & name & Hk & Hn & Hne).
    rewrite Z.add_0_r in Hk.
    destruct (IH (index + 1)) as (rest & Hrest & Hout).
    { intros j Hj. destruct (H (S j) ltac:(lia)) as (k & nm & H1 & H2 & H3).
      exists k, nm. repeat split; try assumption.
      replace (index + 1 + Z.of_nat j) with (index + Z.of_nat (S j)) by lia.
      exact H1. }
    exists ((key, name) :: rest). split.
    + cbn [tableKeys]. rewrite Hk, Hn, Hrest. reflexivity.
    + simpl. intros [E|E]; [congruence | contradiction].
Qed.

Section BinarySearchAbsent.

Variable cfg : Settings.
Variable s : Slice.
Variable attribute : gostring.
Variables ieBase w n : Z.
Variable keys : list (Slice * gostring).

Hypothesis Hn : 1 <= n < 2 ^ 64.
Hypothesis Hkeys : tableKeys cfg s ieBase w (Z.to_nat n) 0 = Some keys.
Hypothesis Habsent : ~ In attribute (map snd keys).

(** Without the attribute among the names the binary search ends with the
    None-Slice, whatever the order of the keys. *)
Lemma binaryLoop_absent (budget : nat) :
  forall (l r : Z),
    0 <= l <= r -> r < n ->
    r - l + 1 < 2 ^ Z.of_nat budget ->
    binaryLoop cfg s attribute ieBase w budget l r (l + (r - l) / 2)
    = Ok nilSlice.
Proof.
  induction budget as [|budget IH]; intros l r Hlr Hr Hsize.
  - simpl in Hsize. lia.
  - rewrite Nat2Z.inj_succ, Z.pow_succ_r in Hsize by lia.
    set (index := l + (r - l) / 2).
    assert (Hindex : l <= index <= r).
    { unfold index. pose proof (Z.div_pos (r - l) 2 ltac:(lia) ltac:(lia)).
      assert ((r - l) / 2 <= r - l) by (apply Z.div_le_upper_bound; lia).
      lia. }
    destruct (table_entry cfg s ieBase w n keys Hn Hkeys index ltac:(lia))
      as (key & name & Hnth & Hent & Hname).
    assert (Hne : bytesCompare name attribute <> 0).
    { intros E. apply bytesCompare_eq in E. subst name.
      apply Habsent. apply in_map_iff. exists (key, attribute).
      split; [reflexivity|]. eapply nth_error_In. exact Hnth. }
    cbn [binaryLoop]. unfold readIntegerFixed.
    unfold entryKey, readIntegerNonEmpty in Hent.
    destruct (from s (u64 (ieBase + index * w))) as [so| | |];
      try discriminate; cbn [bind] in *.
    destruct (readIntegerLoop (Z.to_nat w) so 0 0) as [o| | |];
      try discriminate; cbn [bind] in *.
    rewrite Hent. cbn [bind].
    rewrite (keyCompare_named cfg attribute key name Hname). cbn [bind].
    destruct (Z.eqb_spec (bytesCompare name attribute) 0) as [E0|E0];
      [contradiction|].
    destruct (Z.gtb_spec (bytesCompare name attribute) 0) as [Hgt|Hle].
    + destruct (Z.eqb_spec index 0) as [Ei|Ei]; [reflexivity|].
      rewrite (u64_small (index - 1)) by lia.
      destruct (Z.ltb_spec (index - 1) l) as [Hrl|Hrl]; [reflexivity|].
      rewrite (u64_small (index - 1 - l)) by lia.
      assert (Hmid : 0 <= (index - 1 - l) / 2 <= index - 1 - l).
      { split; [apply Z.div_pos; lia|].
        apply Z.div_le_upper_bound; lia. }
      rewrite u64_small by lia.
      apply IH; try lia.
      unfold index in *.
      assert (2 * ((r - l) / 2) <= r - l) by (apply Z.mul_div_le; lia).
      lia.
    + rewrite (u64_small (index + 1)) by lia.
      destruct (Z.ltb_spec r (index + 1)) as [Hrl|Hrl]; [reflexivity|].
      rewrite (u64_small (r - (index + 1))) by lia.
      assert (Hmid : 0 <= (r - (index + 1)) / 2 <= r - (index + 1)).
      { split; [apply Z.div_pos; lia|].
        apply Z.div_le_upper_bound; lia. }
      rewrite u64_small by lia.
      apply IH; try lia.
      unfold index in *.
      pose proof (Z.div_mod (r - l) 2 ltac:(lia)).
      pose proof (Z.mod_pos_bound (r - l) 2 ltac:(lia)).
      lia.
Qed.

Lemma searchObjectKeyBinary_absent :
  searchObjectKeyBinary cfg searchBudget s attribute ieBase n w
  = Ok nilSlice.
Proof.
  unfold searchObjectKeyBinary.
  replace (n >? 0) with true by (symmetry; apply Z.gtb_lt; lia).
  rewrite VELOCYPACK_ASSERT_true. cbn [bind].
  rewrite (u64_small (n - 1)) by lia.
  replace ((n - 1) / 2) with (0 + (n - 1 - 0) / 2)
    by (rewrite Z.sub_0_r; reflexivity).
  apply binaryLoop_absent; try lia.
  unfold searchBudget. change (2 ^ Z.of_nat 64) with (2 ^ 64). lia.
Qed.

End BinarySearchAbsent.

Lemma readIntegerLoop_range (n : nat) :
  forall (s : list byte) (x v r : Z),
    0 <= v < 2 ^ 64 ->
    readIntegerLoop n s x v = Ok r -> 0 <= r < 2 ^ 64.
Proof.
  induction n as [|n IH]; intros s x v r Hv H; cbn [readIntegerLoop] in H.
  - inversion H. subst. exact Hv.
  - destruct s as [|b s]; [discriminate|].
    eapply IH; [|exact H]. apply u64_range.
Qed.

Lemma readIntegerNonEmpty_range (s : Slice) (w r : Z) :
  readIntegerNonEmpty s w = Ok r -> 0 <= r < 2 ^ 64.
Proof.
  unfold readIntegerNonEmpty. apply readIntegerLoop_range. lia.
Qed.

Lemma indexTable_count (cfg : Settings) (s : Slice) (w n ieBase : Z) :
  indexTable cfg s = Ok (w, n, ieBase) -> 0 <= n < 2 ^ 64.
Proof.
  unfold indexTable. intros H.
  repeat match type of H with
         | bind ?r _ = _ =>
             let E := fresh "E" in
             destruct r eqn:E; cbn [bind] in H; try discriminate H
         | (if ?c then _ else _) = _ => destruct c
         end.
  all: inversion H; subst; eapply readIntegerNonEmpty_range; eassumption.
Qed.

(** [Get] on a well-formed object with an index table, for an attribute
    that no key has. *)
Lemma Get_absent_indexed (cfg : Settings) (s : Slice)
  (names : list gostring) (attribute : gostring) :
  11 <= head s <= 18 ->
  objectNames cfg s = Some names ->
  ~ In attribute names ->
  Get cfg s attribute = Ok nilSlice.
Proof.
  intros Hh Hnames Hout.
  destruct (objectNames_inv cfg s names Hnames) as (Ho & n & HL & Hm).
  destruct (Length_indexTable cfg s n Hh HL) as [ieBase Ht].
  pose proof (indexTable_count cfg s _ _ _ Ht) as Hn.
  set (w := widthMap (head s)) in *.
  destruct (Z.eq_dec n 1) as [E1|E1].
  - subst n.
    destruct (objectNames_member cfg s names 1 0 HL Hm ltac:(lia))
      as (name & Hname & Hin).
    destruct (memberName_inv cfg s 0 name Hname)
      as (key & value & after & Hk & _ & _ & Hkn).
    pose proof (KeyAt_single cfg s w ieBase key Hh Ht Hk) as Hs.
    rewrite (Get_single cfg s attribute w ieBase Hh Ht).
    destruct (findDataOffset cfg s (head s)) as [d| | |];
      cbn [bind] in *; try discriminate.
    rewrite Hs. cbn [bind].
    rewrite (singleKeyEquals_named cfg key name attribute Hkn). cbn [bind].
    rewrite stringEqual_false; [reflexivity|].
    intros E. subst name. contradiction.
  - rewrite (Get_search cfg s attribute w n ieBase Hh Ht E1).
    destruct (tableKeys_build cfg s attribute ieBase w (Z.to_nat n) 0)
      as (keys & Hkeys & Habsent).
    { intros j Hj.
      destruct (objectNames_member cfg s names n (Z.of_nat j) HL Hm
                  ltac:(lia)) as (name & Hname & Hin).
      destruct (memberName_inv cfg s _ name Hname)
        as (key & value & after & Hk & _ & _ & Hkn).
      exists key, name.
      rewrite Z.add_0_l.
      rewrite <- (KeyAt_entry cfg s w n ieBase (Z.of_nat j) Hh Ht E1
                    ltac:(lia)).
      repeat split; try assumption.
      intros E. subst name. contradiction. }
    destruct ((n >=? 4) && (head s <=? 14)) eqn:Eb.
    + apply andb_true_iff in Eb. destruct Eb as [Eb _].
      rewrite Z.geb_leb in Eb. apply Z.leb_le in Eb.
      apply (searchObjectKeyBinary_absent cfg s attribute ieBase w n keys);
        [lia | exact Hkeys | exact Habsent].
    + unfold searchObjectKeyLinear.
      rewrite (linearLoop_lookup cfg s attribute ieBase w (Z.to_nat n) 0 keys)
        by (try exact Hkeys; lia).
      apply lookup_absent. exact Habsent.
Qed.

(** * Attribute lookup in compact objects *)

Lemma makeKey_named (cfg : Settings) (key : Slice) (name : gostring) :
  keyName cfg key = Some name ->
  exists k, makeKey cfg key = Ok k /\ GetString cfg k = Ok name.
Proof.
  unfold keyName, makeKey.
  destruct (IsString key).
  - destruct (GetString cfg key) as [nm| | |] eqn:E; try discriminate.
    intros H. inversion H. subst. exists key. split; [reflexivity | exact E].
  - destruct (IsSmallInt key || IsUInt key); [|discriminate].
    destruct (translatorIsNil cfg); [discriminate|].
    destruct (translateUnchecked cfg key) as [tr| | |]; try discriminate.
    destruct (GetString cfg tr) as [nm| | |] eqn:E; try discriminate.
    intros H. inversion H. subst. exists tr. split; [reflexivity | exact E].
Qed.

(** The walk over [a + b] members is the walk over [a] members followed by
    the walk over [b] members. *)
Lemma compactOffsetLoop_app (cfg : Settings) (s : Slice) (h : Z) (a b : nat) :
  forall offset : Z,
    compactOffsetLoop cfg s h (a + b) offset
    = (o <- compactOffsetLoop cfg s h a offset ;;
       compactOffsetLoop cfg s h b o).
Proof.
  induction a as [|a IH]; intros offset; [reflexivity|].
  cbn [Nat.add compactOffsetLoop].
  destruct (from s offset) as [k| | |]; cbn [bind]; try reflexivity.
  destruct (ByteSize cfg k) as [ks| | |]; cbn [bind]; try reflexivity.
  destruct (h =? 20).
  - destruct (from s (u64 (offset + ks))) as [v| | |]; cbn [bind];
      try reflexivity.
    destruct (ByteSize cfg v) as [vs| | |]; cbn [bind]; try reflexivity.
    apply IH.
  - apply IH.
Qed.

(** In a compact object the key of a member is found by the walk from the
    first member. *)
Lemma KeyAt_compact (cfg : Settings) (s : Slice) (n : Z) :
  head s = 0x14 ->
  Length cfg s = Ok n ->
  exists first,
    forall i, 0 <= i < n ->
      KeyAt cfg s i false
      = (o <- compactOffsetLoop cfg s 0x14 (Z.to_nat i) first ;;
         key <- from s o ;; Ok key).
Proof.
  intros Hh HL.
  assert (Ho : IsObject s = true).
  { unfold IsObject, IsType, Type_. rewrite Hh. reflexivity. }
  assert (Ha : IsArray s = false).
  { unfold IsArray, IsType, Type_. rewrite Hh. reflexivity. }
  unfold Length in HL. rewrite Ho, Ha, Hh in HL. calc in HL.
  repeat step_in HL.
  exists (u64 (1 + getVariableValueLength v0)).
  intros i Hi.
  unfold KeyAt, getNthKey, getNthOffset, getNthOffsetFromCompact.
  rewrite Ho, Ha. unfold IsObject, IsType in Ho. rewrite Ho.
  rewrite Hh, !VELOCYPACK_ASSERT_true. calc.
  rewrite E. calc. rewrite E0. calc. rewrite E1. calc. rewrite HL. calc.
  zbool. reflexivity.
Qed.

(** In a compact object the key of the next member follows the value of
    this one. *)
Lemma KeyAt_compact_next (cfg : Settings) (s : Slice) (n i : Z)
  (key value after : Slice) :
  head s = 0x14 ->
  len s < 2 ^ 64 ->
  Length cfg s = Ok n ->
  0 <= i -> i + 1 < n ->
  KeyAt cfg s i false = Ok key ->
  Next cfg key = Ok value ->
  Next cfg value = Ok after ->
  KeyAt cfg s (i + 1) false = Ok after.
Proof.
  intros Hh Hlen HL Hi Hi1 Hk Hv Ha.
  destruct (KeyAt_compact cfg s n Hh HL) as [first Hat].
  rewrite (Hat i) in Hk by lia.
  rewrite (Hat (i + 1)) by lia.
  replace (Z.to_nat (i + 1)) with (Z.to_nat i + 1)%nat by lia.
  rewrite compactOffsetLoop_app.
  destruct (compactOffsetLoop cfg s 20 (Z.to_nat i) first) as [o| | |];
    cbn [bind] in *; try discriminate.
  destruct (from s o) as [k| | |] eqn:Eo; cbn [bind] in Hk;
    try discriminate.
  inversion Hk. subst k.
  apply from_inv in Eo. destruct Eo as [Ho Ekey].
  unfold Next in Hv, Ha.
  destruct (ByteSize cfg key) as [ks| | |] eqn:Eks; cbn [bind] in Hv;
    try discriminate.
  apply from_inv in Hv. destruct Hv as [Hks Evalue].
  destruct (ByteSize cfg value) as [vs| | |] eqn:Evs; cbn [bind] in Ha;
    try discriminate.
  apply from_inv in Ha. destruct Ha as [Hvs Eafter].
  assert (Hlk : len key = len s - o) by (subst key; apply len_skipn; lia).
  assert (Evalue' : value = skipn (Z.to_nat (o + ks)) s).
  { subst value key. apply skipn_skipn_Z; lia. }
  assert (Hlv : len value = len s - (o + ks)).
  { rewrite Evalue'. apply len_skipn. lia. }
  cbn [compactOffsetLoop]. calc.
  rewrite (from_ok s o) by lia. calc. rewrite <- Ekey, Eks. calc.
  rewrite (u64_small (o + ks)) by lia.
  rewrite (from_ok s (o + ks)) by lia. calc. rewrite <- Evalue', Evs. calc.
  rewrite (u64_small (o + ks + vs)) by lia.
  rewrite (from_ok s (o + ks + vs)) by lia. calc.
  f_equal. rewrite Eafter, Evalue'. symmetry. apply skipn_skipn_Z; lia.
Qed.

Lemma Length_compact_range (cfg : Settings) (s : Slice) (n : Z) :
  head s = 0x14 -> Length cfg s = Ok n -> 0 <= n <= 127.
Proof.
  intros Hh HL.
  assert (Ho : IsObject s = true).
  { unfold IsObject, IsType, Type_. rewrite Hh. reflexivity. }
  assert (Ha : IsArray s = false).
  { unfold IsArray, IsType, Type_. rewrite Hh. reflexivity. }
  unfold Length in HL. rewrite Ho, Ha, Hh in HL. calc in HL.
  repeat step_in HL.
  unfold readVariableValueLength in HL.
  destruct v1 as [|b v1]; [discriminate|].
  destruct (Z.land (byteval b) 128 =? 0); [|discriminate].
  inversion HL. apply land_7f_range. pose proof (byteval_range b). lia.
Qed.

Section CompactSearch.

Variable cfg : Settings.
Variable s : Slice.
Variable attribute : gostring.
Variable names : list gostring.
Variable n : Z.

Hypothesis Hh : head s = 0x14.
Hypothesis Hlen : len s < 2 ^ 64.
Hypothesis HL : Length cfg s = Ok n.
Hypothesis Hm : memberNames cfg s (Z.to_nat n) 0 = Some names.
Hypothesis Hout : ~ In attribute names.

(** The iterator, standing on the key of member [i], walks over the
    remaining members without finding the attribute. *)
Lemma compactSearchLoop_absent (m : nat) :
  forall (i : Z) (cur : option Slice),
    0 <= i -> i + Z.of_nat m = n ->
    (i < n -> exists key, cur = Some key /\ KeyAt cfg s i false = Ok key) ->
    compactSearchLoop cfg attribute m
      {| it_s := s; position := i; size := n; current := cur |}
    = Ok nilSlice.
Proof.
  pose proof (Length_compact_range cfg s n Hh HL) as Hn.
  induction m as [|m IH]; intros i cur Hi Him Hcur.
  - cbn [compactSearchLoop]. unfold IsValid. cbn [position size].
    zbool. reflexivity.
  - destruct (Hcur ltac:(lia)) as (key & Ecur & Hk). subst cur.
    destruct (objectNames_member cfg s names n i HL Hm ltac:(lia))
      as (name & Hname & Hin).
    destruct (memberName_inv cfg s i name Hname)
      as (key' & value & after & Hk' & Hv & Ha & Hkn).
    rewrite Hk in Hk'. inversion Hk'. subst key'.
    destruct (makeKey_named cfg key name Hkn) as (k & Hmk & Hgs).
    cbn [compactSearchLoop]. unfold IsValid, Key. cbn [position size current].
    zbool. calc. rewrite Hmk. calc.
    unfold IsEqualString. rewrite Hgs. calc.
    rewrite stringEqual_false by (intros E; subst name; contradiction).
    unfold IteratorNext. cbn [position size current it_s].
    rewrite (u64_small (i + 1)) by lia.
    destruct (Z.ltb_spec (i + 1) n) as [Hlt|Hge].
    + rewrite Hv. calc. rewrite Ha. calc.
      apply IH; [lia | lia |].
      intros _. exists after. split; [reflexivity|].
      apply (KeyAt_compact_next cfg s n i key value after); try assumption.
    + calc. apply IH; [lia | lia |]. intros Hlt. lia.
Qed.

Lemma Get_absent_compact : Get cfg s attribute = Ok nilSlice.
Proof.
  pose proof (Length_compact_range cfg s n Hh HL) as Hn.
  assert (Ho : IsObject s = true).
  { unfold IsObject, IsType, Type_. rewrite Hh. reflexivity. }
  unfold Get, getFromCompactObject, NewObjectIterator.
  rewrite Ho, Hh, HL. calc.
  destruct (Z.gtb_spec n 0) as [Hpos|Hzero].
  - destruct (objectNames_member cfg s names n 0 HL Hm ltac:(lia))
      as (name & Hname & _).
    destruct (memberName_inv cfg s 0 name Hname)
      as (key & _ & _ & Hk & _).
    rewrite Hk. calc. cbn [size].
    apply compactSearchLoop_absent; [lia | lia |].
    intros _. exists key. split; [reflexivity | exact Hk].
  - calc. cbn [size].
    apply compactSearchLoop_absent; [lia | lia |]. intros Hlt. lia.
Qed.

End CompactSearch.

(** C3: on a well-formed object, of any object head (empty [0x0a], compact
    [0x14], sorted [0x0b..0x0e], unsorted [0x0f..0x12]), [Get] with an
    attribute name that the object does not bind returns the None-Slice
    and no error. *)
Theorem Get_missing_attribute (cfg : Settings) (s : Slice)
  (names : list gostring) (attribute : gostring) :
  len s < 2 ^ 63 ->
  objectNames cfg s = Some names ->
  ~ In attribute names ->
  Get cfg s attribute = Ok nilSlice
  /\ Type_ nilSlice = ValueType.None.
Proof.
  intros Hlen Hnames Hout. split; [|reflexivity].
  destruct (objectNames_inv cfg s names Hnames) as (Ho & n & HL & Hm).
  pose proof (IsObject_head s Ho) as Hh.
  destruct (Z.eq_dec (head s) 0x0a) as [E10|E10].
  - unfold Get. rewrite Ho, E10. reflexivity.
  - destruct (Z.eq_dec (head s) 0x14) as [E20|E20].
    + apply (Get_absent_compact cfg s attribute names n); try assumption.
      lia.
    + apply (Get_absent_indexed cfg s names attribute); try assumption.
      lia.
Qed.

Lemma Get_missing_attribute_witness :
  Get checked64 sortedObject [x7a] = Ok nilSlice
  /\ Get checked64 sortedObject4 [x7a] = Ok nilSlice
  /\ Get checked64 unsortedObject [x7a] = Ok nilSlice
  /\ Get checked64 singleObject [x7a] = Ok nilSlice
  /\ Get checked64 compactObject [x7a] = Ok nilSlice
  /\ Get checked64 [x0a] [x78] = Ok nilSlice.
Proof.
  assert (Hnot : forall (a : gostring) (l : list gostring),
             forallb (fun b => negb (stringEqual b a)) l = true ->
             ~ In a l).
  { intros a l. induction l as [|b l IH]; simpl; intros H; [intros []|].
    apply andb_true_iff in H. destruct H as [Hb Hl].
    intros [E|E]; [|exact (IH Hl E)].
    subst b.
    assert (Hs : stringEqual a a = true) by (apply stringEqual_eq; reflexivity).
    rewrite Hs in Hb. discriminate Hb. }
  split; [|split; [|split; [|split; [|split]]]].
  - apply (Get_missing_attribute checked64 sortedObject [[x61]; [x62]; [x63]]);
      [reflexivity | reflexivity | apply Hnot; reflexivity].
  - apply (Get_missing_attribute checked64 sortedObject4
             [[x61]; [x62]; [x63]; [x64]]);
      [reflexivity | reflexivity | apply Hnot; reflexivity].
  - apply (Get_missing_attribute checked64 unsortedObject [[x62]; [x61]]);
      [reflexivity | reflexivity | apply Hnot; reflexivity].
  - apply (Get_missing_attribute checked64 singleObject [[x61]]);
      [reflexivity | reflexivity | apply Hnot; reflexivity].
  - apply (Get_missing_attribute checked64 compactObject
             [[x61]; [x62]; [x63]; [x64]]);
      [reflexivity | reflexivity | apply Hnot; reflexivity].
  - apply (Get_missing_attribute checked64 [x0a] []);
      [reflexivity | reflexivity | apply Hnot; reflexivity].
Defined.

(** * No call exhausts its budget *)

(** The budgets of the loops and the depth of calls are devices of the
    embedding; the lemmas of this part show that [Timeout] is never the
    outcome of [Get] and of the calls it makes. *)

Create HintDb total discriminated.

Lemma from_total (s : Slice) (a : Z) : from s a <> Timeout.
Proof. unfold from. destruct ((0 <=? a) && (a <=? len s)); discriminate. Qed.

Lemma range_total (s : Slice) (a b : Z) : range s a b <> Timeout.
Proof.
  apply outcome_not_timeout. apply range_outcome.
Qed.

Lemma at_total (s : Slice) (i : Z) : at_ s i <> Timeout.
Proof. apply outcome_not_timeout. apply at_outcome. Qed.

Lemma readIntegerNonEmpty_total (s : Slice) (w : Z) :
  readIntegerNonEmpty s w <> Timeout.
Proof.
  apply outcome_not_timeout. apply readIntegerLoop_outcome.
Qed.

Lemma readIntegerFixed_total (s : Slice) (w : Z) :
  readIntegerFixed s w <> Timeout.
Proof.
  apply outcome_not_timeout. apply readIntegerLoop_outcome.
Qed.

Lemma readVariableForward_total (s : list byte) :
  forall p acc, readVariableForward s p acc <> Timeout.
Proof.
  induction s as [|b s IH]; intros p acc; cbn [readVariableForward];
    [discriminate|].
  destruct (Z.land (byteval b) 128 =? 0); [discriminate | apply IH].
Qed.

Lemma readVariableValueLength_total (s : Slice) (reverse : bool) :
  readVariableValueLength s reverse <> Timeout.
Proof.
  unfold readVariableValueLength. destruct reverse.
  - destruct s as [|b s]; [discriminate|].
    destruct (Z.land (byteval b) 128 =? 0); discriminate.
  - apply readVariableForward_total.
Qed.

Lemma VELOCYPACK_ASSERT_total (cfg : Settings) (c : bool) :
  VELOCYPACK_ASSERT cfg c <> Timeout.
Proof.
  unfold VELOCYPACK_ASSERT.
  destruct (assertionsChecked cfg), c; discriminate.
Qed.

Lemma checkOverflow_total (cfg : Settings) (l : Z) :
  checkOverflow cfg l <> Timeout.
Proof.
  unfold checkOverflow. destruct (l >? addressLimit cfg); discriminate.
Qed.

#[local] Hint Resolve from_total range_total at_total
  readIntegerNonEmpty_total readIntegerFixed_total
  readVariableValueLength_total VELOCYPACK_ASSERT_total checkOverflow_total
  : total.

(** Proves that a sequence of calls does not end in [Timeout] when none of
    the calls does. *)
Ltac total :=
  repeat first
    [ discriminate
    | solve [auto with total]
    | match goal with
      | |- bind ?r _ <> Timeout =>
          let E := fresh "E" in
          let Er := fresh "Er" in
          assert (E : r <> Timeout) by total;
          destruct r eqn:Er; cbn [bind]; try discriminate;
          try contradiction; clear E Er
      | |- (if ?c then _ else _) <> Timeout => destruct c
      | |- (match ?o with Some _ => _ | None => _ end) <> Timeout =>
          destruct o
      | |- (match ?l with [] => _ | _ :: _ => _ end) <> Timeout =>
          destruct l
      end ].

Lemma ByteSize_total (cfg : Settings) (s : Slice) : ByteSize cfg s <> Timeout.
Proof.
  unfold ByteSize.
  destruct (negb (fixedTypeLengths (charPtrLength cfg) (head s) =? 0));
    [discriminate|].
  destruct (Type_ s); total.
Qed.

#[local] Hint Resolve ByteSize_total : total.

Lemma Next_total (cfg : Settings) (s : Slice) : Next cfg s <> Timeout.
Proof. unfold Next. total. Qed.

Lemma GetString_total (cfg : Settings) (s : Slice) :
  GetString cfg s <> Timeout.
Proof. unfold GetString. total. Qed.

#[local] Hint Resolve Next_total GetString_total : total.

Lemma IsEqualString_total (cfg : Settings) (s : Slice) (v : gostring) :
  IsEqualString cfg s v <> Timeout.
Proof. unfold IsEqualString. total. Qed.

Lemma CompareString_total (cfg : Settings) (s : Slice) (v : gostring) :
  CompareString cfg s v <> Timeout.
Proof. unfold CompareString. total. Qed.

Lemma translateUnchecked_total (cfg : Settings) (s : Slice) :
  translateUnchecked cfg s <> Timeout.
Proof.
  assert (Hu : getUIntUnchecked s <> Timeout)
    by (unfold getUIntUnchecked; total).
  unfold translateUnchecked.
  destruct (getUIntUnchecked s); cbn [bind]; try discriminate;
    [total | contradiction].
Qed.

#[local] Hint Resolve IsEqualString_total CompareString_total
  translateUnchecked_total : total.

Lemma makeKey_total (cfg : Settings) (s : Slice) : makeKey cfg s <> Timeout.
Proof. unfold makeKey. total. Qed.

Lemma keyEquals_total (cfg : Settings) (s : Slice) (v : gostring) :
  keyEquals cfg s v <> Timeout.
Proof. unfold keyEquals. total. Qed.

Lemma keyCompare_total (cfg : Settings) (s : Slice) (v : gostring) :
  keyCompare cfg s v <> Timeout.
Proof. unfold keyCompare. total. Qed.

Lemma findDataOffset_total (cfg : Settings) (s : Slice) (h : Z) :
  findDataOffset cfg s h <> Timeout.
Proof. unfold findDataOffset. total. Qed.

Lemma indexEntrySize_total (cfg : Settings) (h : Z) :
  indexEntrySize cfg h <> Timeout.
Proof. unfold indexEntrySize. total. Qed.

#[local] Hint Resolve makeKey_total keyEquals_total keyCompare_total
  findDataOffset_total indexEntrySize_total : total.

Lemma linearLoop_total (cfg : Settings) (s : Slice) (attribute : gostring)
  (ieBase w : Z) (count : nat) :
  forall index, linearLoop cfg s attribute ieBase w count index <> Timeout.
Proof.
  induction count as [|count IH]; intros index; cbn [linearLoop];
    [discriminate|].
  total.
Qed.

(** The binary search ends within its budget when the range fits it. *)
Lemma binaryLoop_total (cfg : Settings) (s : Slice) (attribute : gostring)
  (ieBase w : Z) (budget : nat) :
  forall l r,
    0 <= l <= r -> r < 2 ^ 64 - 1 ->
    r - l + 1 < 2 ^ Z.of_nat budget ->
    binaryLoop cfg s attribute ieBase w budget l r (l + (r - l) / 2)
    <> Timeout.
Proof.
  induction budget as [|budget IH]; intros l r Hlr Hr Hsize.
  - simpl in Hsize. lia.
  - rewrite Nat2Z.inj_succ, Z.pow_succ_r in Hsize by lia.
    set (index := l + (r - l) / 2).
    assert (Hindex : l <= index <= r).
    { unfold index. pose proof (Z.div_pos (r - l) 2 ltac:(lia) ltac:(lia)).
      assert ((r - l) / 2 <= r - l) by (apply Z.div_le_upper_bound; lia).
      lia. }
    cbn [binaryLoop].
    do 4 (match goal with
          | |- bind ?r _ <> Timeout =>
              let E := fresh "E" in
              assert (E : r <> Timeout) by (auto with total);
              destruct r; cbn [bind]; try discriminate; try contradiction;
              clear E
          end).
    match goal with
    | |- match ?c with Some _ => _ | None => _ end <> _ =>
        destruct c as [res|]; [|discriminate]
    end.
    destruct (res =? 0); [total|].
    destruct (res >? 0).
    + destruct (Z.eqb_spec index 0); [discriminate|].
      rewrite (u64_small (index - 1)) by lia.
      destruct (Z.ltb_spec (index - 1) l); [discriminate|].
      rewrite (u64_small (index - 1 - l)) by lia.
      assert (Hmid : 0 <= (index - 1 - l) / 2 <= index - 1 - l).
      { split; [apply Z.div_pos; lia|].
        apply Z.div_le_upper_bound; lia. }
      rewrite u64_small by lia.
      apply IH; try lia.
      unfold index in *.
      assert (2 * ((r - l) / 2) <= r - l) by (apply Z.mul_div_le; lia).
      lia.
    + rewrite (u64_small (index + 1)) by lia.
      destruct (Z.ltb_spec r (index + 1)); [discriminate|].
      rewrite (u64_small (r - (index + 1))) by lia.
      assert (Hmid : 0 <= (r - (index + 1)) / 2 <= r - (index + 1)).
      { split; [apply Z.div_pos; lia|].
        apply Z.div_le_upper_bound; lia. }
      rewrite u64_small by lia.
      apply IH; try lia.
      unfold index in *.
      pose proof (Z.div_mod (r - l) 2 ltac:(lia)).
      pose proof (Z.mod_pos_bound (r - l) 2 ltac:(lia)).
      lia.
Qed.

Lemma searchObjectKeyBinary_total (cfg : Settings) (s : Slice)
  (attribute : gostring) (ieBase n w : Z) :
  1 <= n < 2 ^ 64 ->
  searchObjectKeyBinary cfg searchBudget s attribute ieBase n w <> Timeout.
Proof.
  intros Hn. unfold searchObjectKeyBinary.
  replace (n >? 0) with true by (symmetry; apply Z.gtb_lt; lia).
  rewrite VELOCYPACK_ASSERT_true. cbn [bind].
  rewrite (u64_small (n - 1)) by lia.
  replace ((n - 1) / 2) with (0 + (n - 1 - 0) / 2)
    by (rewrite Z.sub_0_r; reflexivity).
  apply binaryLoop_total; try lia.
  unfold searchBudget. change (2 ^ Z.of_nat 64) with (2 ^ 64). lia.
Qed.

Lemma compactOffsetLoop_total (cfg : Settings) (s : Slice) (h : Z)
  (count : nat) :
  forall offset, compactOffsetLoop cfg s h count offset <> Timeout.
Proof.
  induction count as [|count IH]; intros offset; cbn [compactOffsetLoop];
    [discriminate|].
  total.
Qed.

#[local] Hint Resolve linearLoop_total compactOffsetLoop_total : total.

Lemma Length_total (cfg : Settings) (s : Slice) : Length cfg s <> Timeout.
Proof. unfold Length. total. Qed.

Lemma getNthOffset_total (cfg : Settings) (s : Slice) (index : Z) :
  getNthOffset cfg s index <> Timeout.
Proof.
  unfold getNthOffset, getNthOffsetFromCompact.
  destruct (VELOCYPACK_ASSERT cfg (IsArray s || IsObject s)) eqn:Ea;
    cbn [bind]; try discriminate;
    [|exfalso; exact (VELOCYPACK_ASSERT_total _ _ Ea)].
  destruct ((head s =? 19) || (head s =? 20)); [total|].
  destruct ((head s =? 1) || (head s =? 10)); [discriminate|].
  destruct (indexEntrySize cfg (head s)) as [w| | |] eqn:Ew; cbn [bind];
    try discriminate; [|exfalso; exact (indexEntrySize_total _ _ Ew)].
  destruct (from s 1) as [s1| | |] eqn:E1; cbn [bind]; try discriminate;
    [|exfalso; exact (from_total _ _ E1)].
  destruct (readIntegerNonEmpty s1 w) as [e| | |] eqn:Ee; cbn [bind];
    try discriminate; [|exfalso; exact (readIntegerNonEmpty_total _ _ Ee)].
  match goal with
  | |- bind ?r _ <> Timeout =>
      assert (Hr : r <> Timeout) by total;
      destruct r as [[d n]| | |]; cbn [bind fst snd]; try discriminate;
      [|contradiction]
  end.
  total.
Qed.

#[local] Hint Resolve Length_total getNthOffset_total : total.

Lemma getNthKey_total (cfg : Settings) (s : Slice) (i : Z) (tr : bool) :
  getNthKey cfg s i tr <> Timeout.
Proof. unfold getNthKey. total. Qed.

#[local] Hint Resolve getNthKey_total : total.

Lemma KeyAt_total (cfg : Settings) (s : Slice) (i : Z) (tr : bool) :
  KeyAt cfg s i tr <> Timeout.
Proof. unfold KeyAt. total. Qed.

Lemma NewObjectIterator_total (cfg : Settings) (s : Slice) :
  NewObjectIterator cfg s <> Timeout.
Proof.
  unfold NewObjectIterator.
  destruct (negb (IsObject s)); [discriminate|].
  destruct (Length cfg s) as [n| | |] eqn:E; cbn [bind]; try discriminate;
    [|exfalso; exact (Length_total _ _ E)].
  destruct (n >? 0); [|discriminate].
  destruct (head s =? 20); [|discriminate].
  pose proof (KeyAt_total cfg s 0 false) as Hk.
  destruct (KeyAt cfg s 0 false); try discriminate. contradiction.
Qed.

Lemma IteratorNext_total (cfg : Settings) (i : ObjectIterator) :
  IteratorNext cfg i <> Timeout.
Proof. unfold IteratorNext. total. Qed.

Lemma Key_total (cfg : Settings) (i : ObjectIterator) (tr : bool) :
  Key cfg i tr <> Timeout.
Proof. unfold Key. total. Qed.

#[local] Hint Resolve IteratorNext_total Key_total NewObjectIterator_total
  : total.

Lemma IteratorNext_position (cfg : Settings) (i i' : ObjectIterator) :
  IteratorNext cfg i = Ok i' ->
  position i' = u64 (position i + 1) /\ size i' = size i.
Proof.
  unfold IteratorNext. intros H.
  destruct (current i) as [c|].
  - destruct (u64 (position i + 1) <? size i).
    + destruct (Next cfg c) as [c1| | |]; cbn [bind] in H; try discriminate.
      destruct (Next cfg c1) as [c2| | |]; cbn [bind] in H; try discriminate.
      inversion H. split; reflexivity.
    + inversion H. split; reflexivity.
  - inversion H. split; reflexivity.
Qed.

(** The walk of the iterator ends within a budget of the number of members
    still ahead. *)
Lemma compactSearchLoop_total (cfg : Settings) (attribute : gostring)
  (budget : nat) :
  forall it,
    0 <= position it -> size it < 2 ^ 64 ->
    size it <= position it + Z.of_nat budget ->
    compactSearchLoop cfg attribute budget it <> Timeout.
Proof.
  induction budget as [|budget IH]; intros it Hp Hs Hb;
    cbn [compactSearchLoop]; unfold IsValid.
  - destruct (Z.ltb_spec (position it) (size it)); [lia | discriminate].
  - destruct (Z.ltb_spec (position it) (size it)) as [Hlt|Hge];
      [|discriminate].
    do 3 (match goal with
          | |- bind ?r _ <> Timeout =>
              let E := fresh "E" in
              assert (E : r <> Timeout) by (auto with total);
              destruct r; cbn [bind]; try discriminate; try contradiction;
              clear E
          end).
    match goal with |- (if ?b then _ else _) <> _ => destruct b end;
      [auto with total|].
    destruct (IteratorNext cfg it) as [it'| | |] eqn:En; cbn [bind];
      try discriminate; [|exfalso; exact (IteratorNext_total _ _ En)].
    destruct (IteratorNext_position cfg it it' En) as [Hp' Hs'].
    rewrite u64_small in Hp' by lia.
    apply IH; lia.
Qed.

Lemma NewObjectIterator_inv (cfg : Settings) (s : Slice)
  (it : ObjectIterator) :
  NewObjectIterator cfg s = Ok it -> position it = 0 /\ size it <= 127.
Proof.
  unfold NewObjectIterator.
  destruct (negb (IsObject s)); [discriminate|].
  destruct (Length cfg s) as [n| | |] eqn:EL; cbn [bind]; try discriminate.
  destruct (Z.gtb_spec n 0) as [Hpos|Hle].
  - destruct (Z.eqb_spec (head s) 20) as [Eh|Eh]; [|discriminate].
    pose proof (Length_compact_range cfg s n Eh EL) as Hn.
    destruct (KeyAt cfg s 0 false); intros H; inversion H; cbn; lia.
  - intros H. inversion H. cbn. lia.
Qed.

Lemma getFromCompactObject_total (cfg : Settings) (s : Slice)
  (attribute : gostring) :
  getFromCompactObject cfg s attribute <> Timeout.
Proof.
  unfold getFromCompactObject.
  destruct (NewObjectIterator cfg s) as [it| | |] eqn:E; cbn [bind];
    try discriminate; [|exfalso; exact (NewObjectIterator_total _ _ E)].
  destruct (NewObjectIterator_inv cfg s it E) as [Hp Hs].
  apply compactSearchLoop_total; lia.
Qed.

(** [Get] returns, fails or panics: the budgets it gives to its loops are
    never exhausted. *)
Lemma Get_total (cfg : Settings) (s : Slice) (attribute : gostring) :
  Get cfg s attribute <> Timeout.
Proof.
  unfold Get.
  destruct (negb (IsObject s)); [discriminate|].
  destruct (head s =? 10); [discriminate|].
  destruct (head s =? 20); [apply getFromCompactObject_total|].
  do 4 (match goal with
        | |- bind ?r _ <> Timeout =>
            let E := fresh "E" in
            let Er := fresh "Er" in
            assert (E : r <> Timeout) by total;
            destruct r eqn:Er; cbn [bind]; try discriminate;
            try contradiction; clear E
        end).
  match goal with
  | |- bind ?r _ <> Timeout =>
      assert (Hr : forall n b, r = Ok (n, b) -> 0 <= n < 2 ^ 64)
  end.
  { intros n b H.
    destruct (v <? 8);
      repeat match type of H with
             | bind ?r _ = _ =>
                 let E := fresh "E" in
                 destruct r eqn:E; cbn [bind] in H; try discriminate H
             end;
      inversion H; subst; eapply readIntegerNonEmpty_range; eassumption. }
  match goal with
  | |- bind ?r _ <> Timeout =>
      assert (Hn : r <> Timeout) by total;
      destruct r as [[n b]| | |]; cbn [bind fst snd]; try discriminate;
      [|contradiction]
  end.
  specialize (Hr n b eq_refl).
  destruct (n =? 1); [total|].
  unfold SortedSearchEntriesThreshold.
  destruct (Z.geb_spec n 4) as [H4|H4]; cbn [andb];
    [|apply linearLoop_total].
  match goal with |- (if ?c then _ else _) <> _ => destruct c end;
    [|apply linearLoop_total].
  apply searchObjectKeyBinary_total. lia.
Qed.

(** * Strings and binaries: lengths *)

Lemma range_inv (s r : Slice) (a b : Z) :
  range s a b = Ok r ->
  0 <= a <= b /\ b <= len s
  /\ r = firstn (Z.to_nat (b - a)) (skipn (Z.to_nat a) s)
  /\ len r = b - a.
Proof.
  unfold range.
  destruct (Z.leb_spec 0 a); cbn [andb]; [|discriminate].
  destruct (Z.leb_spec a b); cbn [andb]; [|discriminate].
  destruct (Z.leb_spec b (len s)); [|discriminate].
  intros E. inversion E. repeat split; try lia.
  unfold len in *. rewrite length_firstn, length_skipn. lia.
Qed.

Lemma readIntegerFixed_range (s : Slice) (w r : Z) :
  readIntegerFixed s w = Ok r -> 0 <= r < 2 ^ 64.
Proof.
  unfold readIntegerFixed. apply readIntegerLoop_range. lia.
Qed.

(** A sum that wraps around lies below its first summand. *)
Lemma u64_add_no_wrap (a v : Z) :
  0 <= a < 2 ^ 64 -> 0 <= v < 2 ^ 64 ->
  a <= u64 (a + v) -> u64 (a + v) = a + v.
Proof.
  intros Ha Hv H. unfold u64 in *.
  destruct (Z.lt_ge_cases (a + v) (2 ^ 64)) as [Hlt|Hge].
  - apply Z.mod_small. lia.
  - replace (a + v) with (a + v - 2 ^ 64 + 1 * 2 ^ 64) in H by lia.
    rewrite Z.mod_add in H by lia.
    rewrite Z.mod_small in H by lia. lia.
Qed.

(** X1 (GetString, GetStringLength): whenever [GetString] returns a
    string, [GetStringLength] returns the number of its bytes; and the two
    fail with the same errors (invalid type on a head that is not a String
    head, overflow on a long String longer than the platform can
    address). *)
Theorem GetStringLength_agrees (cfg : Settings) (s : Slice) :
  (forall k, GetString cfg s = Ok k -> GetStringLength cfg s = Ok (len k))
  /\ (forall e, GetString cfg s = Err e <-> GetStringLength cfg s = Err e).
Proof.
  pose proof (head_range s) as Hh.
  unfold GetString, GetStringLength.
  destruct ((head s >=? 64) && (head s <=? 190)) eqn:Eshort.
  - apply andb_true_iff in Eshort. destruct Eshort as [E1 E2].
    rewrite Z.geb_leb in E1. apply Z.leb_le in E1. apply Z.leb_le in E2.
    rewrite (u8_small (head s - 64)) by lia.
    rewrite (u8_small (1 + (head s - 64))) by lia.
    split.
    + intros k Hk. apply range_inv in Hk.
      destruct Hk as (_ & _ & _ & Hl). rewrite Hl. f_equal. lia.
    + intros e. split; intros H; [|discriminate].
      destruct (range_outcome s 1 (1 + (head s - 64))) as [E|[r E]];
        rewrite E in H; discriminate.
  - destruct (head s =? 191).
    + destruct (from s 1) as [s1| | |]; cbn [bind];
        [|split; [discriminate | intros ?; split; intros H; inversion H; reflexivity]..].
      destruct (readIntegerFixed s1 8) as [length| | |] eqn:El; cbn [bind];
        [|split; [discriminate | intros ?; split; intros H; inversion H; reflexivity]..].
      apply readIntegerFixed_range in El.
      unfold checkOverflow. destruct (length >? addressLimit cfg); cbn [bind].
      * split; [discriminate | intros ?; split; intros H; inversion H; reflexivity].
      * split.
        -- intros k Hk. apply range_inv in Hk.
           destruct Hk as (Hb & _ & _ & Hl).
           replace (1 + 8 + length) with (9 + length) in * by lia.
           rewrite (u64_add_no_wrap 9 length) in Hl by lia.
           rewrite Hl. f_equal. lia.
        -- intros e. split; intros H; [|discriminate].
           destruct (range_outcome s (1 + 8) (u64 (1 + 8 + length)))
             as [E|[r E]]; rewrite E in H; discriminate.
    + split; [discriminate | intros ?; split; intros H; inversion H; reflexivity].
Qed.

Lemma GetStringLength_agrees_witness :
  GetStringLength checked64 longString = Ok 3
  /\ GetStringLength checked64 hugeString = Err OverflowError.
Proof.
  destruct (GetStringLength_agrees checked64 longString) as [Hok _].
  destruct (GetStringLength_agrees checked64 hugeString) as [_ Herr].
  split.
  - apply (Hok [x61; x62; x63]). reflexivity.
  - apply (Herr OverflowError). reflexivity.
Defined.







(** X4 (IsEqualString, CompareString): [IsEqualString] returns true exactly
    when [CompareString] returns 0, and both fail as [GetString] fails;
    [IsEqualString] is true only for the string that [GetString]
    returns. *)
Theorem IsEqualString_CompareString (cfg : Settings) (s : Slice)
  (value : gostring) :
  IsEqualString cfg s value
  = (c <- CompareString cfg s value ;; Ok (c =? 0))
  /\ (IsEqualString cfg s value = Ok true <-> GetString cfg s = Ok value).
Proof.
  unfold IsEqualString, CompareString.
  destruct (GetString cfg s) as [k| | |]; cbn [bind].
  - split.
    + rewrite stringEqual_compare. reflexivity.
    + split; intros H.
      * inversion H as [E]. apply stringEqual_eq in E. subst. reflexivity.
      * inversion H. subst. f_equal. apply stringEqual_eq. reflexivity.
  - split; [reflexivity | split; discriminate].
  - split; [reflexivity | split; discriminate].
  - split; [reflexivity | split; discriminate].
Qed.

Lemma IsEqualString_CompareString_witness :
  IsEqualString checked64 longString [x61; x62; x63] = Ok true
  /\ IsEqualString checked64 longString [x61; x62]
     = (c <- CompareString checked64 longString [x61; x62] ;; Ok (c =? 0)).
Proof.
  destruct (IsEqualString_CompareString checked64 longString
              [x61; x62; x63]) as [_ H1].
  destruct (IsEqualString_CompareString checked64 longString [x61; x62])
    as [H2 _].
  split; [apply H1; reflexivity | exact H2].
Defined.

(** * Integers: how the getters agree *)

Lemma i64_range (x : Z) : - 2 ^ 63 <= i64 x < 2 ^ 63.
Proof.
  unfold i64. pose proof (Z.mod_pos_bound (x + 2 ^ 63) (2 ^ 64) ltac:(lia)).
  lia.
Qed.

Lemma toInt64_range (v : Z) :
  0 <= v < 2 ^ 64 -> - 2 ^ 63 <= toInt64 v < 2 ^ 63.
Proof.
  intros H. unfold toInt64. destruct (Z.ltb_spec v (2 ^ 63)); lia.
Qed.

Lemma at_range (s : Slice) (i v : Z) : at_ s i = Ok v -> 0 <= v < 256.
Proof.
  unfold at_. destruct ((0 <=? i) && (i <? len s)); [|discriminate].
  destruct (nth_error s (Z.to_nat i)) as [b|]; [|discriminate].
  intros E. inversion E. apply byteval_range.
Qed.

Lemma getInt_Int_range (d : nat) (s : Slice) (v : Z) :
  0x20 <= head s <= 0x27 ->
  getNumber (S d) getInt s = Ok v -> - 2 ^ 63 <= v < 2 ^ 63.
Proof.
  intros H.
  change (getNumber (S d)) with (getNumberBody (getNumber d)).
  unfold getNumberBody. zbool.
  destruct (from s 1) as [s1| | |]; cbn [bind]; try discriminate.
  destruct (readIntegerNonEmpty s1 (u64 (head s - 31))) as [r| | |] eqn:Er;
    cbn [bind]; try discriminate.
  apply readIntegerNonEmpty_range in Er.
  repeat match goal with |- context [if ?c then _ else _] => destruct c end;
    intros E; inversion E;
    first [apply toInt64_range; exact Er | apply i64_range].
Qed.

Lemma getUInt_UInt_range (d : nat) (s : Slice) (v : Z) :
  0x28 <= head s <= 0x2f ->
  getNumber (S d) getUInt s = Ok v -> 0 <= v < 2 ^ 64.
Proof.
  intros H.
  change (getNumber (S d)) with (getNumberBody (getNumber d)).
  unfold getNumberBody.
  destruct (Z.eqb_spec (head s) 40) as [E|E].
  - intros Ha. apply at_range in Ha. lia.
  - zbool.
    destruct (from s 1) as [s1| | |]; cbn [bind]; try discriminate.
    apply readIntegerNonEmpty_range.
Qed.

(** [GetUInt] on an Int head is [GetInt] followed by the test of the
    sign. *)
Lemma GetUInt_calls_GetInt (s : Slice) :
  0x20 <= head s <= 0x27 ->
  GetUInt s
  = (v <- GetInt s ;;
     if v <? 0 then Err NumberOutOfRangeError else Ok (u64 v)).
Proof.
  intros H. unfold GetUInt, GetInt, callDepth.
  change (getNumber 3 getUInt s)
    with (getNumberBody (getNumber 2) getUInt s).
  unfold getNumberBody at 1. zbool.
  rewrite (getNumber_mono 2 getInt s); [reflexivity|].
  destruct (getInt_Int_outcome 1 s H) as [E|[r E]]; rewrite E; discriminate.
Qed.

(** [GetInt] on a UInt head is [GetUInt] followed by the test against
    [MaxInt64]. *)
Lemma GetInt_calls_GetUInt (s : Slice) :
  0x28 <= head s <= 0x2f ->
  GetInt s
  = (v <- GetUInt s ;;
     if v >? MaxInt64 then Err NumberOutOfRangeError else Ok (i64 v)).
Proof.
  intros H. unfold GetUInt, GetInt, callDepth.
  change (getNumber 3 getInt s)
    with (getNumberBody (getNumber 2) getInt s).
  unfold getNumberBody at 1. zbool.
  rewrite (getNumber_mono 2 getUInt s); [reflexivity|].
  destruct (getUInt_UInt_outcome 1 s H) as [E|[r E]]; rewrite E; discriminate.
Qed.

(** The three getters on a SmallInt head. *)
Lemma getNumber_SmallInt (s : Slice) :
  (0x30 <= head s <= 0x39 ->
   GetSmallInt s = Ok (head s - 0x30)
   /\ GetInt s = Ok (head s - 0x30)
   /\ GetUInt s = Ok (head s - 0x30))
  /\ (0x3a <= head s <= 0x3f ->
      GetSmallInt s = Ok (head s - 0x40)
      /\ GetInt s = Ok (head s - 0x40)
      /\ GetUInt s = Err NumberOutOfRangeError).
Proof.
  unfold GetSmallInt, GetInt, GetUInt, callDepth.
  change (getNumber 3) with (getNumberBody (getNumber 2)).
  change (getNumber 2) with (getNumberBody (getNumber 1)).
  unfold getNumberBody.
  split; intros H; zbool.
  - rewrite u8_small by lia. repeat split.
  - rewrite u8_small by lia. rewrite i64_small by lia.
    replace (head s - 58 - 6) with (head s - 64) by lia. repeat split.
Qed.

(** X5 (GetInt, GetUInt): on every Slice the two getters agree.  A value
    that [GetInt] returns lies in the range of [int64], and [GetUInt]
    returns the same value when it is not negative and fails with
    number-out-of-range when it is; a value that [GetUInt] returns lies in
    the range of [uint64], and [GetInt] returns the same value when it is
    at most [2^63-1] and fails with number-out-of-range when it is
    larger. *)
Theorem GetInt_GetUInt_agree (s : Slice) :
  (forall v, GetInt s = Ok v ->
     - 2 ^ 63 <= v < 2 ^ 63
     /\ GetUInt s = if v <? 0 then Err NumberOutOfRangeError else Ok v)
  /\ (forall v, GetUInt s = Ok v ->
        0 <= v < 2 ^ 64
        /\ GetInt s = if v >? 2 ^ 63 - 1 then Err NumberOutOfRangeError
                      else Ok v).
Proof.
  pose proof (getNumber_SmallInt s) as [Hpos Hneg].
  head_classes s.
  - (* below the number heads *)
    unfold GetInt, GetUInt, callDepth.
    change (getNumber 3) with (getNumberBody (getNumber 2)).
    unfold getNumberBody. zbool. split; discriminate.
  - (* Int *)
    rewrite (GetUInt_calls_GetInt s Hclass).
    split; intros v Hv.
    + pose proof (getInt_Int_range 2 s v Hclass Hv) as Hr.
      split; [exact Hr|]. rewrite Hv. cbn [bind].
      destruct (Z.ltb_spec v 0); [reflexivity|].
      rewrite u64_small by lia. reflexivity.
    + destruct (GetInt s) as [x| | |] eqn:Ex; cbn [bind] in Hv;
        try discriminate.
      pose proof (getInt_Int_range 2 s x Hclass Ex) as Hr.
      destruct (Z.ltb_spec x 0); [discriminate|].
      rewrite u64_small in Hv by lia. inversion Hv. subst x.
      split; [lia|].
      rewrite Z.gtb_ltb. destruct (Z.ltb_spec (2 ^ 63 - 1) v); [lia|].
      reflexivity.
  - (* UInt *)
    rewrite (GetInt_calls_GetUInt s Hclass). unfold MaxInt64.
    split; intros v Hv.
    + destruct (GetUInt s) as [x| | |] eqn:Ex; cbn [bind] in Hv;
        try discriminate.
      pose proof (getUInt_UInt_range 2 s x Hclass Ex) as Hr.
      rewrite Z.gtb_ltb in Hv.
      destruct (Z.ltb_spec (2 ^ 63 - 1) x); [discriminate|].
      rewrite i64_small in Hv by lia. inversion Hv. subst x.
      split; [lia|].
      destruct (Z.ltb_spec v 0); [lia | reflexivity].
    + pose proof (getUInt_UInt_range 2 s v Hclass Hv) as Hr.
      split; [exact Hr|]. rewrite Hv. cbn [bind].
      rewrite Z.gtb_ltb. destruct (Z.ltb_spec (2 ^ 63 - 1) v); [reflexivity|].
      rewrite i64_small by lia. reflexivity.
  - (* SmallInt, not negative *)
    destruct (Hpos Hclass) as (_ & Hi & Hu). rewrite Hi, Hu.
    split; intros v Hv; inversion Hv; subst v.
    + split; [lia|]. destruct (Z.ltb_spec (head s - 48) 0); [lia|reflexivity].
    + split; [lia|]. rewrite Z.gtb_ltb.
      destruct (Z.ltb_spec (2 ^ 63 - 1) (head s - 48)); [lia|reflexivity].
  - (* SmallInt, negative *)
    destruct (Hneg Hclass) as (_ & Hi & Hu). rewrite Hi, Hu.
    split; intros v Hv; inversion Hv; subst v.
    split; [lia|]. destruct (Z.ltb_spec (head s - 64) 0); [reflexivity|lia].
  - (* above the number heads *)
    unfold GetInt, GetUInt, callDepth.
    change (getNumber 3) with (getNumberBody (getNumber 2)).
    unfold getNumberBody. zbool. split; discriminate.
Qed.

Lemma GetInt_GetUInt_agree_witness :
  GetUInt [x21; x34; x12] = Ok 0x1234
  /\ GetUInt [x3a] = Err NumberOutOfRangeError
  /\ GetInt [x28; xff] = Ok 255.
Proof.
  destruct (GetInt_GetUInt_agree [x21; x34; x12]) as [H1 _].
  destruct (GetInt_GetUInt_agree [x3a]) as [H2 _].
  destruct (GetInt_GetUInt_agree [x28; xff]) as [_ H3].
  split; [|split].
  - apply (H1 0x1234). reflexivity.
  - apply (H2 (-6)). reflexivity.
  - apply (H3 255). reflexivity.
Defined.

(** X6 (GetSmallInt, GetInt, GetUInt): the value of a SmallInt is read off
    its head.  On the heads [0x30..0x39] the three getters return
    [head - 0x30], the values 0 to 9; on the heads [0x3a..0x3f]
    [GetSmallInt] and [GetInt] return [head - 0x40], the values -6 to -1,
    and [GetUInt] fails with number-out-of-range.  The payload bytes are
    not looked at. *)
Theorem SmallInt_values (s : Slice) :
  (0x30 <= head s <= 0x39 ->
   GetSmallInt s = Ok (head s - 0x30)
   /\ GetInt s = Ok (head s - 0x30)
   /\ GetUInt s = Ok (head s - 0x30))
  /\ (0x3a <= head s <= 0x3f ->
      GetSmallInt s = Ok (head s - 0x40)
      /\ GetInt s = Ok (head s - 0x40)
      /\ GetUInt s = Err NumberOutOfRangeError).
Proof. exact (getNumber_SmallInt s). Qed.

Lemma SmallInt_values_witness :
  GetSmallInt [x39] = Ok 9
  /\ GetInt [x3a; xff] = Ok (-6)
  /\ GetUInt [x3f] = Err NumberOutOfRangeError.
Proof.
  destruct (SmallInt_values [x39]) as [H1 _].
  destruct (SmallInt_values [x3a; xff]) as [_ H2].
  destruct (SmallInt_values [x3f]) as [_ H3].
  split; [|split].
  - apply H1. split; discriminate.
  - apply H2. split; discriminate.
  - apply H3. split; discriminate.
Defined.

(** X7 (GetInt, GetUInt): the two getters fail with invalid-type exactly on
    the heads outside [0x20..0x3f], each with its own message; on an Int,
    UInt or SmallInt head no failure is an invalid-type error. *)
Theorem GetInt_GetUInt_invalid_type (s : Slice) :
  (~ 0x20 <= head s <= 0x3f ->
   GetInt s = Err (InvalidTypeError "Expecting type Int")
   /\ GetUInt s = Err (InvalidTypeError "Expecting type UInt"))
  /\ (forall msg,
        GetInt s = Err (InvalidTypeError msg)
        \/ GetUInt s = Err (InvalidTypeError msg) ->
        ~ 0x20 <= head s <= 0x3f).
Proof.
  pose proof (getNumber_SmallInt s) as [Hpos Hneg].
  split.
  - intros H. unfold GetInt, GetUInt, callDepth.
    change (getNumber 3) with (getNumberBody (getNumber 2)).
    unfold getNumberBody.
    destruct (Z.lt_ge_cases (head s) 0x20); zbool; split; reflexivity.
  - intros msg E H.
    head_classes s; try lia.
    + rewrite (GetUInt_calls_GetInt s Hclass) in E.
      unfold GetInt, callDepth in E.
      destruct (getInt_Int_outcome 2 s Hclass) as [E'|[r E']];
        rewrite E' in E; cbn [bind] in E.
      * destruct E; discriminate.
      * destruct (r <? 0); destruct E; discriminate.
    + rewrite (GetInt_calls_GetUInt s Hclass) in E.
      unfold GetUInt, callDepth in E.
      destruct (getUInt_UInt_outcome 2 s Hclass) as [E'|[r E']];
        rewrite E' in E; cbn [bind] in E.
      * destruct E; discriminate.
      * destruct (r >? MaxInt64); destruct E; discriminate.
    + destruct (Hpos Hclass) as (_ & Hi & Hu). rewrite Hi, Hu in E.
      destruct E; discriminate.
    + destruct (Hneg Hclass) as (_ & Hi & Hu). rewrite Hi, Hu in E.
      destruct E; discriminate.
Qed.

Lemma GetInt_GetUInt_invalid_type_witness :
  GetInt [x41; x61] = Err (InvalidTypeError "Expecting type Int")
  /\ GetUInt [x41; x61] = Err (InvalidTypeError "Expecting type UInt")
  /\ ~ 0x20 <= head [x18] <= 0x3f.
Proof.
  destruct (GetInt_GetUInt_invalid_type [x41; x61]) as [H1 _].
  destruct (GetInt_GetUInt_invalid_type [x18]) as [H2 H3].
  destruct H1 as [Hi Hu]; [intros [_ H]; apply H; reflexivity|].
  split; [exact Hi | split; [exact Hu|]].
  apply (H3 "Expecting type Int"%string). left.
  apply H2. intros [H _]. apply H. reflexivity.
Defined.

(** * Integers: payloads *)

Lemma readIntegerLoop_short (n : nat) :
  forall (s : list byte) (x v : Z),
    (List.length s < n)%nat -> readIntegerLoop n s x v = Panic.
Proof.
  induction n as [|n IH]; intros s x v H; [lia|].
  cbn [readIntegerLoop]. destruct s as [|b s]; [reflexivity|].
  apply IH. simpl in H. lia.
Qed.

(** Reading [w] bytes after the head of a Slice that does not hold them
    panics. *)
Lemma read_short (s : Slice) (w : Z) :
  0 <= w -> len s < 1 + w ->
  (s1 <- from s 1 ;; readIntegerNonEmpty s1 w) = Panic.
Proof.
  intros Hw H. unfold from.
  destruct (Z.leb_spec 1 (len s)) as [H1|H1]; cbn [Z.leb andb bind];
    [|reflexivity].
  unfold readIntegerNonEmpty. apply readIntegerLoop_short.
  rewrite length_skipn. unfold len in *. lia.
Qed.

Lemma at_short (s : Slice) (i : Z) : len s <= i -> at_ s i = Panic.
Proof.
  intros H. unfold at_.
  destruct (Z.ltb_spec i (len s)); [lia|].
  rewrite andb_false_r. reflexivity.
Qed.

Lemma getInt_Int_short (d : nat) (s : Slice) :
  0x20 <= head s <= 0x27 ->
  len s < 1 + (head s - 0x1f) ->
  getNumber (S d) getInt s = Panic.
Proof.
  intros H Hlen.
  change (getNumber (S d)) with (getNumberBody (getNumber d)).
  unfold getNumberBody. zbool.
  rewrite (u64_small (head s - 31)) by lia.
  pose proof (read_short s (head s - 31) ltac:(lia) Hlen) as E.
  destruct (from s 1) as [s1| | |]; cbn [bind] in *; try discriminate;
    try reflexivity.
  rewrite E. reflexivity.
Qed.

Lemma getUInt_UInt_short (d : nat) (s : Slice) :
  0x28 <= head s <= 0x2f ->
  len s < 1 + (head s - 0x27) ->
  getNumber (S d) getUInt s = Panic.
Proof.
  intros H Hlen.
  change (getNumber (S d)) with (getNumberBody (getNumber d)).
  unfold getNumberBody.
  destruct (Z.eqb_spec (head s) 40) as [E|E].
  - apply at_short. lia.
  - zbool. rewrite (u64_small (head s - 39)) by lia.
    apply read_short; lia.
Qed.

(** [GetSmallInt] on an Int or UInt head is [GetInt]. *)
Lemma GetSmallInt_calls_GetInt (s : Slice) :
  0x20 <= head s <= 0x2f -> GetSmallInt s = GetInt s.
Proof.
  intros H. unfold GetSmallInt, GetInt, callDepth.
  change (getNumber 3 getSmallInt s)
    with (getNumberBody (getNumber 2) getSmallInt s).
  unfold getNumberBody at 1.
  destruct (Z.le_gt_cases (head s) 0x27); zbool;
    symmetry; apply getNumber_mono;
    destruct (getInt_number_outcome 0 s H) as [E|[E|[r E]]];
    rewrite E; discriminate.
Qed.

(** X8 (GetUInt): on a UInt head [0x27 + n], [GetUInt] returns the [n]
    bytes that follow the head read as a little-endian unsigned integer,
    for [n] from 1 to 8; the value lies below [2^(8n)]. *)
Theorem GetUInt_little_endian (s : Slice) (n : Z) :
  0x28 <= head s <= 0x2f ->
  n = head s - 0x27 ->
  1 + n <= len s ->
  GetUInt s = Ok (littleEndianValue (payload s n))
  /\ 0 <= littleEndianValue (payload s n) < 2 ^ (8 * n).
Proof.
  intros H En Hlen. subst n. split.
  - unfold GetUInt, callDepth. apply getUInt_UInt_head; assumption.
  - apply payload_range; lia.
Qed.

Lemma GetUInt_little_endian_witness :
  GetUInt [x28; x33] = Ok 0x33
  /\ GetUInt [x29; x23; x42] = Ok 0x4223
  /\ GetUInt [x2f; x23; x42; x66; xac; xff; x3f; xfa; x6f]
     = Ok 0x6ffa3fffac664223.
Proof.
  split; [|split].
  - apply (GetUInt_little_endian [x28; x33] 1);
      [split; discriminate | reflexivity | discriminate].
  - apply (GetUInt_little_endian [x29; x23; x42] 2);
      [split; discriminate | reflexivity | discriminate].
  - apply (GetUInt_little_endian
             [x2f; x23; x42; x66; xac; xff; x3f; xfa; x6f] 8);
      [split; discriminate | reflexivity | discriminate].
Defined.

(** X9 (GetInt, GetUInt, GetSmallInt): on an Int or UInt head whose
    payload is cut short, so that the Slice holds fewer bytes than the
    head announces, each of the three getters panics (an index or a
    slice bound out of range); none returns an error value. *)
Theorem truncated_number_panics (s : Slice) :
  0x20 <= head s <= 0x2f ->
  len s < 1 + (if head s <=? 0x27 then head s - 0x1f else head s - 0x27) ->
  GetInt s = Panic /\ GetUInt s = Panic /\ GetSmallInt s = Panic.
Proof.
  intros H Hlen.
  rewrite (GetSmallInt_calls_GetInt s H).
  destruct (Z.leb_spec (head s) 0x27) as [Hi|Hu].
  - assert (Hc : 0x20 <= head s <= 0x27) by lia.
    assert (E : GetInt s = Panic)
      by (apply getInt_Int_short; assumption).
    rewrite (GetUInt_calls_GetInt s Hc), E. repeat split.
  - assert (Hc : 0x28 <= head s <= 0x2f) by lia.
    assert (E : GetUInt s = Panic)
      by (apply getUInt_UInt_short; assumption).
    rewrite (GetInt_calls_GetUInt s Hc), E. repeat split.
Qed.

Lemma truncated_number_panics_witness :
  GetInt [x23; x01; x02] = Panic
  /\ GetUInt [x28] = Panic
  /\ GetSmallInt [x2f; x01] = Panic.
Proof.
  destruct (truncated_number_panics [x23; x01; x02]) as (H1 & _ & _);
    [split; discriminate | reflexivity |].
  destruct (truncated_number_panics [x28]) as (_ & H2 & _);
    [split; discriminate | reflexivity |].
  destruct (truncated_number_panics [x2f; x01]) as (_ & _ & H3);
    [split; discriminate | reflexivity |].
  split; [exact H1 | split; [exact H2 | exact H3]].
Defined.

(** * Search for an attribute that a key has *)

(** The names of a well-formed object, position by position. *)
Lemma memberNames_at (cfg : Settings) (s : Slice) (count : nat) :
  forall (index : Z) (names : list gostring),
    memberNames cfg s count index = Some names ->
    List.length names = count
    /\ forall (j : nat) (name : gostring),
         nth_error names j = Some name ->
         memberName cfg s (index + Z.of_nat j) = Some name.
Proof.
  induction count as [|count IH]; intros index names H;
    cbn [memberNames] in H.
  - inversion H. split; [reflexivity|]. intros [|j] name E; discriminate E.
  - destruct (memberName cfg s index) as [name0|] eqn:En; try discriminate.
    destruct (memberNames cfg s count (index + 1)) as [rest|] eqn:Er;
      try discriminate.
    inversion H. subst names.
    destruct (IH (index + 1) rest Er) as [Hl Hat].
    split; [simpl; rewrite Hl; reflexivity|].
    intros [|j] name E; cbn [nth_error] in E.
    + inversion E. subst. rewrite Z.add_0_r. exact En.
    + replace (index + Z.of_nat (S j)) with (index + 1 + Z.of_nat j) by lia.
      apply Hat. exact E.
Qed.

(** The index table of a well-formed object holds the keys of its members,
    with their names, in the order of the members. *)
Lemma tableKeys_members (cfg : Settings) (s : Slice) (ieBase w : Z)
  (count : nat) :
  forall (index : Z) (names : list gostring),
    (forall i, index <= i < index + Z.of_nat count ->
               KeyAt cfg s i false = entryKey s ieBase w i) ->
    memberNames cfg s count index = Some names ->
    exists keys,
      tableKeys cfg s ieBase w count index = Some keys
      /\ map snd keys = names
      /\ forall (j : nat) (key : Slice) (name : gostring),
           nth_error keys j = Some (key, name) ->
           KeyAt cfg s (index + Z.of_nat j) false = Ok key
           /\ exists value, Next cfg key = Ok value.
Proof.
  induction count as [|count IH]; intros index names Hentry H;
    cbn [memberNames] in H.
  - inversion H. exists []. split; [reflexivity|]. split; [reflexivity|].
    intros [|j] key name E; discriminate E.
  - destruct (memberName cfg s index) as [name0|] eqn:En; try discriminate.
    destruct (memberNames cfg s count (index + 1)) as [rest|] eqn:Er;
      try discriminate.
    inversion H. subst names.
    destruct (memberName_inv cfg s index name0 En)
      as (key0 & value0 & after0 & Hk & Hv & _ & Hkn).
    destruct (IH (index + 1) rest) as (keys & Hkeys & Hmap & Hat);
      [intros i Hi; apply Hentry; lia | exact Er |].
    exists ((key0, name0) :: keys).
    split; [|split].
    + cbn [tableKeys]. rewrite <- Hentry by lia. rewrite Hk, Hkn, Hkeys.
      reflexivity.
    + simpl. rewrite Hmap. reflexivity.
    + intros [|j] key name E; cbn [nth_error] in E.
      * inversion E. subst. rewrite Z.add_0_r.
        split; [exact Hk | exists value0; exact Hv].
      * replace (index + Z.of_nat (S j)) with (index + 1 + Z.of_nat j)
          by lia.
        apply (Hat j key name). exact E.
Qed.

(** The binary search over a table of named keys in ascending order
    returns what the search in the order of the table returns. *)
Lemma searchObjectKeyBinary_lookup (cfg : Settings) (s : Slice)
  (attribute : gostring) (ieBase w n : Z) (keys : list (Slice * gostring)) :
  1 <= n < 2 ^ 64 ->
  tableKeys cfg s ieBase w (Z.to_nat n) 0 = Some keys ->
  ascending (map snd keys) = true ->
  searchObjectKeyBinary cfg searchBudget s attribute ieBase n w
  = lookup cfg keys attribute.
Proof.
  intros Hn Hkeys Hasc. unfold searchObjectKeyBinary.
  replace (n >? 0) with true by (symmetry; apply Z.gtb_lt; lia).
  rewrite VELOCYPACK_ASSERT_true. cbn [bind].
  rewrite (u64_small (n - 1)) by lia.
  replace ((n - 1) / 2) with (0 + (n - 1 - 0) / 2)
    by (rewrite Z.sub_0_r; reflexivity).
  apply (binaryLoop_lookup cfg s attribute ieBase w n keys Hn Hkeys Hasc);
    try lia.
  unfold searchBudget. change (2 ^ Z.of_nat 64) with (2 ^ 64). lia.
Qed.

(** The search in the order of the table returns the Slice after the first
    key of the name. *)
Lemma lookup_at (cfg : Settings) (keys : list (Slice * gostring))
  (attribute : gostring) (j : nat) :
  nth_error (map snd keys) j = Some attribute ->
  (forall i name, (i < j)%nat -> nth_error (map snd keys) i = Some name ->
                  name <> attribute) ->
  exists key,
    nth_error keys j = Some (key, attribute)
    /\ lookup cfg keys attribute = Next cfg key.
Proof.
  intros Hj Hfirst. rewrite nth_error_map in Hj.
  destruct (nth_error keys j) as [[key name]|] eqn:Ej; [|discriminate].
  cbn in Hj. inversion Hj. subst name.
  exists key. split; [reflexivity|].
  apply (lookup_first cfg keys attribute j key Ej).
  intros i k nm Hi Hk. apply (Hfirst i nm Hi).
  rewrite nth_error_map, Hk. reflexivity.
Qed.

(** [Get] on a well-formed object with an index table, for the name of
    the member [j] that no earlier member has. *)
Lemma Get_bound_indexed (cfg : Settings) (s : Slice)
  (names : list gostring) (attribute : gostring) (j : nat) :
  11 <= head s <= 18 ->
  objectNames cfg s = Some names ->
  nth_error names j = Some attribute ->
  (forall i name, (i < j)%nat -> nth_error names i = Some name ->
                  name <> attribute) ->
  (head s <= 0x0e -> (4 <= List.length names)%nat ->
   ascending names = true) ->
  exists key,
    KeyAt cfg s (Z.of_nat j) false = Ok key
    /\ Get cfg s attribute = Next cfg key.
Proof.
  intros Hh Hnames Hj Hfirst Hasc.
  destruct (objectNames_inv cfg s names Hnames) as (Ho & n & HL & Hm).
  destruct (Length_indexTable cfg s n Hh HL) as [ieBase Ht].
  pose proof (indexTable_count cfg s _ _ _ Ht) as Hn.
  set (w := widthMap (head s)) in *.
  destruct (memberNames_at cfg s _ 0 names Hm) as [Hlen Hat].
  assert (Hjn : (j < List.length names)%nat)
    by (apply nth_error_Some; rewrite Hj; discriminate).
  destruct (Z.eq_dec n 1) as [E1|E1].
  - subst n. assert (j = 0%nat) by (change (Z.to_nat 1) with 1%nat in Hlen; lia).
    subst j.
    pose proof (Hat 0%nat attribute Hj) as Hname. cbn in Hname.
    destruct (memberName_inv cfg s 0 attribute Hname)
      as (key & value & after & Hk & _ & _ & Hkn).
    pose proof (KeyAt_single cfg s w ieBase key Hh Ht Hk) as Hs.
    exists key. split; [exact Hk|].
    rewrite (Get_single cfg s attribute w ieBase Hh Ht).
    destruct (findDataOffset cfg s (head s)) as [d| | |];
      cbn [bind] in *; try discriminate.
    rewrite Hs. cbn [bind].
    rewrite (singleKeyEquals_named cfg key attribute attribute Hkn).
    cbn [bind].
    replace (stringEqual attribute attribute) with true
      by (symmetry; apply stringEqual_eq; reflexivity).
    reflexivity.
  - destruct (tableKeys_members cfg s ieBase w (Z.to_nat n) 0 names)
      as (keys & Hkeys & Hmap & Hkat).
    { intros i Hi.
      apply (KeyAt_entry cfg s w n ieBase i Hh Ht E1). lia. }
    { exact Hm. }
    rewrite <- Hmap in Hj, Hfirst, Hasc.
    destruct (lookup_at cfg keys attribute j Hj Hfirst) as (key & Hkj & Hlook).
    destruct (Hkat j key attribute Hkj) as [Hk _]. rewrite Z.add_0_l in Hk.
    exists key. split; [exact Hk|].
    rewrite (Get_search cfg s attribute w n ieBase Hh Ht E1).
    rewrite <- Hlook.
    destruct ((n >=? 4) && (head s <=? 14)) eqn:Eb.
    + apply andb_true_iff in Eb. destruct Eb as [Eb Eh].
      rewrite Z.geb_leb in Eb. apply Z.leb_le in Eb. apply Z.leb_le in Eh.
      apply searchObjectKeyBinary_lookup; [lia | exact Hkeys |].
      apply Hasc; [lia|]. rewrite length_map.
      rewrite (tableKeys_length cfg s ieBase w _ _ _ Hkeys). lia.
    + unfold searchObjectKeyLinear.
      apply linearLoop_lookup; [lia | lia | exact Hkeys].
Qed.

Section CompactFound.

Variable cfg : Settings.
Variable s : Slice.
Variable attribute : gostring.
Variable names : list gostring.
Variable n : Z.
Variable j : nat.

Hypothesis Hh : head s = 0x14.
Hypothesis Hlen : len s < 2 ^ 64.
Hypothesis HL : Length cfg s = Ok n.
Hypothesis Hm : memberNames cfg s (Z.to_nat n) 0 = Some names.
Hypothesis Hj : nth_error names j = Some attribute.
Hypothesis Hfirst :
  forall i name, (i < j)%nat -> nth_error names i = Some name ->
                 name <> attribute.

(** The iterator, standing on the key of a member not after the member
    [j], walks to the member [j] and returns the Slice after its key. *)
Lemma compactSearchLoop_found (m : nat) :
  forall (i : nat) (key : Slice),
    (i <= j)%nat -> Z.of_nat i + Z.of_nat m = n ->
    KeyAt cfg s (Z.of_nat i) false = Ok key ->
    exists keyj,
      KeyAt cfg s (Z.of_nat j) false = Ok keyj
      /\ compactSearchLoop cfg attribute m
           {| it_s := s; position := Z.of_nat i; size := n;
              current := Some key |}
         = Next cfg keyj.
Proof.
  pose proof (Length_compact_range cfg s n Hh HL) as Hn.
  destruct (memberNames_at cfg s _ 0 names Hm) as [Hnl Hat].
  assert (Hjn : (j < List.length names)%nat)
    by (apply nth_error_Some; rewrite Hj; discriminate).
  induction m as [|m IH]; intros i key Hi Him Hk; [lia|].
  assert (Hin : (i < List.length names)%nat) by lia.
  destruct (nth_error names i) as [name|] eqn:Ei;
    [|apply nth_error_None in Ei; lia].
  pose proof (Hat i name Ei) as Hname. rewrite Z.add_0_l in Hname.
  destruct (memberName_inv cfg s _ name Hname)
    as (key' & value & after & Hk' & Hv & Ha & Hkn).
  rewrite Hk in Hk'. inversion Hk'. subst key'.
  destruct (makeKey_named cfg key name Hkn) as (k & Hmk & Hgs).
  cbn [compactSearchLoop]. unfold IsValid, Key. cbn [position size current].
  zbool. calc. rewrite Hmk. calc.
  unfold IsEqualString. rewrite Hgs. calc.
  destruct (Nat.eq_dec i j) as [E|E].
  - subst i. rewrite Hj in Ei. inversion Ei. subst name.
    replace (stringEqual attribute attribute) with true
      by (symmetry; apply stringEqual_eq; reflexivity).
    exists key. split; [exact Hk | reflexivity].
  - rewrite stringEqual_false by (apply (Hfirst i); [lia | exact Ei]).
    unfold IteratorNext. cbn [position size current it_s].
    rewrite (u64_small (Z.of_nat i + 1)) by lia.
    replace (Z.of_nat i + 1 <? n) with true
      by (symmetry; apply Z.ltb_lt; lia).
    rewrite Hv. calc. rewrite Ha. calc.
    replace (Z.of_nat i + 1) with (Z.of_nat (S i)) by lia.
    apply IH; [lia | lia |].
    replace (Z.of_nat (S i)) with (Z.of_nat i + 1) by lia.
    apply (KeyAt_compact_next cfg s n (Z.of_nat i) key value after);
      try assumption; lia.
Qed.

Lemma Get_bound_compact :
  exists key,
    KeyAt cfg s (Z.of_nat j) false = Ok key
    /\ Get cfg s attribute = Next cfg key.
Proof.
  pose proof (Length_compact_range cfg s n Hh HL) as Hn.
  destruct (memberNames_at cfg s _ 0 names Hm) as [Hnl Hat].
  assert (Hjn : (j < List.length names)%nat)
    by (apply nth_error_Some; rewrite Hj; discriminate).
  assert (Ho : IsObject s = true).
  { unfold IsObject, IsType, Type_. rewrite Hh. reflexivity. }
  unfold Get, getFromCompactObject, NewObjectIterator.
  rewrite Ho, Hh, HL. calc.
  replace (n >? 0) with true by (symmetry; apply Z.gtb_lt; lia).
  destruct (nth_error names 0) as [name|] eqn:E0;
    [|apply nth_error_None in E0; lia].
  pose proof (Hat 0%nat name E0) as Hname. cbn in Hname.
  destruct (memberName_inv cfg s 0 name Hname)
    as (key & _ & _ & Hk & _).
  rewrite Hk. calc. cbn [size].
  apply (compactSearchLoop_found (Z.to_nat n) 0 key); [lia | lia | exact Hk].
Qed.

End CompactFound.

(** X10 (Get, getFromCompactObject, searchObjectKeyLinear,
    searchObjectKeyBinary): on a well-formed object of any layout, [Get]
    with the name of a member returns the value of the first member of
    that name: what [ValueAt] returns for its index, the Slice that
    follows its key.  For an object with a sorted head [0x0b..0x0e] and
    four members or more, which [Get] searches by bisection, the names are
    to be in ascending order. *)
Theorem Get_bound_attribute (cfg : Settings) (s : Slice)
  (names : list gostring) (attribute : gostring) (j : nat) :
  len s < 2 ^ 63 ->
  objectNames cfg s = Some names ->
  nth_error names j = Some attribute ->
  (forall i name, (i < j)%nat -> nth_error names i = Some name ->
                  name <> attribute) ->
  (0x0b <= head s <= 0x0e -> (4 <= List.length names)%nat ->
   ascending names = true) ->
  Get cfg s attribute = ValueAt cfg s (Z.of_nat j)
  /\ exists key value,
       KeyAt cfg s (Z.of_nat j) false = Ok key
       /\ keyName cfg key = Some attribute
       /\ Next cfg key = Ok value
       /\ Get cfg s attribute = Ok value.
Proof.
  intros Hlen Hnames Hj Hfirst Hasc.
  destruct (objectNames_inv cfg s names Hnames) as (Ho & n & HL & Hm).
  destruct (memberNames_at cfg s _ 0 names Hm) as [Hnl Hat].
  pose proof (Hat j attribute Hj) as Hname. rewrite Z.add_0_l in Hname.
  destruct (memberName_inv cfg s _ attribute Hname)
    as (key & value & after & Hk & Hv & _ & Hkn).
  assert (Hget : exists key',
             KeyAt cfg s (Z.of_nat j) false = Ok key'
             /\ Get cfg s attribute = Next cfg key').
  { pose proof (IsObject_head s Ho) as Hh.
    destruct (Z.eq_dec (head s) 0x0a) as [E10|E10].
    - exfalso. unfold Length in HL.
      rewrite Ho, E10 in HL. rewrite andb_false_r in HL. calc in HL.
      inversion HL. subst n. simpl in Hnl.
      destruct names; [destruct j; discriminate Hj | discriminate Hnl].
    - destruct (Z.eq_dec (head s) 0x14) as [E20|E20].
      + apply (Get_bound_compact cfg s attribute names n j); try assumption.
        lia.
      + apply (Get_bound_indexed cfg s names attribute j); try assumption.
        * lia.
        * intros Hs. apply Hasc. lia. }
  destruct Hget as (key' & Hk' & Hg).
  rewrite Hk in Hk'. inversion Hk'. subst key'.
  split.
  - rewrite Hg, ValueAt_Next_KeyAt, Hk. reflexivity.
  - exists key, value. rewrite Hg. repeat split; assumption.
Qed.

Lemma Get_bound_attribute_witness :
  Get checked64 sortedObject4 [x63] = ValueAt checked64 sortedObject4 2
  /\ Get checked64 unsortedObject [x61] = ValueAt checked64 unsortedObject 1
  /\ Get checked64 compactObject [x64] = ValueAt checked64 compactObject 3
  /\ Get checked64 singleObject [x61] = ValueAt checked64 singleObject 0.
Proof.
  assert (Hfirst : forall (a : gostring) (l : list gostring) (j : nat),
             forallb (fun b => negb (stringEqual b a)) (firstn j l) = true ->
             forall i name, (i < j)%nat -> nth_error l i = Some name ->
                            name <> a).
  { intros a l j. revert l.
    induction j as [|j IH]; intros l H i name Hi E; [lia|].
    destruct l as [|b l]; [destruct i; discriminate E|].
    cbn [firstn forallb] in H. apply andb_true_iff in H.
    destruct H as [Hb Hl].
    destruct i as [|i]; cbn [nth_error] in E.
    - inversion E. subst b. intros Ea. subst name.
      assert (Hs : stringEqual a a = true)
        by (apply stringEqual_eq; reflexivity).
      rewrite Hs in Hb. discriminate Hb.
    - apply (IH l Hl i name); [lia | exact E]. }
  split; [|split; [|split]].
  - apply (Get_bound_attribute checked64 sortedObject4
             [[x61]; [x62]; [x63]; [x64]] [x63] 2);
      [reflexivity | reflexivity | reflexivity
      | apply Hfirst; reflexivity | intros _ _; reflexivity].
  - apply (Get_bound_attribute checked64 unsortedObject
             [[x62]; [x61]] [x61] 1);
      [reflexivity | reflexivity | reflexivity
      | apply Hfirst; reflexivity | intros [_ H]; exfalso; apply H; reflexivity].
  - apply (Get_bound_attribute checked64 compactObject
             [[x61]; [x62]; [x63]; [x64]] [x64] 3);
      [reflexivity | reflexivity | reflexivity
      | apply Hfirst; reflexivity | intros [_ H]; exfalso; apply H; reflexivity].
  - apply (Get_bound_attribute checked64 singleObject [[x61]] [x61] 0);
      [reflexivity | reflexivity | reflexivity
      | apply Hfirst; reflexivity | intros _ _; reflexivity].
Defined.

(** * Arrays without index table *)

Lemma IsArray_plain (s : Slice) :
  2 <= head s <= 5 -> IsArray s = true /\ IsObject s = false.
Proof.
  intros Hh. unfold IsObject, IsArray, IsType, Type_.
  assert (Hc : head s = 2 \/ head s = 3 \/ head s = 4 \/ head s = 5) by lia.
  repeat (destruct Hc as [Hc|Hc]); rewrite Hc; split; reflexivity.
Qed.

Lemma widthMap_plain (h : Z) : 2 <= h <= 5 -> 0 < widthMap h.
Proof.
  intros Hh.
  assert (Hc : h = 2 \/ h = 3 \/ h = 4 \/ h = 5) by lia.
  repeat (destruct Hc as [Hc|Hc]); rewrite Hc; reflexivity.
Qed.

(** What [Length] and [getNthOffset] read of an array without index
    table: the byte length, the position of the first member and its
    size. *)
Lemma Length_plain (cfg : Settings) (s : Slice) :
  2 <= head s <= 5 ->
  Length cfg s
  = (s1 <- from s 1 ;;
     end_ <- readIntegerNonEmpty s1 (widthMap (head s)) ;;
     d <- findDataOffset cfg s (head s) ;;
     first <- from s d ;;
     size <- ByteSize cfg first ;;
     if size =? 0 then Err InternalError
     else Ok (u64 (end_ - d) / size)).
Proof.
  intros Hh. destruct (IsArray_plain s Hh) as [Ha Ho].
  pose proof (widthMap_plain (head s) Hh) as Hw.
  unfold Length, indexEntrySize. rewrite Ha, Ho. cbn [negb andb].
  zbool. rewrite VELOCYPACK_ASSERT_true. cbn [bind].
  zbool. rewrite VELOCYPACK_ASSERT_true. cbn [bind].
  reflexivity.
Qed.

Lemma getNthOffset_plain (cfg : Settings) (s : Slice) (index : Z) :
  2 <= head s <= 5 ->
  getNthOffset cfg s index
  = (s1 <- from s 1 ;;
     end_ <- readIntegerNonEmpty s1 (widthMap (head s)) ;;
     d <- findDataOffset cfg s (head s) ;;
     first <- from s d ;;
     size <- ByteSize cfg first ;;
     if size =? 0 then Err InternalError
     else if index >=? u64 (end_ - d) / size then Err IndexOutOfBoundsError
     else
       VELOCYPACK_ASSERT cfg (u64 (end_ - d) / size >? 0) ;;;
       d' <- (if d =? 0 then findDataOffset cfg s (head s) else Ok d) ;;
       first' <- from s d' ;;
       size' <- ByteSize cfg first' ;;
       Ok (u64 (d' + index * size'))).
Proof.
  intros Hh. destruct (IsArray_plain s Hh) as [Ha Ho].
  unfold getNthOffset, indexEntrySize. rewrite Ha, Ho. cbn [orb].
  rewrite VELOCYPACK_ASSERT_true. cbn [bind].
  zbool. rewrite VELOCYPACK_ASSERT_true. cbn [bind].
  destruct (from s 1) as [s1| | |]; cbn [bind]; try reflexivity.
  destruct (readIntegerNonEmpty s1 (widthMap (head s))) as [e| | |];
    cbn [bind]; try reflexivity.
  destruct (findDataOffset cfg s (head s)) as [d| | |]; cbn [bind];
    try reflexivity.
  destruct (from s d) as [first| | |]; cbn [bind]; try reflexivity.
  destruct (ByteSize cfg first) as [size| | |]; cbn [bind]; try reflexivity.
  destruct (size =? 0); cbn [bind fst snd]; reflexivity.
Qed.

(** X11 (At, Length, getNthOffset, findDataOffset): in an array without
    index table (heads [0x02..0x05]) whose byte length [end] lies within
    the Slice and not before the first member, [Length] is the number of
    members of the size of the first that fit between the first member and
    [end]; for every index below it [At] returns, without error, the Slice
    at [index] such sizes after the first member, and that member ends
    within the byte length of the array. *)
Theorem At_without_index_table (cfg : Settings) (s : Slice)
  (n i end_ d : Z) :
  2 <= head s <= 5 ->
  ByteSize cfg s = Ok end_ ->
  findDataOffset cfg s (head s) = Ok d ->
  d <= end_ <= len s ->
  Length cfg s = Ok n ->
  0 <= i < n ->
  exists size,
    ByteSize cfg (skipn (Z.to_nat d) s) = Ok size
    /\ 0 < size
    /\ n = (end_ - d) / size
    /\ At cfg s i = Ok (skipn (Z.to_nat (d + i * size)) s)
    /\ d + (i + 1) * size <= end_.
Proof.
  intros Hh Hbs Hd Hend HL Hi.
  destruct (IsArray_plain s Hh) as [Ha Ho].
  pose proof (findDataOffset_values cfg s _ d Hd) as Hdv.
  rewrite ByteSize_length_field in Hbs by lia.
  replace (head s <=? 14) with true in Hbs by (symmetry; apply Z.leb_le; lia).
  rewrite VELOCYPACK_ASSERT_true in Hbs. cbn [bind] in Hbs.
  rewrite (Length_plain cfg s Hh) in HL.
  unfold At, getNth. rewrite Ha. cbn [negb].
  rewrite VELOCYPACK_ASSERT_true. cbn [bind].
  rewrite (getNthOffset_plain cfg s i Hh).
  destruct (from s 1) as [s1| | |]; cbn [bind] in *; try discriminate.
  rewrite Hbs in *. cbn [bind] in *.
  apply readIntegerNonEmpty_range in Hbs.
  rewrite Hd in *. cbn [bind] in *.
  rewrite (from_ok s d) in * by lia. cbn [bind] in *.
  destruct (ByteSize cfg (skipn (Z.to_nat d) s)) as [size| | |] eqn:Es;
    cbn [bind] in *; try discriminate.
  destruct (Z.eqb_spec size 0) as [E0|E0]; [discriminate|].
  rewrite (u64_small (end_ - d)) in * by lia.
  inversion HL as [En].
  assert (Hpos : 0 < size).
  { destruct (Z.lt_trichotomy size 0) as [Hneg|[Hz|Hp]]; [|lia|exact Hp].
    exfalso.
    pose proof (Z.div_mod (end_ - d) size ltac:(lia)) as Hdm.
    pose proof (Z.mod_neg_bound (end_ - d) size Hneg) as Hmb.
    nia. }
  pose proof (Z.mul_div_le (end_ - d) size Hpos) as Hmul.
  exists size. split; [reflexivity|]. split; [exact Hpos|].
  split; [reflexivity|].
  assert (Hin : d + (i + 1) * size <= end_) by nia.
  split; [|exact Hin].
  rewrite En. zbool.
  rewrite VELOCYPACK_ASSERT_true. cbn [bind].
  replace (d =? 0) with false by (symmetry; apply Z.eqb_neq; lia).
  cbn [bind]. rewrite (from_ok s d) by lia. cbn [bind].
  rewrite Es. cbn [bind].
  assert (Hoff : 0 <= d + i * size <= len s) by nia.
  rewrite (u64_small (d + i * size)) by lia.
  apply from_ok. exact Hoff.
Qed.

Lemma At_without_index_table_witness :
  At checked64 smallArray 1 = Ok [x32; x33]
  /\ At checked64 smallArray 2 = Ok [x33].
Proof.
  destruct (At_without_index_table checked64 smallArray 3 1 5 2)
    as (size & Hs & _ & _ & H1 & _);
    [split; discriminate | reflexivity | reflexivity | split; discriminate
    | reflexivity | split; [discriminate | reflexivity] |].
  destruct (At_without_index_table checked64 smallArray 3 2 5 2)
    as (size' & Hs' & _ & _ & H2 & _);
    [split; discriminate | reflexivity | reflexivity | split; discriminate
    | reflexivity | split; [discriminate | reflexivity] |].
  change (ByteSize checked64 (skipn (Z.to_nat 2) smallArray)) with (@Ok Z 1)
    in Hs, Hs'.
  inversion Hs. inversion Hs'. subst size size'.
  split; [exact H1 | exact H2].
Defined.

(** * Compact arrays and objects: members follow one another *)

(** In a compact array the member of an index is found by the walk from
    the first member. *)
Lemma At_compact (cfg : Settings) (s : Slice) (n : Z) :
  head s = 0x13 ->
  Length cfg s = Ok n ->
  exists first,
    forall i, 0 <= i < n ->
      At cfg s i
      = (o <- compactOffsetLoop cfg s 0x13 (Z.to_nat i) first ;;
         from s o).
Proof.
  intros Hh HL.
  assert (Ha : IsArray s = true).
  { unfold IsArray, IsType, Type_. rewrite Hh. reflexivity. }
  assert (Ho : IsObject s = false).
  { unfold IsObject, IsType, Type_. rewrite Hh. reflexivity. }
  unfold Length in HL. rewrite Ho, Ha, Hh in HL. calc in HL.
  repeat step_in HL.
  exists (u64 (1 + getVariableValueLength v0)).
  intros i Hi.
  unfold At, getNth, getNthOffset, getNthOffsetFromCompact.
  rewrite Ha. cbn [negb orb].
  rewrite Hh, !VELOCYPACK_ASSERT_true. calc.
  rewrite E. calc. rewrite E0. calc. rewrite E1. calc. rewrite HL. calc.
  zbool. reflexivity.
Qed.

(** X12 (At, getNthOffsetFromCompact, Next): in a compact array the
    member after the member [i] is what [Next] returns on it: stepping
    with [Next] from a member reaches the following one, as long as that
    one is below [Length]. *)
Theorem At_compact_walk (cfg : Settings) (s : Slice) (n i : Z)
  (member after : Slice) :
  head s = 0x13 ->
  len s < 2 ^ 64 ->
  Length cfg s = Ok n ->
  0 <= i -> i + 1 < n ->
  At cfg s i = Ok member ->
  Next cfg member = Ok after ->
  At cfg s (i + 1) = Ok after.
Proof.
  intros Hh Hlen HL Hi Hi1 Hm Ha.
  destruct (At_compact cfg s n Hh HL) as [first Hat].
  rewrite (Hat i) in Hm by lia.
  rewrite (Hat (i + 1)) by lia.
  replace (Z.to_nat (i + 1)) with (Z.to_nat i + 1)%nat by lia.
  rewrite compactOffsetLoop_app.
  destruct (compactOffsetLoop cfg s 19 (Z.to_nat i) first) as [o| | |];
    cbn [bind] in *; try discriminate.
  apply from_inv in Hm. destruct Hm as [Ho Em].
  unfold Next in Ha.
  destruct (ByteSize cfg member) as [ms| | |] eqn:Ems; cbn [bind] in Ha;
    try discriminate.
  apply from_inv in Ha. destruct Ha as [Hms Eafter].
  assert (Hlm : len member = len s - o) by (subst member; apply len_skipn; lia).
  cbn [compactOffsetLoop]. calc.
  rewrite (from_ok s o) by lia. calc. rewrite <- Em, Ems. calc.
  rewrite (u64_small (o + ms)) by lia.
  rewrite (from_ok s (o + ms)) by lia.
  apply f_equal. rewrite Eafter, Em. symmetry. apply skipn_skipn_Z; lia.
Qed.

Lemma At_compact_walk_witness :
  At checked64 compactArray 1 = Ok [x28; x10; x32; x03]
  /\ At checked64 compactArray 2 = Ok [x32; x03].
Proof.
  assert (H1 : At checked64 compactArray 1 = Ok [x28; x10; x32; x03]).
  { apply (At_compact_walk checked64 compactArray 3 0
             [x31; x28; x10; x32; x03]);
      [reflexivity | reflexivity | reflexivity | discriminate | reflexivity
      | reflexivity | reflexivity]. }
  split; [exact H1|].
  apply (At_compact_walk checked64 compactArray 3 1 [x28; x10; x32; x03]);
    [reflexivity | reflexivity | reflexivity | discriminate | reflexivity
    | exact H1 | reflexivity].
Defined.

(** X13 (KeyAt, ValueAt, getNthOffsetFromCompact, Next): in a compact
    object the key of the member after the member [i] is what [Next]
    returns on the value of the member [i]: key, value, key, value follow
    one another without gap. *)
Theorem KeyAt_compact_walk (cfg : Settings) (s : Slice) (n i : Z)
  (value after : Slice) :
  head s = 0x14 ->
  len s < 2 ^ 64 ->
  Length cfg s = Ok n ->
  0 <= i -> i + 1 < n ->
  ValueAt cfg s i = Ok value ->
  Next cfg value = Ok after ->
  KeyAt cfg s (i + 1) false = Ok after.
Proof.
  intros Hh Hlen HL Hi Hi1 Hv Ha.
  rewrite ValueAt_Next_KeyAt in Hv.
  destruct (KeyAt cfg s i false) as [key| | |] eqn:Hk; cbn [bind] in Hv;
    try discriminate.
  apply (KeyAt_compact_next cfg s n i key value after); assumption.
Qed.

Lemma KeyAt_compact_walk_witness :
  KeyAt checked64 compactObject 2 false
  = Ok [x41; x63; x32; x41; x64; x33; x04].
Proof.
  apply (KeyAt_compact_walk checked64 compactObject 4 1
           [x31; x41; x63; x32; x41; x64; x33; x04]);
    [reflexivity | reflexivity | reflexivity | discriminate | reflexivity
    | reflexivity | reflexivity].
Defined.

(** * The iterator over a compact object *)

(** [KeyAt] with translation is [KeyAt] without, followed by [makeKey]. *)
Lemma KeyAt_translate (cfg : Settings) (s : Slice) (i : Z) :
  KeyAt cfg s i true = (key <- KeyAt cfg s i false ;; makeKey cfg key).
Proof.
  unfold KeyAt, getNthKey.
  destruct (negb (IsObject s)); [reflexivity|].
  destruct (VELOCYPACK_ASSERT cfg (ValueType.eqb (Type_ s) ValueType.Object));
    cbn [bind]; try reflexivity.
  destruct (getNthOffset cfg s i) as [o| | |]; cbn [bind]; try reflexivity.
  destruct (from s o); reflexivity.
Qed.

(** Beyond the last member neither a key nor a value is found. *)
Lemma KeyAt_ValueAt_out_of_bounds (cfg : Settings) (s : Slice) (n i : Z)
  (translate : bool) :
  IsObject s = true ->
  Length cfg s = Ok n ->
  n <= i ->
  KeyAt cfg s i translate = Err IndexOutOfBoundsError
  /\ ValueAt cfg s i = Err IndexOutOfBoundsError.
Proof.
  intros Ho HL Hi.
  pose proof (getNthOffset_out_of_bounds cfg s n i HL Hi) as E.
  unfold KeyAt, ValueAt, getNthKey. rewrite Ho. cbn [negb].
  unfold IsObject, IsType in Ho. rewrite Ho, VELOCYPACK_ASSERT_true.
  cbn [bind]. rewrite E. split; reflexivity.
Qed.

Section CompactIterator.

Variable cfg : Settings.
Variable s : Slice.
Variable names : list gostring.
Variable n : Z.

Hypothesis Hh : head s = 0x14.
Hypothesis Hlen : len s < 2 ^ 64.
Hypothesis HL : Length cfg s = Ok n.
Hypothesis Hm : memberNames cfg s (Z.to_nat n) 0 = Some names.

(** From the key of the member [i], [k] calls of [Next] lead to the key of
    the member [i + k]. *)
Lemma advance_compact (k : nat) :
  forall (i : Z) (cur : option Slice),
    0 <= i -> i + Z.of_nat k <= n ->
    (i < n -> exists key, cur = Some key /\ KeyAt cfg s i false = Ok key) ->
    exists cur',
      advance cfg k {| it_s := s; position := i; size := n; current := cur |}
      = Ok {| it_s := s; position := i + Z.of_nat k; size := n;
              current := cur' |}
      /\ (i + Z.of_nat k < n ->
          exists key, cur' = Some key
                      /\ KeyAt cfg s (i + Z.of_nat k) false = Ok key).
Proof.
  pose proof (Length_compact_range cfg s n Hh HL) as Hn.
  induction k as [|k IH]; intros i cur Hi Hik Hcur.
  - exists cur. cbn [advance]. rewrite Z.add_0_r. split; [reflexivity|].
    exact Hcur.
  - destruct (Hcur ltac:(lia)) as (key & Ecur & Hk). subst cur.
    destruct (objectNames_member cfg s names n i HL Hm ltac:(lia))
      as (name & Hname & _).
    destruct (memberName_inv cfg s i name Hname)
      as (key' & value & after & Hk' & Hv & Ha & _).
    rewrite Hk in Hk'. inversion Hk'. subst key'.
    cbn [advance]. unfold IteratorNext. cbn [position size current it_s].
    rewrite (u64_small (i + 1)) by lia.
    replace (i + Z.of_nat (S k)) with (i + 1 + Z.of_nat k) by lia.
    destruct (Z.ltb_spec (i + 1) n) as [Hlt|Hge].
    + rewrite Hv. calc. rewrite Ha. calc.
      apply IH; [lia | lia |].
      intros _. exists after. split; [reflexivity|].
      apply (KeyAt_compact_next cfg s n i key value after); try assumption.
    + calc. apply IH; [lia | lia |]. intros Hlt. lia.
Qed.

Lemma iterator_compact (k : nat) :
  Z.of_nat k <= n ->
  exists it it',
    NewObjectIterator cfg s = Ok it
    /\ advance cfg k it = Ok it'
    /\ position it' = Z.of_nat k
    /\ size it' = n
    /\ (forall translate,
          Key cfg it' translate = KeyAt cfg s (Z.of_nat k) translate)
    /\ Value cfg it' = ValueAt cfg s (Z.of_nat k).
Proof.
  intros Hk.
  pose proof (Length_compact_range cfg s n Hh HL) as Hn.
  assert (Ho : IsObject s = true).
  { unfold IsObject, IsType, Type_. rewrite Hh. reflexivity. }
  assert (Hstart : exists cur,
             NewObjectIterator cfg s
             = Ok {| it_s := s; position := 0; size := n; current := cur |}
             /\ (0 < n -> exists key, cur = Some key
                                      /\ KeyAt cfg s 0 false = Ok key)).
  { unfold NewObjectIterator. rewrite Ho, Hh, HL. calc.
    destruct (Z.gtb_spec n 0) as [Hpos|Hzero].
    - destruct (objectNames_member cfg s names n 0 HL Hm ltac:(lia))
        as (name & Hname & _).
      destruct (memberName_inv cfg s 0 name Hname)
        as (key & _ & _ & Hk0 & _).
      rewrite Hk0. exists (Some key). split; [reflexivity|].
      intros _. exists key. split; reflexivity.
    - exists None. split; [reflexivity | lia]. }
  destruct Hstart as (cur & Hnew & Hcur).
  destruct (advance_compact k 0 cur ltac:(lia) ltac:(lia) Hcur)
    as (cur' & Hadv & Hcur').
  rewrite Z.add_0_l in Hadv, Hcur'.
  eexists. eexists. split; [exact Hnew|]. split; [exact Hadv|].
  cbn [position size]. split; [reflexivity|]. split; [reflexivity|].
  unfold Key, Value. cbn [position size current it_s].
  destruct (Z.lt_ge_cases (Z.of_nat k) n) as [Hlt|Hge].
  - destruct (Hcur' Hlt) as (key & Ecur & Hkey). subst cur'.
    replace (Z.of_nat k >=? n) with false
      by (symmetry; rewrite Z.geb_leb; apply Z.leb_gt; lia).
    split.
    + intros [|]; [|symmetry; exact Hkey].
      rewrite KeyAt_translate, Hkey. reflexivity.
    + rewrite ValueAt_Next_KeyAt, Hkey. reflexivity.
  - replace (Z.of_nat k >=? n) with true
      by (symmetry; rewrite Z.geb_leb; apply Z.leb_le; lia).
    split.
    + intros translate. symmetry.
      apply (KeyAt_ValueAt_out_of_bounds cfg s n _ translate Ho HL Hge).
    + symmetry.
      apply (KeyAt_ValueAt_out_of_bounds cfg s n _ false Ho HL Hge).
Qed.

End CompactIterator.

(** X14 (NewObjectIterator, IsValid, Key, Value, Next of the iterator): on
    a well-formed compact object the iterator visits the members in the
    order of their indexes.  After [k] calls of [Next] on the new
    iterator, for [k] up to the number of members, the position is [k],
    the iterator is valid exactly when [k] is below the number of members,
    and [Key] and [Value] return what [KeyAt] and [ValueAt] return for the
    index [k], the index-out-of-bounds error at the end included. *)
Theorem iterator_visits_members (cfg : Settings) (s : Slice)
  (names : list gostring) (k : nat) :
  head s = 0x14 ->
  len s < 2 ^ 64 ->
  objectNames cfg s = Some names ->
  (k <= List.length names)%nat ->
  exists it it',
    NewObjectIterator cfg s = Ok it
    /\ advance cfg k it = Ok it'
    /\ position it' = Z.of_nat k
    /\ IsValid it' = (Z.of_nat k <? Z.of_nat (List.length names))
    /\ (forall translate,
          Key cfg it' translate = KeyAt cfg s (Z.of_nat k) translate)
    /\ Value cfg it' = ValueAt cfg s (Z.of_nat k).
Proof.
  intros Hh Hlen Hnames Hk.
  destruct (objectNames_inv cfg s names Hnames) as (Ho & n & HL & Hm).
  pose proof (Length_compact_range cfg s n Hh HL) as Hn.
  destruct (memberNames_at cfg s _ 0 names Hm) as [Hnl _].
  assert (En : n = Z.of_nat (List.length names)) by lia.
  destruct (iterator_compact cfg s names n Hh Hlen HL Hm k ltac:(lia))
    as (it & it' & Hnew & Hadv & Hpos & Hsize & Hkey & Hval).
  exists it, it'. repeat split; try assumption.
  unfold IsValid. rewrite Hpos, Hsize, En. reflexivity.
Qed.

Lemma iterator_visits_members_witness :
  exists it it',
    NewObjectIterator checked64 compactObject = Ok it
    /\ advance checked64 2 it = Ok it'
    /\ position it' = 2
    /\ IsValid it' = true
    /\ (forall translate,
          Key checked64 it' translate
          = KeyAt checked64 compactObject 2 translate)
    /\ Value checked64 it' = ValueAt checked64 compactObject 2.
Proof.
  exact (iterator_visits_members checked64 compactObject
           [[x61]; [x62]; [x63]; [x64]] 2
           eq_refl eq_refl eq_refl (le_S _ _ (le_S _ _ (le_n 2)))).
Defined.

(** * Keys that are not Strings *)

Section LinearSearchStops.

Variable cfg : Settings.
Variable s : Slice.
Variable attribute : gostring.
Variables ieBase w : Z.

(** The linear search passes over entries whose keys have names other
    than the attribute. *)
Lemma linearLoop_skip (c : nat) :
  forall (m : nat) (index : Z) (keys : list (Slice * gostring)),
    0 <= index -> index + Z.of_nat c < 2 ^ 64 ->
    tableKeys cfg s ieBase w c index = Some keys ->
    ~ In attribute (map snd keys) ->
    linearLoop cfg s attribute ieBase w (c + m) index
    = linearLoop cfg s attribute ieBase w m (index + Z.of_nat c).
Proof.
  induction c as [|c IH]; intros m index keys Hi Hb H Hout.
  - rewrite Z.add_0_r. reflexivity.
  - cbn [tableKeys] in H.
    destruct (entryKey s ieBase w index) as [k| | |] eqn:Ek; try discriminate.
    destruct (keyName cfg k) as [nm|] eqn:En; try discriminate.
    destruct (tableKeys cfg s ieBase w c (index + 1)) as [rest|] eqn:E;
      try discriminate.
    inversion H. subst keys.
    cbn [Nat.add linearLoop].
    unfold entryKey in Ek.
    destruct (from s (u64 (ieBase + index * w))) as [so| | |];
      try discriminate; cbn [bind] in *.
    destruct (readIntegerNonEmpty so w) as [o| | |]; try discriminate;
      cbn [bind] in *.
    rewrite Ek. cbn [bind].
    rewrite (keyEquals_named cfg attribute k nm En). cbn [bind].
    rewrite stringEqual_false
      by (intros Ea; apply Hout; left; simpl; exact Ea).
    rewrite u64_small by lia.
    rewrite (IH m (index + 1) rest); [f_equal; lia | lia | lia | exact E |].
    intros Hin. apply Hout. right. exact Hin.
Qed.

(** The linear search at an entry whose key fails the comparison, or has
    no type to compare. *)
Lemma linearLoop_stops (m : nat) (index : Z) (key : Slice) :
  entryKey s ieBase w index = Ok key ->
  linearLoop cfg s attribute ieBase w (S m) index
  = match keyEquals cfg key attribute with
    | Ok (Some true) => Next cfg key
    | Ok (Some false) =>
        linearLoop cfg s attribute ieBase w m (u64 (index + 1))
    | Ok None => Ok nilSlice
    | Err e => Err e
    | Panic => Panic
    | Timeout => Timeout
    end.
Proof.
  intros Ek. cbn [linearLoop]. unfold entryKey in Ek.
  destruct (from s (u64 (ieBase + index * w))) as [so| | |];
    try discriminate; cbn [bind] in *.
  destruct (readIntegerNonEmpty so w) as [o| | |]; try discriminate;
    cbn [bind] in *.
  rewrite Ek. cbn [bind].
  destruct (keyEquals cfg key attribute) as [[[|]|]| | |]; reflexivity.
Qed.

End LinearSearchStops.

(** X15 (searchObjectKeyLinear, translateUnchecked): the linear search
    stops at the first key that is not a String, whatever the entries
    after it hold.  When the entries before the entry [c] have names other
    than the attribute and the key of the entry [c] is neither a String
    nor an integer, the search returns the None-Slice and no error; when
    it is an integer and there is no attribute translator, the search
    fails with the needs-translator error; when it is an integer that the
    translator has no name for, the search fails with the invalid-type
    error of the string comparison. *)
Theorem linear_search_stops_at_key (cfg : Settings) (s : Slice)
  (attribute : gostring) (ieBase w n c : Z)
  (keys : list (Slice * gostring)) (key : Slice) :
  0 <= c < n -> n < 2 ^ 64 ->
  tableKeys cfg s ieBase w (Z.to_nat c) 0 = Some keys ->
  ~ In attribute (map snd keys) ->
  entryKey s ieBase w c = Ok key ->
  IsString key = false ->
  (IsSmallInt key || IsUInt key = false ->
   searchObjectKeyLinear cfg s attribute ieBase w n = Ok nilSlice)
  /\ (IsSmallInt key || IsUInt key = true ->
      AttributeTranslator cfg = None ->
      searchObjectKeyLinear cfg s attribute ieBase w n
      = Err NeedAttributeTranslatorError)
  /\ (IsSmallInt key || IsUInt key = true ->
      forall IDToString id,
        AttributeTranslator cfg = Some IDToString ->
        getUIntUnchecked key = Ok id ->
        IDToString id = [] ->
        searchObjectKeyLinear cfg s attribute ieBase w n
        = Err (InvalidTypeError "Expecting type String")).
Proof.
  intros Hc Hn Hkeys Hout Hkey Hstr.
  assert (Hsearch : searchObjectKeyLinear cfg s attribute ieBase w n
                    = match keyEquals cfg key attribute with
                      | Ok (Some true) => Next cfg key
                      | Ok (Some false) =>
                          linearLoop cfg s attribute ieBase w
                            (Z.to_nat (n - c - 1)) (u64 (c + 1))
                      | Ok None => Ok nilSlice
                      | Err e => Err e
                      | Panic => Panic
                      | Timeout => Timeout
                      end).
  { unfold searchObjectKeyLinear.
    replace (Z.to_nat n) with (Z.to_nat c + S (Z.to_nat (n - c - 1)))%nat
      by lia.
    rewrite (linearLoop_skip cfg s attribute ieBase w (Z.to_nat c) _ 0 keys);
      [| lia | lia | exact Hkeys | exact Hout].
    rewrite Z.add_0_l, Z2Nat.id by lia.
    apply linearLoop_stops. exact Hkey. }
  rewrite Hsearch. unfold keyEquals. rewrite Hstr.
  split; [|split].
  - intros Hint. rewrite Hint. reflexivity.
  - intros Hint Hnil. rewrite Hint. unfold translatorIsNil. rewrite Hnil.
    reflexivity.
  - intros Hint IDToString id Htr Hid Hname. rewrite Hint.
    unfold translatorIsNil, translateUnchecked. rewrite Htr, Hid.
    cbn [bind]. rewrite Hname. reflexivity.
Qed.

Lemma linear_search_stops_at_key_witness :
  searchObjectKeyLinear checked64 nullKeyObject [x61] 8 1 2 = Ok nilSlice
  /\ searchObjectKeyLinear checked64 integerKeyObject [x61] 8 1 2
     = Err NeedAttributeTranslatorError
  /\ searchObjectKeyLinear emptyTranslator64 integerKeyObject [x61] 8 1 2
     = Err (InvalidTypeError "Expecting type String").
Proof.
  destruct (linear_search_stops_at_key checked64 nullKeyObject [x61] 8 1 2 0
              [] (skipn 3 nullKeyObject))
    as (H1 & _ & _);
    [split; [discriminate | reflexivity] | reflexivity | reflexivity
    | intros [] | reflexivity | reflexivity |].
  destruct (linear_search_stops_at_key checked64 integerKeyObject [x61]
              8 1 2 0 [] (skipn 3 integerKeyObject))
    as (_ & H2 & _);
    [split; [discriminate | reflexivity] | reflexivity | reflexivity
    | intros [] | reflexivity | reflexivity |].
  destruct (linear_search_stops_at_key emptyTranslator64 integerKeyObject
              [x61] 8 1 2 0 [] (skipn 3 integerKeyObject))
    as (_ & _ & H3);
    [split; [discriminate | reflexivity] | reflexivity | reflexivity
    | intros [] | reflexivity | reflexivity |].
  split; [|split].
  - apply H1. reflexivity.
  - apply H2; reflexivity.
  - apply (H3 eq_refl (fun _ => []) 1); reflexivity.
Defined.

(** X16 (KeyAt, getNthKey, makeKey): what the flag [translate] of [KeyAt]
    changes.  Where [KeyAt] without translation returns a key, [KeyAt]
    with translation returns the same key when it is a String; it fails
    with the needs-translator error when the key is an integer and there
    is no attribute translator, and with an invalid-type error when the
    key is of any other type. *)
Theorem KeyAt_translation (cfg : Settings) (s : Slice) (i : Z)
  (key : Slice) :
  KeyAt cfg s i false = Ok key ->
  (IsString key = true -> KeyAt cfg s i true = Ok key)
  /\ (IsString key = false -> IsSmallInt key || IsUInt key = true ->
      AttributeTranslator cfg = None ->
      KeyAt cfg s i true = Err NeedAttributeTranslatorError)
  /\ (IsString key = false -> IsSmallInt key || IsUInt key = false ->
      KeyAt cfg s i true
      = Err (InvalidTypeError "Cannot translate key of this type")).
Proof.
  intros Hk. rewrite KeyAt_translate, Hk. cbn [bind]. unfold makeKey.
  split; [|split].
  - intros Hs. rewrite Hs. reflexivity.
  - intros Hs Hint Hnil. rewrite Hs, Hint. unfold translatorIsNil.
    rewrite Hnil. reflexivity.
  - intros Hs Hint. rewrite Hs, Hint. reflexivity.
Qed.

Lemma KeyAt_translation_witness :
  KeyAt checked64 sortedObject 1 true
  = Ok [x41; x62; x32; x41; x63; x33; x03; x06; x09]
  /\ KeyAt checked64 integerKeyObject 0 true
     = Err NeedAttributeTranslatorError
  /\ KeyAt checked64 nullKeyObject 0 true
     = Err (InvalidTypeError "Cannot translate key of this type").
Proof.
  destruct (KeyAt_translation checked64 sortedObject 1
              [x41; x62; x32; x41; x63; x33; x03; x06; x09])
    as (H1 & _ & _); [reflexivity|].
  destruct (KeyAt_translation checked64 integerKeyObject 0
              (skipn 3 integerKeyObject))
    as (_ & H2 & _); [reflexivity|].
  destruct (KeyAt_translation checked64 nullKeyObject 0
              (skipn 3 nullKeyObject))
    as (_ & _ & H3); [reflexivity|].
  split; [|split].
  - apply H1. reflexivity.
  - apply H2; reflexivity.
  - apply H3; reflexivity.
Defined.

(** * Bytes after a value *)

(** The Slices that [At], [KeyAt], [ValueAt] and [Next] return reach to the
    end of the enclosing Slice; the lemmas of this part show that the bytes
    after a value do not change what is read from it. *)

Lemma len_app (s t : Slice) : len (s ++ t) = len s + len t.
Proof. unfold len. rewrite length_app. lia. Qed.

Lemma head_app (s t : Slice) : s <> [] -> head (s ++ t) = head s.
Proof. destruct s as [|b s]; [congruence | reflexivity]. Qed.

Lemma from_app (s t r : Slice) (a : Z) :
  from s a = Ok r -> from (s ++ t) a = Ok (r ++ t).
Proof.
  intros H. apply from_inv in H. destruct H as [Ha Er]. subst r.
  pose proof (len_nonneg t) as Ht.
  rewrite from_ok by (rewrite len_app; lia).
  f_equal. rewrite skipn_app.
  replace (Z.to_nat a - List.length s)%nat with 0%nat
    by (unfold len in Ha; lia).
  reflexivity.
Qed.


Lemma at_app (s t : Slice) (i v : Z) :
  at_ s i = Ok v -> at_ (s ++ t) i = Ok v.
Proof.
  unfold at_. rewrite len_app. pose proof (len_nonneg t) as Ht.
  destruct (Z.leb_spec 0 i); cbn [andb]; [|discriminate].
  destruct (Z.ltb_spec i (len s)); [|discriminate].
  replace (i <? len s + len t) with true by (symmetry; apply Z.ltb_lt; lia).
  rewrite nth_error_app1 by (unfold len in *; lia).
  intros E. exact E.
Qed.

Lemma readIntegerLoop_app (n : nat) (t : list byte) :
  forall (s : list byte) (x v r : Z),
    readIntegerLoop n s x v = Ok r ->
    readIntegerLoop n (s ++ t) x v = Ok r.
Proof.
  induction n as [|n IH]; intros s x v r H; cbn [readIntegerLoop] in *.
  - exact H.
  - destruct s as [|b s]; [discriminate|]. cbn [app]. apply IH. exact H.
Qed.

Lemma readIntegerNonEmpty_app (s t : Slice) (w r : Z) :
  readIntegerNonEmpty s w = Ok r -> readIntegerNonEmpty (s ++ t) w = Ok r.
Proof. apply readIntegerLoop_app. Qed.

Lemma readIntegerFixed_app (s t : Slice) (w r : Z) :
  readIntegerFixed s w = Ok r -> readIntegerFixed (s ++ t) w = Ok r.
Proof. apply readIntegerLoop_app. Qed.


(** Takes the calls of [H : ... = Ok _] apart, one after the other, and
    replays each on the Slice followed by [t]. *)
Ltac replay t H :=
  repeat (cbn [bind] in H; cbn [bind];
          match type of H with
          | bind (from ?s ?a) _ = Ok _ =>
              let E := fresh "E" in
              destruct (from s a) eqn:E; try discriminate H;
              rewrite (from_app _ t _ _ E)
          | bind (readIntegerNonEmpty ?s ?w) _ = Ok _ =>
              let E := fresh "E" in
              destruct (readIntegerNonEmpty s w) eqn:E; try discriminate H;
              rewrite (readIntegerNonEmpty_app _ t _ _ E)
          | bind (readIntegerFixed ?s ?w) _ = Ok _ =>
              let E := fresh "E" in
              destruct (readIntegerFixed s w) eqn:E; try discriminate H;
              rewrite (readIntegerFixed_app _ t _ _ E)
          | bind (VELOCYPACK_ASSERT ?c ?b) _ = Ok _ =>
              destruct (VELOCYPACK_ASSERT c b); try discriminate H
          | bind (checkOverflow ?c ?l) _ = Ok _ =>
              destruct (checkOverflow c l); try discriminate H
          | (if ?c then _ else _) = Ok _ => destruct c; try discriminate H
          end).

Lemma getNumber_app (t : Slice) (d : nat) :
  forall (g : getter) (s : Slice) (v : Z),
    getNumber d g s = Ok v -> getNumber d g (s ++ t) = Ok v.
Proof.
  induction d as [|d IH]; intros g s v H; [discriminate H|].
  change (getNumber (S d)) with (getNumberBody (getNumber d)) in *.
  destruct s as [|b s]; [destruct g; discriminate H|].
  unfold getNumberBody in *.
  rewrite head_app by discriminate.
  destruct g.
  all: replay t H.
  all: try exact H.
  all: try (apply readIntegerNonEmpty_app; exact H).
  all: try (apply at_app; exact H).
  all: try (apply IH; exact H).
  all: match type of H with
       | bind (getNumber ?d' ?g ?s) _ = Ok _ =>
           let E := fresh "E" in
           destruct (getNumber d' g s) eqn:E; try discriminate H;
           rewrite (IH _ _ _ E)
       end.
  all: exact H.
Qed.

(** X17 (GetInt, GetUInt, GetSmallInt): the integer getters read the head
    and the payload only.  A value that a getter returns on a Slice is
    returned on every Slice that continues it with further bytes, as the
    Slices do that [At], [KeyAt] and [ValueAt] return. *)
Theorem integers_ignore_following_bytes (s t : Slice) (v : Z) :
  (GetInt s = Ok v -> GetInt (s ++ t) = Ok v)
  /\ (GetUInt s = Ok v -> GetUInt (s ++ t) = Ok v)
  /\ (GetSmallInt s = Ok v -> GetSmallInt (s ++ t) = Ok v).
Proof.
  unfold GetInt, GetUInt, GetSmallInt.
  repeat split; apply getNumber_app.
Qed.

Lemma integers_ignore_following_bytes_witness :
  GetInt ([x21; xfe; xff] ++ [x41; x61]) = Ok (-2)
  /\ GetUInt ([x28; x33] ++ [x00]) = Ok 0x33
  /\ GetSmallInt ([x3a] ++ [x31; x32]) = Ok (-6).
Proof.
  destruct (integers_ignore_following_bytes [x21; xfe; xff] [x41; x61] (-2))
    as (H1 & _ & _).
  destruct (integers_ignore_following_bytes [x28; x33] [x00] 0x33)
    as (_ & H2 & _).
  destruct (integers_ignore_following_bytes [x3a] [x31; x32] (-6))
    as (_ & _ & H3).
  split; [apply H1; reflexivity | split; [apply H2 | apply H3]; reflexivity].
Defined.




(** * Sizes of BCD and Custom values *)

Lemma typeMap_BCD (h : Z) : 0xc8 <= h <= 0xd7 -> typeMap h = ValueType.BCD.
Proof. intros H. unfold typeMap, within. zbool. reflexivity. Qed.

Lemma typeMap_Custom (h : Z) :
  0xf0 <= h <= 0xff -> typeMap h = ValueType.Custom.
Proof. intros H. unfold typeMap, within. zbool. reflexivity. Qed.

Lemma readFixed_payload (s : Slice) (n : Z) :
  0 <= n <= 8 -> 1 + n <= len s ->
  (s1 <- from s 1 ;; readIntegerFixed s1 n)
  = Ok (littleEndianValue (payload s n)).
Proof. exact (read_payload s n). Qed.

(** X19 (ByteSize): the size of a BCD value.  On a BCD head with a length
    field of [n] bytes ([n = head - 0xc7] on the positive heads
    [0xc8..0xcf], [n = head - 0xcf] on the negative heads [0xd0..0xd7])
    whose length field is present, [ByteSize] is the head, the [n] bytes
    of the field and the little-endian value of the field, for [n] up to
    7.  The heads with [n = 8], [0xcf] and [0xd7], are outside the
    assertions [h < 0xcf] and [h < 0xd7]: with checked assertions
    [ByteSize] panics on them, without it reads the eight bytes. *)
Theorem ByteSize_BCD (cfg : Settings) (s : Slice) (n : Z) :
  (0xc8 <= head s <= 0xcf /\ n = head s - 0xc7)
  \/ (0xd0 <= head s <= 0xd7 /\ n = head s - 0xcf) ->
  1 + n <= len s ->
  (n <= 7 ->
   ByteSize cfg s = Ok (1 + n + littleEndianValue (payload s n)))
  /\ (n = 8 ->
      ByteSize cfg s
      = if assertionsChecked cfg then Panic
        else Ok (u64 (1 + 8 + littleEndianValue (payload s 8)))).
Proof.
  intros Hh Hlen.
  assert (Hn : 1 <= n <= 8) by lia.
  assert (Hb : 0xc8 <= head s <= 0xd7) by lia.
  pose proof (payload_range s n ltac:(lia) Hlen) as Hv.
  pose proof (read_payload s n ltac:(lia) Hlen) as Hr.
  assert (Hfix : fixedTypeLengths (charPtrLength cfg) (head s) = 0).
  { unfold fixedTypeLengths, within. zbool. reflexivity. }
  unfold ByteSize. rewrite Hfix. unfold Type_.
  rewrite (typeMap_BCD (head s) Hb). cbn [Z.eqb negb].
  unfold VELOCYPACK_ASSERT.
  destruct Hh as [[Hh En]|[Hh En]].
  - replace (head s <=? 207) with true by (symmetry; apply Z.leb_le; lia).
    rewrite (u64_small (head s - 199)) by lia. rewrite <- En.
    split; intros Hc.
    + assert (Hp : 2 ^ (8 * n) <= 2 ^ 56) by (apply Z.pow_le_mono_r; lia).
      zbool.
      replace (if assertionsChecked cfg then Ok tt else Ok tt)
        with (@Ok unit tt) by (destruct (assertionsChecked cfg); reflexivity).
      cbn [bind].
      destruct (from s 1) as [s1| | |]; cbn [bind] in *; try discriminate.
      rewrite Hr. cbn [bind]. f_equal.
      replace (1 + head s - 199) with (1 + n) by lia.
      apply u64_small. lia.
    + assert (Eh : head s = 207) by lia.
      subst n. zbool. replace (head s - 199) with 8 in * by lia.
      destruct (assertionsChecked cfg); cbn [bind]; [reflexivity|].
      destruct (from s 1) as [s1| | |]; cbn [bind] in *; try discriminate.
      rewrite Hr. cbn [bind].
      replace (1 + head s - 199) with (1 + 8) by lia. reflexivity.
  - replace (head s <=? 207) with false by (symmetry; apply Z.leb_gt; lia).
    rewrite (u64_small (head s - 207)) by lia. rewrite <- En.
    split; intros Hc.
    + assert (Hp : 2 ^ (8 * n) <= 2 ^ 56) by (apply Z.pow_le_mono_r; lia).
      zbool.
      replace (if assertionsChecked cfg then Ok tt else Ok tt)
        with (@Ok unit tt) by (destruct (assertionsChecked cfg); reflexivity).
      cbn [bind].
      destruct (from s 1) as [s1| | |]; cbn [bind] in *; try discriminate.
      rewrite Hr. cbn [bind]. f_equal.
      replace (1 + head s - 207) with (1 + n) by lia.
      apply u64_small. lia.
    + assert (Eh : head s = 215) by lia.
      subst n. zbool. replace (head s - 207) with 8 in * by lia.
      destruct (assertionsChecked cfg); cbn [bind]; [reflexivity|].
      destruct (from s 1) as [s1| | |]; cbn [bind] in *; try discriminate.
      rewrite Hr. cbn [bind].
      replace (1 + head s - 207) with (1 + 8) by lia. reflexivity.
Qed.

Lemma ByteSize_BCD_witness :
  ByteSize checked64 [xc8; x03; x12; x34; x56] = Ok 5
  /\ ByteSize checked64 [xd7; x01; x00; x00; x00; x00; x00; x00; x00; x12]
     = Panic
  /\ ByteSize unchecked64 [xd7; x01; x00; x00; x00; x00; x00; x00; x00; x12]
     = Ok 10.
Proof.
  destruct (ByteSize_BCD checked64 [xc8; x03; x12; x34; x56] 1)
    as [H1 _];
    [left; split; [split; discriminate | reflexivity] | discriminate |].
  destruct (ByteSize_BCD checked64
              [xd7; x01; x00; x00; x00; x00; x00; x00; x00; x12] 8)
    as [_ H2];
    [right; split; [split; discriminate | reflexivity] | discriminate |].
  destruct (ByteSize_BCD unchecked64
              [xd7; x01; x00; x00; x00; x00; x00; x00; x00; x12] 8)
    as [_ H3];
    [right; split; [split; discriminate | reflexivity] | discriminate |].
  split; [|split].
  - apply H1. discriminate.
  - apply H2. reflexivity.
  - apply H3. reflexivity.
Defined.

(** X20 (ByteSize): the size of a Custom value with a length field.  On
    the heads [0xf4..0xff], in groups of three with a length field of 1,
    2, 4 and 8 bytes, [ByteSize] is the head, the bytes of the field and
    the little-endian value of the field, cut to 64 bits. *)
Theorem ByteSize_Custom (cfg : Settings) (s : Slice) (w : Z) :
  0xf4 <= head s <= 0xff ->
  w = 2 ^ ((head s - 0xf4) / 3) ->
  1 + w <= len s ->
  ByteSize cfg s = Ok (u64 (1 + w + littleEndianValue (payload s w))).
Proof.
  intros Hh Ew Hlen.
  assert (Hfix : fixedTypeLengths (charPtrLength cfg) (head s) = 0).
  { unfold fixedTypeLengths, within. zbool. reflexivity. }
  unfold ByteSize. rewrite Hfix. unfold Type_.
  rewrite (typeMap_Custom (head s) ltac:(lia)). cbn [Z.eqb negb].
  replace (head s >=? 244) with true
    by (symmetry; rewrite Z.geb_leb; apply Z.leb_le; lia).
  rewrite VELOCYPACK_ASSERT_true. cbn [bind].
  assert (Hc : head s = 244 \/ head s = 245 \/ head s = 246
               \/ head s = 247 \/ head s = 248 \/ head s = 249
               \/ head s = 250 \/ head s = 251 \/ head s = 252
               \/ head s = 253 \/ head s = 254 \/ head s = 255) by lia.
  repeat (destruct Hc as [Hc|Hc]); rewrite Hc in *;
    subst w;
    match type of Hlen with
    | 1 + 2 ^ ?e <= _ =>
        let v := eval vm_compute in (2 ^ e) in
        change (2 ^ e) with v in *
    end;
    calc;
    match goal with
    | |- context [readIntegerFixed _ ?n] =>
        let Hr := fresh "Hr" in
        pose proof (readFixed_payload s n ltac:(lia) Hlen) as Hr;
        destruct (from s 1) as [s1| | |]; cbn [bind] in *;
        try discriminate Hr; rewrite Hr
    end;
    cbn [bind]; reflexivity.
Qed.

Lemma ByteSize_Custom_witness :
  ByteSize checked64 [xf4; x02; xaa; xbb] = Ok 4
  /\ ByteSize checked64 [xf9; x00; x01] = Ok 259.
Proof.
  split.
  - apply (ByteSize_Custom checked64 [xf4; x02; xaa; xbb] 1);
      [split; discriminate | reflexivity | discriminate].
  - apply (ByteSize_Custom checked64 [xf9; x00; x01] 2);
      [split; discriminate | reflexivity | discriminate].
Defined.
